(** * Script segmentation and audio assembly of the guided-prayer generator

    Shallow embedding of the text-to-speech pipeline of the repository:
    [parseDialogueIntoChunks] and [generateSpeech], in the two versions the
    repository carries: [src/services/geminiService.ts] (module [Services])
    and the second service file, which has a segmenter and a pipeline of its
    own (module [Variant]).

    JavaScript strings are sequences of UTF-16 code units; they are modelled
    as lists of code units ([N]).  The regular expressions of the code are
    modelled by scanners that make the same matches.  Calls to the remote
    synthesis service and to the output file are modelled by an explicit
    environment ([world]) that decides what every request returns and which
    file operation throws; a run is a computation on a machine that records
    the file, the requests made and the callbacks invoked.  Console output
    is left out, except the warning of the finalization; the delays between
    requests have no effect on what is recorded and are left out too.

    What the language leaves to the engine that runs the code (the Unicode
    case conversion, the text of its own errors) is a parameter of the
    model ([Engine]); numbers are double-precision numbers, and the
    arithmetic of the code is modelled with its rounding. *)

From Stdlib Require Import Ascii String DecimalString.
From Stdlib.Strings Require Import Byte.
From Stdlib Require Import List Sorted NArith Arith Lia Bool.
From Corelib Require Import PrimFloat.
Import ListNotations.

(* ===================================================================== *)
(** ** JavaScript strings and the built-ins the code uses *)
(* ===================================================================== *)

Module JS.

Definition str := list N.

(** A literal: the code units of an ASCII string. *)
Definition lit (s : string) : str := map N_of_ascii (list_ascii_of_string s).

Definition str_eqb (a b : str) : bool :=
  if list_eq_dec N.eq_dec a b then true else false.

(** LineTerminator: LF, CR, LS, PS. *)
Definition is_line_terminator (c : N) : bool :=
  ((c =? 10) || (c =? 13) || (c =? 8232) || (c =? 8233))%N.

(** WhiteSpace and LineTerminator: what [String.prototype.trim] removes and
    what [\s] matches. *)
Definition is_ws (c : N) : bool :=
  ((c =? 9) || (c =? 10) || (c =? 11) || (c =? 12) || (c =? 13) || (c =? 32)
   || (c =? 160) || (c =? 5760) || ((8192 <=? c) && (c <=? 8202))
   || (c =? 8232) || (c =? 8233) || (c =? 8239) || (c =? 8287)
   || (c =? 12288) || (c =? 65279))%N.

Fixpoint dropWhile (p : N -> bool) (s : str) : str :=
  match s with
  | [] => []
  | c :: r => if p c then dropWhile p r else s
  end.

Fixpoint takeWhile (p : N -> bool) (s : str) : str :=
  match s with
  | [] => []
  | c :: r => if p c then c :: takeWhile p r else []
  end.

Definition trimStart (s : str) : str := dropWhile is_ws s.
Definition trimEnd (s : str) : str := rev (dropWhile is_ws (rev s)).
Definition trim (s : str) : str := trimEnd (trimStart s).

(** [s.trim()] used as a condition: the empty string is falsy. *)
Definition nonblank (s : str) : bool :=
  match trim s with [] => false | _ => true end.

(** [s.split('\n')]; the empty string gives one empty line. *)
Fixpoint split_lines (s : str) : list str :=
  match s with
  | [] => [[]]
  | c :: r =>
      if (c =? 10)%N then [] :: split_lines r
      else match split_lines r with
           | l :: ls => (c :: l) :: ls
           | [] => [[c]]
           end
  end.

Fixpoint starts_with (needle s : str) : bool :=
  match needle, s with
  | [], _ => true
  | _ :: _, [] => false
  | a :: n', b :: s' => (a =? b)%N && starts_with n' s'
  end.

(** [s.includes(needle)]. *)
Fixpoint includes (s needle : str) : bool :=
  starts_with needle s ||
  match s with
  | [] => false
  | _ :: r => includes r needle
  end.

(** The case conversion of one code unit of Basic Latin or Latin-1: what
    [toLowerCase] does on a string of code units up to U+00FF, in every
    engine.  It serves the examples, whose strings are Basic Latin. *)
Definition latin1_lower_unit (c : N) : N :=
  (if (65 <=? c) && (c <=? 90) then c + 32
   else if (192 <=? c) && (c <=? 222) && negb (c =? 215) then c + 32
   else c)%N.

(** A plain string: every code unit is of Basic Latin (below U+0080) or
    is white space. *)
Definition plain (s : str) : bool :=
  forallb (fun c => (c <? 128)%N || is_ws c) s.

(** What the language leaves to the engine that runs the code.
    [toLowerCase] is [String.prototype.toLowerCase]: the case conversion of
    the Unicode version the engine carries, which reaches far beyond
    Latin-1 and maps some code units to several or according to their
    context.  All that is known of it here is what every engine does on a
    plain string: the letters A to Z become a to z and nothing else
    changes, white space having no case.  [nullishMessage] is the message
    of the [TypeError] the engine makes when a property of [null] or
    [undefined] is read.  The code is modelled over any engine. *)
Class Engine := {
  toLowerCase : str -> str;
  nullishMessage : str;
  toLowerCase_plain :
    forall s, plain s = true -> toLowerCase s = map latin1_lower_unit s
}.

(** [s.split(' ')[0]]: the text before the first space. *)
Definition first_word (s : str) : str :=
  takeWhile (fun c => negb (c =? 32)%N) s.

End JS.

Import JS.

(* ===================================================================== *)
(** ** Sentence splitting shared by both versions *)
(* ===================================================================== *)

Module Sentences.

(** [[.!?]] *)
Definition is_term (c : N) : bool := ((c =? 46) || (c =? 33) || (c =? 63))%N.

(** A closing quote, single or double. *)
Definition is_quote (c : N) : bool := ((c =? 34) || (c =? 39))%N.

Definition not_term (c : N) : bool := negb (is_term c).

(** One attempt of the sentence pattern at the start of [s], giving the
    matched text: a non-empty run of units other than [.!?], then either a
    non-empty run of [.!?] (and, with [quote], one closing quote if one
    follows: the services version), or the end of the string.  The first run
    is greedy and a shorter one is never followed by a terminator, so the
    match is determined by the longest runs. *)
Definition sentence_at (quote : bool) (s : str) : option str :=
  let body := takeWhile not_term s in
  let r1 := dropWhile not_term s in
  match body with
  | [] => None
  | _ :: _ =>
      match r1 with
      | [] => Some body
      | _ :: _ =>
          let marks := takeWhile is_term r1 in
          match dropWhile is_term r1 with
          | q :: _ =>
              if quote && is_quote q then Some (body ++ marks ++ [q])
              else Some (body ++ marks)
          | [] => Some (body ++ marks)
          end
      end
  end.

(** [s.match(/.../g)]: every match from left to right; after a match the
    search resumes behind it ([skip] counts the code units still covered by
    the last match), where the pattern fails it resumes one unit later. *)
Fixpoint match_all (quote : bool) (skip : nat) (s : str) : list str :=
  match s with
  | [] => []
  | _ :: r =>
      match skip with
      | S k => match_all quote k r
      | O =>
          match sentence_at quote s with
          | Some m => m :: match_all quote (length m - 1) r
          | None => match_all quote 0 r
          end
      end
  end.

(** [s.match(/.../g) || [s]] *)
Definition sentences (quote : bool) (s : str) : list str :=
  match match_all quote 0 s with
  | [] => [s]
  | l => l
  end.

End Sentences.

Import Sentences.


(* ===================================================================== *)
(** ** The output file, the callbacks and the effects of a run *)
(* ===================================================================== *)

Module Runtime.

Definition bytes := list byte.

(** What the caller observes: the callbacks invoked, in order, and the
    warning of the finalization step. *)
Inductive event :=
| onChunk (data : bytes)
| onProgress (val : N)
| onComplete
| onError (msg : str)
| consoleWarn.

(** What a [write] carries: a header built for a payload size, or audio. *)
Inductive written :=
| Header (dataLength : N)
| Audio.

(** Operations on the [FileSystemWritableFileStream] that completed. *)
Inductive file_op :=
| FsCreateWritable
| FsWrite (what : written) (data : bytes)
| FsSeek (position : nat)
| FsClose.

Record machine := {
  staged : bytes;               (* the bytes of the stream *)
  cursor : nat;                 (* its position *)
  closed : bool;
  issued : nat;                 (* file operations attempted so far *)
  journal : list file_op;       (* those that completed *)
  requests : list (str * str);  (* synthesis requests made: text and voice *)
  calls : list event
}.

Definition boot : machine :=
  {| staged := []; cursor := 0; closed := false; issued := 0;
     journal := []; requests := []; calls := [] |}.

(** A thrown value, by what the code reads of it.  [null] and [undefined]
    have no property that can be read; of every other value the code reads
    the [message] at most, to pass it on where it is truthy: a string,
    empty where the value has no message or a falsy one. *)
Inductive thrown_value :=
| Nullish
| WithMessage (message : str).

(** A computation changes the machine and returns or throws; what it did
    before throwing stays done. *)
Definition M (A : Type) : Type := machine -> machine * (thrown_value + A).

Definition ret {A} (a : A) : M A := fun m => (m, inr a).

Definition throw {A} (e : thrown_value) : M A := fun m => (m, inl e).

Definition bind {A B} (c : M A) (k : A -> M B) : M B :=
  fun m =>
    match c m with
    | (m1, inr a) => k a m1
    | (m1, inl e) => (m1, inl e)
    end.

(** [try { c } catch (e) { handler e }] *)
Definition try_catch {A} (c : M A) (handler : thrown_value -> M A) : M A :=
  fun m =>
    match c m with
    | (m1, inl e) => handler e m1
    | r => r
    end.

Definition add_calls (m : machine) (evs : list event) : machine :=
  {| staged := staged m; cursor := cursor m; closed := closed m;
     issued := issued m; journal := journal m; requests := requests m;
     calls := calls m ++ evs |}.

Definition add_requests (m : machine) (rs : list (str * str)) : machine :=
  {| staged := staged m; cursor := cursor m; closed := closed m;
     issued := issued m; journal := journal m; requests := requests m ++ rs;
     calls := calls m |}.

(** A callback is invoked. *)
Definition emit (ev : event) : M unit := fun m => (add_calls m [ev], inr tt).

(** A synthesis request leaves for the service. *)
Definition ask (text voice : str) : M unit :=
  fun m => (add_requests m [(text, voice)], inr tt).

(** Bytes written at a position replace what was there and extend the
    stream. *)
Definition write_at (pos : nat) (data content : bytes) : bytes :=
  firstn pos content ++ repeat x00 (pos - length content) ++ data
  ++ skipn (pos + length data) content.

(** Which file operations throw: the environment decides from the operation
    and from how many operations were attempted before it. *)
Definition faults := file_op -> nat -> option thrown_value.

(** One operation on the stream: it throws when the environment says so
    (and then changes nothing), otherwise it takes effect and is logged. *)
Definition attempt (fault : faults) (op : file_op)
                   (effect : machine -> bytes * nat * bool) : M unit :=
  fun m =>
    match fault op (issued m) with
    | Some e =>
        ({| staged := staged m; cursor := cursor m; closed := closed m;
            issued := S (issued m); journal := journal m;
            requests := requests m; calls := calls m |}, inl e)
    | None =>
        let '(st, cu, cl) := effect m in
        ({| staged := st; cursor := cu; closed := cl;
            issued := S (issued m); journal := journal m ++ [op];
            requests := requests m; calls := calls m |}, inr tt)
    end.

(** [fileHandle.createWritable()]: an empty stream at position 0. *)
Definition createWritable (fault : faults) : M unit :=
  attempt fault FsCreateWritable (fun _ => ([], 0, false)).

Definition write (fault : faults) (what : written) (data : bytes) : M unit :=
  attempt fault (FsWrite what data)
    (fun m => (write_at (cursor m) data (staged m),
               cursor m + length data, closed m)).

Definition seek (fault : faults) (pos : nat) : M unit :=
  attempt fault (FsSeek pos) (fun m => (staged m, pos, closed m)).

Definition close (fault : faults) : M unit :=
  attempt fault FsClose (fun m => (staged m, cursor m, true)).

(** *** Numbers

    The numbers of the code are double-precision numbers.  Every finite
    double is a whole multiple of 2^-1074, and a double that is not negative
    is written here as that multiple. *)
Definition quantum : N := 2 ^ 1074.

(** The whole number nearest to [a / b], the even one of two that are
    equally near. *)
Definition nearest_even (a b : N) : N :=
  (let q := a / b in
   let r := a mod b in
   if 2 * r <? b then q
   else if b <? 2 * r then q + 1
   else if N.even q then q else q + 1)%N.

(** The double nearest to the quotient [a / b] of two whole numbers of
    quanta, the one with the even significand of two that are equally near:
    the result of an operation whose exact value is [a / b].  Doubles of up
    to 53 bits of quanta (the subnormal numbers and the first binade) are one
    quantum apart; where the quotient has [j] + 1 bits they are 2^([j] - 52)
    quanta apart.  Overflow is not modelled: the numbers of the code are
    positions and lengths of arrays, below 2^32. *)
Definition to_double (a b : N) : N :=
  (let s := N.log2 (a / b) - 52 in
   2 ^ s * nearest_even a (b * 2 ^ s))%N.

(** [Math.round(x)] for a double [x] that is not negative: the nearest
    whole number, the greater one of two that are equally near. *)
Definition math_round (x : N) : N := ((2 * x + quantum) / (2 * quantum))%N.

(** [Math.round((k / n) * 100)] for [0 < n]: the division and the
    multiplication each give the nearest double. *)
Definition percent (k n : nat) : N :=
  let ratio := to_double (N.of_nat k * quantum) (N.of_nat n) in
  math_round (to_double (ratio * 100) 1).

Record Speaker := { name : str; voice : str }.

(** [MultiSpeakerConfig] *)
Record MultiSpeakerConfig := { speakers : list Speaker }.

Definition is_open (c : N) : bool := ((c =? 40) || (c =? 91))%N.
Definition is_close (c : N) : bool := ((c =? 41) || (c =? 93))%N.

End Runtime.

(** The same percentage on the binary64 numbers of the machine, to compare
    [percent] with. *)
Module Hardware.

(** A whole number as a double; exact below 2^53. *)
Fixpoint float_of_positive (p : positive) : float :=
  match p with
  | xH => 1%float
  | xO q => (2 * float_of_positive q)%float
  | xI q => (2 * float_of_positive q + 1)%float
  end.

Definition float_of_N (n : N) : float :=
  match n with
  | N0 => 0%float
  | Npos p => float_of_positive p
  end.

(** [(k / n) * 100], the argument of [Math.round]. *)
Definition scaled (k n : nat) : float :=
  (float_of_N (N.of_nat k) / float_of_N (N.of_nat n) * 100)%float.

(** [Math.round(x) = j] for a whole number [j]: [x] lies from [j - 0.5] up
    to [j + 0.5], the latter left out. *)
Definition rounds_to (x : float) (j : N) : bool :=
  (PrimFloat.leb (float_of_N j - 0.5) x
   && PrimFloat.ltb x (float_of_N j + 0.5))%float.

(** The pairs [(k, n)] with [1 <= k <= n <= m]. *)
Definition grid (m : nat) : list (nat * nat) :=
  flat_map (fun n => map (fun k => (S k, S n)) (seq 0 (S n))) (seq 0 m).

End Hardware.

Import Runtime.

Declare Scope js_scope.
Delimit Scope js_scope with js.
Notation "x <- c ;; k" := (bind c (fun x => k))
  (at level 61, c at next level, right associativity) : js_scope.
Notation "c ;; k" := (bind c (fun _ => k))
  (at level 61, right associativity) : js_scope.
Open Scope js_scope.

(* ===================================================================== *)
(** ** src/services/geminiService.ts: segmenter and pipeline *)
(* ===================================================================== *)

Module Services.

Record DialogueBlock := { speaker : str; text : str }.

Section OverEngine.
Context {engine : Engine}.

Definition MAX_CHAR_LIMIT : nat := 1500.

(** The variables the closure [pushBuffer] shares with the loop. *)
Record parser := {
  blocks : list DialogueBlock;
  currentSpeaker : str;
  currentBuffer : str
}.

Definition is_star (c : N) : bool := (c =? 42)%N.

(** [[A-Za-z\s]] *)
Definition is_name_unit (c : N) : bool :=
  (((65 <=? c) && (c <=? 90)) || ((97 <=? c) && (c <=? 122)))%N || is_ws c.

(** [line.match(speakerRegex)], giving groups 2 and 4 (the name and the
    trailing text).  The pattern is anchored at both ends of the line: at
    most two asterisks, a non-empty run of letters and white space, at most
    two asterisks, a colon, white space, then the rest of the line.  The
    rest is matched by a dot, which matches no line terminator, so a line
    terminator left after the colon and its white space defeats the match. *)
Definition match_speaker (line : str) : option (str * str) :=
  let stars1 := takeWhile is_star line in
  let r1 := dropWhile is_star line in
  if 2 <? length stars1 then None else
  let name := takeWhile is_name_unit r1 in
  let r2 := dropWhile is_name_unit r1 in
  match name with
  | [] => None
  | _ :: _ =>
      let stars2 := takeWhile is_star r2 in
      if 2 <? length stars2 then None else
      match dropWhile is_star r2 with
      | c :: r4 =>
          if (c =? 58)%N then
            let rest := dropWhile is_ws r4 in
            if existsb is_line_terminator rest then None
            else Some (name, rest)
          else None
      | [] => None
      end
  end.

(** The body of the loop over the sentences of a long buffer. *)
Definition pack (spk : str) (acc : list DialogueBlock * str) (sentence : str)
  : list DialogueBlock * str :=
  let (out, tempChunk) := acc in
  if MAX_CHAR_LIMIT <? length (tempChunk ++ sentence)
  then (out ++ [{| speaker := spk; text := trim tempChunk |}], sentence)
  else (out, tempChunk ++ sentence).

Definition pushBuffer (p : parser) : parser :=
  if nonblank (currentBuffer p) then
    if MAX_CHAR_LIMIT <? length (currentBuffer p) then
      let (out, tempChunk) :=
        fold_left (pack (currentSpeaker p)) (sentences true (currentBuffer p))
                  (blocks p, []) in
      {| blocks :=
           if nonblank tempChunk
           then out ++ [{| speaker := currentSpeaker p; text := trim tempChunk |}]
           else out;
         currentSpeaker := currentSpeaker p;
         currentBuffer := [] |}
    else
      {| blocks := blocks p ++ [{| speaker := currentSpeaker p;
                                   text := trim (currentBuffer p) |}];
         currentSpeaker := currentSpeaker p;
         currentBuffer := [] |}
  else p.

Definition canonical_speaker (rawName : str) : str :=
  if includes (toLowerCase rawName) (lit "roberta") then lit "Roberta Erickson"
  else if includes (toLowerCase rawName) (lit "milton") then lit "Milton Dilts"
  else rawName.

(** The body of [for (const line of lines)]. *)
Definition line_step (p : parser) (line : str) : parser :=
  match match_speaker line with
  | Some (name, rest) =>
      let p' := pushBuffer p in
      {| blocks := blocks p';
         currentSpeaker := canonical_speaker (trim name);
         currentBuffer := rest ++ [32%N] |}
  | None =>
      if nonblank line then
        {| blocks := blocks p;
           currentSpeaker := currentSpeaker p;
           currentBuffer := currentBuffer p ++ trim line ++ [10%N] |}
      else p
  end.

Definition parseDialogueIntoChunks (text : str) : list DialogueBlock :=
  let p := pushBuffer
             (fold_left line_step (split_lines text)
                {| blocks := []; currentSpeaker := lit "Narrator";
                   currentBuffer := [] |}) in
  if (length (blocks p) =? 0) && (0 <? length (trim text)) then
    blocks (pushBuffer {| blocks := blocks p;
                          currentSpeaker := lit "Narrator";
                          currentBuffer := text |})
  else blocks p.

(** *** generateSpeech *)

(** What a synthesis request produces: the chunks of the response stream,
    each with its decoded audio or without data, until the stream ends or
    throws.  A request that is rejected is a stream that throws at once; a
    payload that cannot be decoded throws where it is reached. *)
Inductive stream :=
| StreamEnd
| StreamChunk (data : option bytes) (rest : stream)
| StreamThrow (e : thrown_value).

(** The environment of a run: the response to the request made for block
    [i] with a text and a voice, and the file operations that throw. *)
Record world := {
  synthesize : nat -> str -> str -> stream;
  fault : faults
}.

(** The lazy group of the stage-direction pattern: up to the first closing
    bracket, over units that are not line terminators. *)
Fixpoint after_close (s : str) : option str :=
  match s with
  | [] => None
  | c :: r =>
      if is_close c then Some r
      else if is_line_terminator c then None
      else after_close r
  end.

(** [block.text.replace(re, "")] for the stage-direction pattern: white
    space, an opening bracket, the lazy group, a closing bracket, white
    space, all at the start of the text. *)
Definition cleanedText (t : str) : str :=
  match dropWhile is_ws t with
  | c :: r =>
      if is_open c then
        match after_close r with
        | Some r2 => dropWhile is_ws r2
        | None => t
        end
      else t
  | [] => t
  end.

(** [speakers.find(s => s.name === speaker)] *)
Definition find_speaker (cfg : MultiSpeakerConfig) (spk : str) : option Speaker :=
  find (fun s => str_eqb (name s) spk) (speakers cfg).

(** Dynamic voice selection. *)
Definition voiceName (multiSpeakerConfig : option MultiSpeakerConfig)
                     (spk : str) : str :=
  let speakerName := toLowerCase spk in
  if includes speakerName (lit "roberta") then lit "Aoede"
  else if includes speakerName (lit "milton") then lit "Enceladus"
  else match multiSpeakerConfig with
       | Some cfg =>
           match find_speaker cfg spk with
           | Some found => voice found
           | None => lit "Kore"
           end
       | None => lit "Kore"
       end.

Section Pipeline.

(** [createWavHeader] of [utils/audio] is not part of the sources at hand;
    the pipeline is modelled over any header builder. *)
Variable createWavHeader : N -> N -> N -> N -> bytes.

Variable w : world.

(** [for await (const chunk of responseStream)]: gives the bytes added to
    [totalSize]. *)
Fixpoint consume (writable : bool) (s : stream) (totalSize : nat) : M nat :=
  match s with
  | StreamEnd => ret totalSize
  | StreamThrow e => throw e
  | StreamChunk None rest => consume writable rest totalSize
  | StreamChunk (Some data) rest =>
      (if writable then write (fault w) Audio data else emit (onChunk data)) ;;
      consume writable rest (totalSize + length data)
  end.

(** The sequential generation loop from block [i] on, [n] being
    [blocks.length]. *)
Fixpoint assembly (writable : bool) (cfg : option MultiSpeakerConfig)
                  (n i : nat) (bs : list DialogueBlock) (totalSize : nat)
  : M nat :=
  match bs with
  | [] => ret totalSize
  | block :: rest =>
      let cleaned := cleanedText (text block) in
      if nonblank cleaned then
        let voice := voiceName cfg (speaker block) in
        ask cleaned voice ;;
        total <- consume writable (synthesize w i cleaned voice) totalSize ;;
        emit (onProgress (percent (i + 1) n)) ;;
        assembly writable cfg n (S i) rest total
      else assembly writable cfg n (S i) rest totalSize
  end.

(** Finalization of the file: the header rewrite is in a [try] of its own. *)
Definition finalize (totalSize : nat) : M unit :=
  try_catch
    (seek (fault w) 0 ;;
     write (fault w) (Header (N.of_nat totalSize))
           (createWavHeader (N.of_nat totalSize) 1 24000 16))
    (fun _ => emit consoleWarn) ;;
  close (fault w).

(** [message || "Audio generation failed"] *)
Definition error_message (message : str) : str :=
  match message with
  | [] => lit "Audio generation failed"
  | _ => message
  end.

(** [error.message]: a [TypeError] where [error] is [null] or
    [undefined]. *)
Definition read_message (error : thrown_value) : M str :=
  match error with
  | Nullish => throw (WithMessage nullishMessage)
  | WithMessage message => ret message
  end.

(** The [catch] block of the run. *)
Definition report (error : thrown_value) : M unit :=
  message <- read_message error ;;
  emit (onError (error_message message)).

Definition generateSpeech (text : str)
                          (multiSpeakerConfig : option MultiSpeakerConfig)
                          (fileHandle : bool) : M unit :=
  try_catch
    (let blocks := parseDialogueIntoChunks text in
     (if fileHandle then
        createWritable (fault w) ;;
        write (fault w) (Header 0) (createWavHeader 0 1 24000 16)
      else ret tt) ;;
     totalSize <- assembly fileHandle multiSpeakerConfig (length blocks) 0
                           blocks 0 ;;
     (if fileHandle then finalize totalSize else ret tt) ;;
     emit onComplete)
    (fun error => report error).

End Pipeline.

End OverEngine.

End Services.

(* ===================================================================== *)
(** ** The second service file: segmenter and pipeline *)
(* ===================================================================== *)

Module Variant.

Record DialogueBlock := { speaker : str; text : str }.

Definition MAX_CHARS : nat := 1500.

(** *** cleanTextForSpeech *)

(** One attempt of the stage-direction pattern at the start of [s], giving
    what follows the match: white space, an opening bracket, units other
    than closing brackets, a closing bracket, white space. *)
Definition direction_at (s : str) : option str :=
  match dropWhile is_ws s with
  | c :: r =>
      if is_open c then
        match dropWhile (fun d => negb (is_close d)) r with
        | _ :: r2 => Some (dropWhile is_ws r2)
        | [] => None
        end
      else None
  | [] => None
  end.

(** The replacement is global and multi-line: the pattern is tried at the
    start of the text and behind every line terminator; [bol] tells whether
    the current position is such a place, [skip] counts the units still
    covered by the last match. *)
Fixpoint clean_from (bol : bool) (skip : nat) (s : str) : str :=
  match s with
  | [] => []
  | c :: r =>
      match skip with
      | S k => clean_from (is_line_terminator c) k r
      | O =>
          match (if bol then direction_at s else None) with
          | Some rest =>
              clean_from (is_line_terminator c) (length s - length rest - 1) r
          | None => c :: clean_from (is_line_terminator c) 0 r
          end
      end
  end.

Definition cleanTextForSpeech (t : str) : str := clean_from true 0 t.

(** *** parseDialogueIntoChunks *)

Record parser := {
  chunks : list DialogueBlock;
  currentSpeaker : str;
  currentBuffer : str
}.

Section Segmenter.

(** Which code units above U+007F the class of [speakerRegex] accepts under
    its [i] flag.  Nothing proved below depends on it. *)
Variable name_ext : N -> bool.

Definition is_name_unit (c : N) : bool :=
  (((65 <=? c) && (c <=? 90)) || ((97 <=? c) && (c <=? 122)) || (c =? 32)
   || ((128 <=? c) && name_ext c))%N.

(** [line.match(speakerRegex)]: a non-empty run of the class and a colon at
    the start of the line; gives group 1 and [line.replace(speakerRegex, '')]. *)
Definition match_speaker (line : str) : option (str * str) :=
  match takeWhile is_name_unit line with
  | [] => None
  | nm =>
      match dropWhile is_name_unit line with
      | c :: rest => if (c =? 58)%N then Some (nm, rest) else None
      | [] => None
      end
  end.

Definition flush (p : parser) : list DialogueBlock :=
  if nonblank (currentBuffer p)
  then chunks p ++ [{| speaker := currentSpeaker p;
                       text := trim (currentBuffer p) |}]
  else chunks p.

Definition line_step (p : parser) (line : str) : parser :=
  match match_speaker line with
  | Some (nm, rest) =>
      {| chunks := flush p;
         currentSpeaker := trim nm;
         currentBuffer := trim rest |}
  | None =>
      if nonblank line then
        {| chunks := chunks p;
           currentSpeaker := currentSpeaker p;
           currentBuffer := currentBuffer p ++ [32%N] ++ trim line |}
      else p
  end.

(** The body of the loop over the sentences of a long chunk. *)
Definition pack (spk : str) (acc : list DialogueBlock * str) (sentence : str)
  : list DialogueBlock * str :=
  let (out, temp) := acc in
  if MAX_CHARS <? length (temp ++ sentence)
  then (out ++ [{| speaker := spk; text := temp |}], sentence)
  else (out, match temp with
             | [] => sentence
             | _ :: _ => temp ++ [32%N] ++ sentence
             end).

Definition split_chunk (chunk : DialogueBlock) : list DialogueBlock :=
  if MAX_CHARS <? length (text chunk) then
    let (out, temp) :=
      fold_left (pack (speaker chunk)) (sentences false (text chunk)) ([], []) in
    match temp with
    | [] => out
    | _ :: _ => out ++ [{| speaker := speaker chunk; text := temp |}]
    end
  else [chunk].

Definition parseDialogueIntoChunks (text : str) : list DialogueBlock :=
  let p := fold_left line_step (split_lines text)
             {| chunks := []; currentSpeaker := lit "Narrator";
                currentBuffer := [] |} in
  flat_map split_chunk (flush p).

End Segmenter.

(** *** generateSpeech *)

(** The answer to one synthesis request: it throws, or it returns with or
    without audio data (already decoded; a payload that cannot be decoded
    throws in the same [try]). *)
Inductive response :=
| Throws (e : thrown_value)
| Returns (audioData : option bytes).

Record world := {
  synthesize : nat -> str -> str -> response;
  fault : faults
}.

(** Which of the optional callbacks the caller supplied. *)
Record callbacks := {
  has_onChunk : bool;
  has_onProgress : bool;
  has_onComplete : bool;
  has_onError : bool
}.

Definition all_callbacks : callbacks :=
  {| has_onChunk := true; has_onProgress := true; has_onComplete := true;
     has_onError := true |}.

Definition decimal (n : nat) : str :=
  lit (DecimalString.NilEmpty.string_of_uint (Nat.to_uint n)).

Definition block_error (k : nat) : str :=
  lit "Error generating audio for block " ++ decimal k.

Section OverEngine.
Context {engine : Engine}.

(** Voice selection: the first entry of the map whose first name is part of
    the speaker, else the default. *)
Definition voiceName (multiSpeakerConfig : option MultiSpeakerConfig)
                     (spk : str) : str :=
  match multiSpeakerConfig with
  | Some cfg =>
      match find (fun s => includes (toLowerCase spk)
                                    (first_word (toLowerCase (name s))))
                 (speakers cfg) with
      | Some speakerMap => voice speakerMap
      | None => lit "Aoede"
      end
  | None => lit "Aoede"
  end.

(** Modelled from the spec: [writeChunkToStream] of [utils/opfsUtils] is not
    part of the sources at hand; per the spec the decoded bytes are
    appended to the sink. *)
Definition writeChunkToStream (fault : faults) (data : bytes)
  : M unit :=
  write fault Audio data.

Section Pipeline.

Variable w : world.
Variable cb : callbacks.

Definition when (b : bool) (c : M unit) : M unit := if b then c else ret tt.

(** The body of the [try] for the block at position [i]; gives the new
    value of [processedBlocks]. *)
Definition attempt_block (writable : bool)
                         (cfg : option MultiSpeakerConfig)
                         (totalBlocks i : nat) (block : DialogueBlock)
                         (processedBlocks : nat) : M nat :=
  let textToSpeak := cleanTextForSpeech (text block) in
  if nonblank textToSpeak then
    let voice := voiceName cfg (speaker block) in
    ask textToSpeak voice ;;
    match synthesize w i textToSpeak voice with
    | Throws e => throw e
    | Returns audioData =>
        match audioData with
        | Some data =>
            if writable then writeChunkToStream (fault w) data
            else when (has_onChunk cb) (emit (onChunk data))
        | None => ret tt
        end ;;
        when (has_onProgress cb)
             (emit (onProgress (percent (S processedBlocks) totalBlocks))) ;;
        ret (S processedBlocks)
    end
  else ret processedBlocks.

Fixpoint assembly (writable : bool) (cfg : option MultiSpeakerConfig)
                  (totalBlocks i : nat) (bs : list DialogueBlock)
                  (processedBlocks : nat) : M nat :=
  match bs with
  | [] => ret processedBlocks
  | block :: rest =>
      processed <-
        try_catch
          (attempt_block writable cfg totalBlocks i block processedBlocks)
          (fun _ =>
             when (has_onError cb)
                  (emit (onError (block_error (processedBlocks + 1)))) ;;
             ret processedBlocks) ;;
      assembly writable cfg totalBlocks (S i) rest processed
  end.

Definition generateSpeech_blocks (blocks : list DialogueBlock)
                                 (multiSpeakerConfig : option MultiSpeakerConfig)
                                 (opfsFileHandle : bool) : M unit :=
  when opfsFileHandle (createWritable (fault w)) ;;
  assembly opfsFileHandle multiSpeakerConfig (length blocks) 0 blocks 0 ;;
  when opfsFileHandle (close (fault w)) ;;
  when (has_onComplete cb) (emit onComplete).

End Pipeline.

Definition generateSpeech (name_ext : N -> bool) (w : world) (cb : callbacks)
                          (text : str)
                          (multiSpeakerConfig : option MultiSpeakerConfig)
                          (opfsFileHandle : bool) : M unit :=
  generateSpeech_blocks w cb (parseDialogueIntoChunks name_ext text)
                        multiSpeakerConfig opfsFileHandle.

End OverEngine.

End Variant.

(* ===================================================================== *)
(** ** Observations on a run *)
(* ===================================================================== *)

(** A run starts on a machine where nothing has happened yet. *)
Definition run {A} (c : M A) : machine * (thrown_value + A) := c boot.

Definition progress_values (evs : list event) : list N :=
  flat_map (fun ev => match ev with onProgress v => [v] | _ => [] end) evs.

Definition chunk_values (evs : list event) : list bytes :=
  flat_map (fun ev => match ev with onChunk d => [d] | _ => [] end) evs.

Definition error_values (evs : list event) : list str :=
  flat_map (fun ev => match ev with onError e => [e] | _ => [] end) evs.

(** The payload sizes of the headers written, in order. *)
Definition header_sizes (ops : list file_op) : list N :=
  flat_map (fun op => match op with FsWrite (Header n) _ => [n] | _ => [] end)
           ops.

(** The events of the assembly loop: audio and progress only. *)
Definition loop_event (ev : event) : Prop :=
  match ev with
  | onChunk _ | onProgress _ => True
  | _ => False
  end.

(** The environment never makes a file operation throw. *)
Definition reliable (f : faults) : Prop := forall op k, f op k = None.

(** Writes of audio never throw (other operations may). *)
Definition audio_safe (f : faults) : Prop :=
  forall d k, f (FsWrite Audio d) k = None.

(** The header rewrite of the finalization is the only thing that may
    throw: a [seek], or a [write] of a header that is not the placeholder
    (the placeholder is the second operation of a run). *)
Definition rewrite_op (op : file_op) : bool :=
  match op with
  | FsSeek _ => true
  | FsWrite (Header _) _ => true
  | _ => false
  end.

Definition only_rewrite_fails (f : faults) : Prop :=
  forall op k e, f op k = Some e ->
    match op with
    | FsSeek _ => True
    | FsWrite (Header _) _ => 2 <= k
    | _ => False
    end.

(** What happens in a run, as far as the assembly loop decides it. *)
Inductive step :=
| Asked (text voice : str)
| Got (data : bytes)
| Reported (val : N)
| Erred (msg : str).

Definition asks (sc : list step) : list (str * str) :=
  flat_map (fun st => match st with Asked t v => [(t, v)] | _ => [] end) sc.

Definition gots (sc : list step) : list bytes :=
  flat_map (fun st => match st with Got d => [d] | _ => [] end) sc.

Definition reports (sc : list step) : list N :=
  flat_map (fun st => match st with Reported v => [v] | _ => [] end) sc.

(** The callbacks a list of steps stands for, without and with a file. *)
Definition heard (writable : bool) (sc : list step) : list event :=
  flat_map (fun st => match st with
                      | Got d => if writable then [] else [onChunk d]
                      | Reported v => [onProgress v]
                      | Erred e => [onError e]
                      | Asked _ _ => []
                      end) sc.

(** The effect of a list of steps on the machine when no write throws and
    the stream is at its end. *)
Definition played (writable : bool) (m : machine) (sc : list step) : machine :=
  {| staged := if writable then staged m ++ concat (gots sc) else staged m;
     cursor := if writable then cursor m + length (concat (gots sc))
               else cursor m;
     closed := closed m;
     issued := if writable then issued m + length (gots sc) else issued m;
     journal := if writable then journal m ++ map (FsWrite Audio) (gots sc)
                else journal m;
     requests := requests m ++ asks sc;
     calls := calls m ++ heard writable sc |}.

(** A machine whose stream is positioned at its end. *)
Definition at_end (m : machine) : Prop := cursor m = length (staged m).

(** The header has the same size whatever payload size it declares. *)
Definition fixed_size (createWavHeader : N -> N -> N -> N -> bytes) : Prop :=
  forall n, length (createWavHeader n 1 24000 16)%N = 44.

(** The audio written to the file, in order. *)
Definition audio_written (ops : list file_op) : list bytes :=
  flat_map (fun op => match op with FsWrite Audio d => [d] | _ => [] end) ops.

(** The file cannot seek. *)
Definition seek_unsupported (f : faults) : Prop :=
  forall pos k, f (FsSeek pos) k <> None.

(** The file refuses a header once the placeholder is written. *)
Definition rewrite_refused (f : faults) : Prop :=
  forall n d k, 2 <= k -> f (FsWrite (Header n) d) k <> None.

Module ServicesScript.
Import Services.

Section OverEngine.
Context {engine : Engine}.

Fixpoint stream_data (s : stream) : list bytes :=
  match s with
  | StreamEnd => []
  | StreamThrow _ => []
  | StreamChunk None rest => stream_data rest
  | StreamChunk (Some d) rest => d :: stream_data rest
  end.

Fixpoint thrown (s : stream) : option thrown_value :=
  match s with
  | StreamEnd => None
  | StreamThrow e => Some e
  | StreamChunk _ rest => thrown rest
  end.

Definition speakable (b : DialogueBlock) : bool :=
  nonblank (cleanedText (text b)).

(** The request made for the block at position [i]. *)
Definition answer (w : world) (cfg : option MultiSpeakerConfig) (i : nat)
                  (b : DialogueBlock) : stream :=
  synthesize w i (cleanedText (text b)) (voiceName cfg (speaker b)).

(** The steps of the loop from block [i] on, and the exception that ends
    it, when no file operation throws. *)
Fixpoint script (w : world) (cfg : option MultiSpeakerConfig) (n i : nat)
                (bs : list DialogueBlock)
  : list step * option thrown_value :=
  match bs with
  | [] => ([], None)
  | b :: rest =>
      if speakable b then
        let s := answer w cfg i b in
        let head := Asked (cleanedText (text b)) (voiceName cfg (speaker b))
                    :: map Got (stream_data s) in
        match thrown s with
        | Some e => (head, Some e)
        | None =>
            let (tl, r) := script w cfg n (S i) rest in
            (head ++ Reported (percent (i + 1) n) :: tl, r)
        end
      else script w cfg n (S i) rest
  end.

End OverEngine.

End ServicesScript.

Module VariantScript.
Import Variant.

Section OverEngine.
Context {engine : Engine}.

Definition speakable (b : DialogueBlock) : bool :=
  nonblank (cleanTextForSpeech (text b)).

Definition answer (w : world) (cfg : option MultiSpeakerConfig) (i : nat)
                  (b : DialogueBlock) : response :=
  synthesize w i (cleanTextForSpeech (text b)) (voiceName cfg (speaker b)).

(** The steps of the loop from the block at position [i] on, with
    [processed] blocks counted so far, when no file operation throws and
    every callback is supplied; and the final count. *)
Fixpoint script (w : world) (cfg : option MultiSpeakerConfig) (n i : nat)
                (bs : list DialogueBlock) (processed : nat)
  : list step * nat :=
  match bs with
  | [] => ([], processed)
  | b :: rest =>
      if speakable b then
        let ask := Asked (cleanTextForSpeech (text b))
                         (voiceName cfg (speaker b)) in
        match answer w cfg i b with
        | Throws _ =>
            let (tl, p) := script w cfg n (S i) rest processed in
            (ask :: Erred (block_error (processed + 1)) :: tl, p)
        | Returns audioData =>
            let (tl, p) := script w cfg n (S i) rest (S processed) in
            (ask :: match audioData with Some d => [Got d] | None => [] end
                 ++ Reported (percent (S processed) n) :: tl, p)
        end
      else script w cfg n (S i) rest processed
  end.


End OverEngine.

End VariantScript.

(** *** Auxiliary notions for the statements *)

(** The machine once the file is open and the placeholder written. *)
Definition setup (createWavHeader : N -> N -> N -> N -> bytes) : machine :=
  {| staged := (createWavHeader 0 1 24000 16)%N;
     cursor := length (createWavHeader 0 1 24000 16)%N;
     closed := false; issued := 2;
     journal := [FsCreateWritable;
                 FsWrite (Header 0) (createWavHeader 0 1 24000 16)%N];
     requests := []; calls := [] |}.

(** Opening the file and writing the placeholder. *)
Definition opening (createWavHeader : N -> N -> N -> N -> bytes)
                   (w : Services.world) (fileHandle : bool) : M unit :=
  if fileHandle then
    createWritable (Services.fault w) ;;
    write (Services.fault w) (Header 0) (createWavHeader 0 1 24000 16)%N
  else ret tt.

(** The finalization, where there is a file. *)
Definition closing (createWavHeader : N -> N -> N -> N -> bytes)
                   (w : Services.world) (fileHandle : bool) (totalSize : nat)
  : M unit :=
  if fileHandle then Services.finalize createWavHeader w totalSize else ret tt.

(** No request of the environment throws. *)
Definition answers_all (w : Services.world) : Prop :=
  forall i t v, ServicesScript.thrown (Services.synthesize w i t v) = None.


(** One turn of the loop of the second pipeline: the [try] and its
    [catch]. *)
Definition guarded {engine : Engine} (w : Variant.world) (cb : Variant.callbacks) (wr : bool)
                   (cfg : option MultiSpeakerConfig)
                   (n i : nat) (b : Variant.DialogueBlock) (p : nat) : M nat :=
  try_catch (Variant.attempt_block w cb wr cfg n i b p)
            (fun _ =>
               Variant.when (Variant.has_onError cb)
                 (emit (onError (Variant.block_error (p + 1)))) ;;
               ret p).


(** The requests for the blocks that are not blank once cleaned. *)
Definition wanted {engine : Engine} (cfg : option MultiSpeakerConfig)
                  (bs : list Variant.DialogueBlock) : list (str * str) :=
  map (fun b => (Variant.cleanTextForSpeech (Variant.text b),
                 Variant.voiceName cfg (Variant.speaker b)))
      (filter VariantScript.speakable bs).

(** A segment of the services version respects the budget: its text has at
    most [MAX_CHAR_LIMIT] units, or it is one sentence of a buffer that
    alone exceeds the budget, trimmed. *)
Definition within_budget (b : Services.DialogueBlock) : Prop :=
  length (Services.text b) <= Services.MAX_CHAR_LIMIT \/
  exists buf u,
    In u (sentences true buf) /\ Services.MAX_CHAR_LIMIT < length u /\
    Services.text b = trim u.

(** What the splitting loop keeps true of the chunk in hand: it fits the
    budget or is one sentence of the buffer. *)
Definition chunk_ok (buf temp : str) : Prop :=
  length temp <= Services.MAX_CHAR_LIMIT \/
  (In temp (sentences true buf) /\ Services.MAX_CHAR_LIMIT < length temp).

(** A string without its white space. *)
Definition squeeze (s : str) : str := filter (fun c => negb (is_ws c)) s.

(** Following the spec: the speaker-attributed content of a script is the
    text behind the speaker prefix of every line that has one and the other
    lines whole, in the order of the script. *)
Definition services_content (text : str) : str :=
  flat_map (fun line => match Services.match_speaker line with
                        | Some (_, rest) => rest
                        | None => line
                        end) (split_lines text).

Definition variant_content (name_ext : N -> bool) (text : str) : str :=
  flat_map (fun line => match Variant.match_speaker name_ext line with
                        | Some (_, rest) => rest
                        | None => line
                        end) (split_lines text).

(* ===================================================================== *)
(** ** Concrete headers, environments and scripts *)
(* ===================================================================== *)

Definition byte_of (n : N) : byte :=
  match Byte.of_N (n mod 256) with
  | Some b => b
  | None => x00
  end.

(** [width] bytes of [n], least significant first. *)
Fixpoint little_endian (width : nat) (n : N) : bytes :=
  match width with
  | O => []
  | S k => byte_of n :: little_endian k (n / 256)
  end.

Definition tag (s : string) : bytes := list_byte_of_string s.

(** Modelled from the spec: [createWavHeader] of [utils/audio] is not part
    of the sources at hand.  The spec describes a fixed-size block carrying
    channel count, sample rate, bits per sample and payload byte count; the
    code reserves 44 bytes for it.  This is the canonical RIFF/WAVE header
    of 44 bytes for PCM data. *)
Definition wavHeader (dataLength numChannels sampleRate bitsPerSample : N)
  : bytes :=
  (tag "RIFF" ++ little_endian 4 (36 + dataLength) ++ tag "WAVE"
   ++ tag "fmt " ++ little_endian 4 16 ++ little_endian 2 1
   ++ little_endian 2 numChannels ++ little_endian 4 sampleRate
   ++ little_endian 4 (sampleRate * numChannels * bitsPerSample / 8)
   ++ little_endian 2 (numChannels * bitsPerSample / 8)
   ++ little_endian 2 bitsPerSample
   ++ tag "data" ++ little_endian 4 dataLength)%N.

(** An engine for the examples: it lower-cases Basic Latin and Latin-1 and
    words its [TypeError] as V8 does. *)
Definition latin1 : Engine :=
  {| toLowerCase := map latin1_lower_unit;
     nullishMessage :=
       lit "Cannot read properties of null (reading 'message')";
     toLowerCase_plain := fun s _ => eq_refl |}.

Definition no_faults : faults := fun _ _ => None.

(** A file that cannot seek. *)
Definition no_seek : faults :=
  fun op _ => match op with
              | FsSeek _ => Some (WithMessage (lit "seek is not supported"))
              | _ => None
              end.

Definition beep : bytes := [x01; x02].

(** The service answers every request with one chunk of two bytes. *)
Definition obliging : Services.world :=
  {| Services.synthesize := fun _ _ _ =>
       Services.StreamChunk (Some beep) Services.StreamEnd;
     Services.fault := no_faults |}.

(** The same service behind a file that cannot seek. *)
Definition obliging_no_seek : Services.world :=
  {| Services.synthesize := Services.synthesize obliging;
     Services.fault := no_seek |}.

(** The service rejects the request for the first block. *)
Definition first_refused : Services.world :=
  {| Services.synthesize := fun i _ _ =>
       match i with
       | O => Services.StreamThrow (WithMessage (lit "quota exceeded"))
       | S _ => Services.StreamChunk (Some beep) Services.StreamEnd
       end;
     Services.fault := no_faults |}.


Definition variant_obliging : Variant.world :=
  {| Variant.synthesize := fun _ _ _ => Variant.Returns (Some beep);
     Variant.fault := no_faults |}.

Definition variant_first_refused : Variant.world :=
  {| Variant.synthesize := fun i _ _ =>
       match i with
       | O => Variant.Throws (WithMessage (lit "quota exceeded"))
       | S _ => Variant.Returns (Some beep)
       end;
     Variant.fault := no_faults |}.

(** The non-ASCII letters of Latin-1, and U+0178, which the [i] flag adds. *)
Definition latin1_letters (c : N) : bool :=
  (((192 <=? c) && (c <=? 255) && negb (c =? 215) && negb (c =? 247))
   || (c =? 376))%N.

Definition newline : str := [10%N].

(** The two-line dialogue of the spec. *)
Definition greeting : str :=
  lit "Alice: Hello there." ++ newline ++ lit "Bob: Hi Alice!".


(** A map that gives Roberta the voice Puck. *)
Definition puck_for_roberta : MultiSpeakerConfig :=
  {| speakers := [{| name := lit "Roberta"; voice := lit "Puck" |}] |}.

Definition direction_first : str :=
  lit "(softly) Roberta Erickson: Peace be with you.".

Definition direction_after_name : str :=
  lit "Roberta Erickson: (softly) Peace be with you.".

(** The line that begins with the direction, behind a line of Alice. *)
Definition direction_after_alice : str :=
  lit "Alice: Hi." ++ newline ++ direction_first.

Definition a_run (k : nat) : str := repeat 97%N k.
Definition b_run (k : nat) : str := repeat 98%N k.

(** Two sentences of 1000 and 500 units and a third of one unit. *)
Definition two_sentences_fill : str :=
  lit "A: " ++ a_run 999 ++ lit "." ++ b_run 499 ++ lit "." ++ lit "c".

(** One sentence of 1501 units without punctuation. *)
Definition unbroken : str := lit "Milton Dilts: " ++ a_run 1501.

Definition short_sentence : str := a_run 99 ++ lit ".".

(** Sixteen sentences of 100 units behind an ellipsis. *)
Definition after_ellipsis : str :=
  lit "A: ..." ++ concat (repeat short_sentence 16).

(* ===================================================================== *)
(** ** Script generation in batches *)
(* ===================================================================== *)

Module Text.

(** [s.split(sep)] for a separator of one code unit; the empty string
    gives one empty field. *)
Fixpoint split_on (sep : N) (s : str) : list str :=
  match s with
  | [] => [[]]
  | c :: r =>
      if (c =? sep)%N then [] :: split_on sep r
      else match split_on sep r with
           | l :: ls => (c :: l) :: ls
           | [] => [[c]]
           end
  end.

(** [fields.join(sep)] *)
Fixpoint join (sep : N) (fields : list str) : str :=
  match fields with
  | [] => []
  | [a] => a
  | a :: r => a ++ sep :: join sep r
  end.

(** [x.slice(-k)] on an array or a string: its last [k] elements, all of
    them when it has fewer. *)
Definition slice_last {A} (k : nat) (l : list A) : list A :=
  skipn (length l - k) l.

(** [s || d] on strings: the empty string is falsy. *)
Definition or_else (s d : str) : str :=
  match s with
  | [] => d
  | _ :: _ => s
  end.

(** [t || d] where [t] may be undefined. *)
Definition text_or (t : option str) (d : str) : str :=
  match t with
  | Some s => or_else s d
  | None => d
  end.

End Text.

(** The answer of the service to a text request: the call throws, or it
    returns a response whose [text] may be undefined. *)
Inductive answer :=
| Fails (e : thrown_value)
| Answers (text : option str).

(** [Math.ceil(duration / 7)] for a duration in whole minutes. *)
Definition batches_for (duration : nat) : nat := (duration + 6) / 7.

Module ServicesPrayer.

(** The structural focus of a batch. *)
Inductive focus :=
| Introduction
| FinalIntegration
| Deepening.

(** A request for one batch, by the values the prompt templates
    interpolate: the system instruction carries the language, the part and
    the number of parts, the duration, the theme, the focus and the context
    of the previous part (the empty context asks for a start). *)
Record request := {
  theme : str;
  language : str;
  minutes : nat;
  part : nat;
  parts : nat;
  focus_of_part : focus;
  context : str
}.

Definition world := request -> answer.

Definition focus_for (i numBatches : nat) : focus :=
  if i =? 1 then Introduction
  else if i =? numBatches then FinalIntegration
  else Deepening.

(** The last sentences of a batch, kept as context for the next one. *)
Definition context_of (text : str) : str :=
  let sentences := Text.split_on 46 text in
  let previousContext := Text.join 46 (Text.slice_last 3 sentences) in
  if 500 <? length previousContext
  then Text.slice_last 500 previousContext
  else previousContext.

(** The loop [for (let i = 1; i <= numBatches; i++)] with [todo] turns
    left; gives the requests made and the script, or the error thrown. *)
Fixpoint batch_loop (w : world) (prompt lang : str) (duration : nat)
                    (numBatches todo i : nat)
                    (fullScript previousContext : str)
  : list request * (thrown_value + str) :=
  match todo with
  | O => ([], inr fullScript)
  | S todo' =>
      let req := {| theme := prompt; language := lang; minutes := duration;
                    part := i; parts := numBatches;
                    focus_of_part := focus_for i numBatches;
                    context := previousContext |} in
      match w req with
      | Answers t =>
          let text := Text.text_or t [] in
          let (asked, r) :=
            batch_loop w prompt lang duration numBatches todo' (S i)
                       (fullScript ++ text ++ [10; 10]%N) (context_of text) in
          (req :: asked, r)
      | Fails e =>
          if i =? 1 then ([req], inl e) else ([req], inr fullScript)
      end
  end.

Definition generateGuidedPrayer (w : world) (prompt lang : str)
                                (duration : nat)
  : list request * (thrown_value + str) :=
  let numBatches := batches_for duration in
  batch_loop w prompt lang duration numBatches numBatches 1 [] [].

(** A request for a short prayer: the theme (empty for a random one) and
    the language. *)
Record short_request := { short_theme : str; short_language : str }.

Definition generateShortPrayer (w : short_request -> answer)
                               (prompt lang : str) : thrown_value + str :=
  match w {| short_theme := prompt; short_language := lang |} with
  | Answers t => inr (Text.text_or t [])
  | Fails e => inl e
  end.

End ServicesPrayer.

Module VariantPrayer.

(** What the language map gives: one of its three names, or, for a key
    that every object inherits, the inherited value (a function or an
    object, which the prompt shows as its text). *)
Inductive language_name :=
| Portuguese
| English
| Spanish
| Inherited (key : str).

(** The properties an object literal inherits from [Object.prototype]. *)
Definition inherited_keys : list str :=
  [lit "constructor"; lit "hasOwnProperty"; lit "isPrototypeOf";
   lit "propertyIsEnumerable"; lit "toLocaleString"; lit "toString";
   lit "valueOf"; lit "__proto__"; lit "__defineGetter__";
   lit "__defineSetter__"; lit "__lookupGetter__"; lit "__lookupSetter__"].

(** [langMap[language] || default]: the lookup finds the keys of the map
    and the inherited ones, whose values are all truthy. *)
Definition targetLang (lang : str) : language_name :=
  if str_eqb lang (lit "pt") then Portuguese
  else if str_eqb lang (lit "en") then English
  else if str_eqb lang (lit "es") then Spanish
  else if existsb (str_eqb lang) inherited_keys then Inherited lang
  else English.

(** A request for one block, by the values the prompt templates
    interpolate. *)
Record request := {
  theme : str;
  thread : str;
  target : language_name;
  part : nat;
  parts : nat;
  isFirst : bool;
  isLast : bool;
  context : option str
}.

Definition world := request -> answer.

(** The loop [for (let i = 0; i < numIterations; i++)] with [todo] turns
    left; gives the requests made and the prayer. *)
Fixpoint block_loop (w : world) (prompt lang : str)
                    (numIterations todo i : nat)
                    (fullPrayer lastContext : str)
  : list request * str :=
  match todo with
  | O => ([], fullPrayer)
  | S todo' =>
      let first := i =? 0 in
      let req := {| theme := prompt;
                    thread := Text.or_else prompt (lit "Divine Connection");
                    target := targetLang lang;
                    part := i + 1; parts := numIterations;
                    isFirst := first;
                    isLast := i =? numIterations - 1;
                    context := if first then None
                               else Some (Text.slice_last 300 lastContext) |} in
      match w req with
      | Answers t =>
          let text := Text.text_or t [] in
          let (asked, r) :=
            block_loop w prompt lang numIterations todo' (S i)
                       (fullPrayer ++ text ++ [10; 10]%N) text in
          (req :: asked, r)
      | Fails _ => ([req], fullPrayer)
      end
  end.

Definition generateGuidedPrayer (w : world) (prompt lang : str)
                                (duration : nat) : list request * str :=
  let numIterations := batches_for duration in
  block_loop w prompt lang numIterations numIterations 0 [] [].

Definition generateShortPrayer (w : world) (prompt lang : str)
  : list request * str :=
  generateGuidedPrayer w prompt lang 5.

End VariantPrayer.

(* ===================================================================== *)
(** ** Images, videos and image analysis *)
(* ===================================================================== *)

Module Media.

(** What a call can throw: the error of the service, a read of a property
    of [undefined], or an [Error] made by the code with a message. *)
Inductive failure :=
| Rejected (e : thrown_value)
| TypeError
| Raised (msg : str).

(** A part of a response: with [inlineData] (whose [data] may be
    undefined) or without. *)
Inductive part :=
| Inline (data : option str)
| Plain.

(** The state of a video operation. *)
Record operation := { done : bool; uri : option str }.

(** [res.split(',')[1]]: the second field of a data URL. *)
Definition second_field (res : str) : option str :=
  nth_error (Text.split_on 44 res) 1.

(** The first part that has [inlineData]. *)
Fixpoint first_inline (parts : list part) : option (option str) :=
  match parts with
  | [] => None
  | Inline d :: _ => Some d
  | Plain :: rest => first_inline rest
  end.

End Media.

Module ServicesMedia.
Import Media.

Record world := {
  (* model, prompt, aspect ratio: the images, each by its bytes *)
  generateImages : str -> str -> str -> thrown_value + list str;
  (* model, prompt, aspect ratio: the parts of the first candidate, if any *)
  generateContent : str -> str -> str -> thrown_value + option (list part);
  (* prompt, aspect ratio *)
  generateVideos : str -> str -> thrown_value + operation;
  (* the k-th poll of an operation *)
  getVideosOperation : nat -> operation -> thrown_value + operation
}.

Definition generateImageFromPrayer (w : world) (prompt aspectRatio : str)
                                   (modelName : str)
  : failure + option str :=
  if includes modelName (lit "imagen") then
    match generateImages w modelName prompt aspectRatio with
    | inl e => inl (Rejected e)
    | inr [] => inl TypeError
    | inr (imageBytes :: _) => inr (Some imageBytes)
    end
  else
    match generateContent w modelName prompt aspectRatio with
    | inl e => inl (Rejected e)
    | inr parts =>
        match first_inline (match parts with Some l => l | None => [] end) with
        | Some data => inr data
        | None => inl (Raised (lit "No image data found in response"))
        end
    end.

(** [while (!operation.done)]: [k] polls were made so far; [None] when the
    operation is still not done after [fuel] more polls. *)
Fixpoint polling (w : world) (fuel k : nat) (op : operation)
  : option (nat * (failure + operation)) :=
  if done op then Some (k, inr op)
  else match fuel with
       | O => None
       | S fuel' =>
           match getVideosOperation w k op with
           | inl e => Some (S k, inl (Rejected e))
           | inr op' => polling w fuel' (S k) op'
           end
       end.

(** Gives the number of polls made and the URI, or what was thrown. *)
Definition generateVideo (w : world) (fuel : nat) (prompt aspectRatio : str)
  : option (nat * (failure + str)) :=
  match generateVideos w prompt aspectRatio with
  | inl e => Some (0, inl (Rejected e))
  | inr operation =>
      match polling w fuel 0 operation with
      | None => None
      | Some (k, inl f) => Some (k, inl f)
      | Some (k, inr op) =>
          match uri op with
          | Some (c :: u) => Some (k, inr (c :: u))
          | _ => Some (k, inl (Raised (lit "Video generation failed to return URI")))
          end
      end
  end.

(** The request of [analyzeImage]: the type of the file, the data taken
    from its data URL and the prompt. *)
Record analysis := { mimeType : str; data : option str; text : str }.

Definition analysis_request (fileType res prompt lang : str) : analysis :=
  {| mimeType := fileType;
     data := second_field res;
     text := Text.or_else prompt
               (lit "Analyze this image spiritually and symbolically in "
                ++ lang ++ lit ".") |}.

End ServicesMedia.

Module VariantMedia.
Import Media.

(** The video generation of the second file: the same polling, and the
    empty string where the operation has no URI. *)
Definition generateVideo (w : ServicesMedia.world) (fuel : nat)
                         (prompt aspectRatio : str)
  : option (nat * (failure + str)) :=
  match ServicesMedia.generateVideos w prompt aspectRatio with
  | inl e => Some (0, inl (Rejected e))
  | inr operation =>
      match ServicesMedia.polling w fuel 0 operation with
      | None => None
      | Some (k, inl f) => Some (k, inl f)
      | Some (k, inr op) =>
          Some (k, inr (Text.text_or (uri op) []))
      end
  end.

(** One call, and the bytes of the first image. *)
Definition generateImageFromPrayer (w : ServicesMedia.world)
                                   (prompt aspectRatio model : str)
  : failure + str :=
  match ServicesMedia.generateImages w model prompt aspectRatio with
  | inl e => inl (Rejected e)
  | inr [] => inl TypeError
  | inr (imageBytes :: _) => inr imageBytes
  end.

End VariantMedia.

(* ===================================================================== *)
(** ** Notions for the properties of script generation and media *)
(* ===================================================================== *)

(** The text of an answer: empty where the call failed or gave none. *)
Definition text_of (a : answer) : str :=
  match a with
  | Answers t => Text.text_or t []
  | Fails _ => []
  end.

Definition answered (a : answer) : Prop := exists t, a = Answers t.

(** [pre] followed by something gives [s]. *)
Definition suffix_of {A} (t s : list A) : Prop := exists pre, s = pre ++ t.

(** What the answered requests contribute to a script: each text followed
    by an empty line. *)
Definition delivered {R} (w : R -> answer) (asked : list R) : str :=
  flat_map (fun r => match w r with
                     | Answers t => Text.text_or t [] ++ [10; 10]%N
                     | Fails _ => []
                     end) asked.

(** Every request carries the context drawn from the answer to the one
    before it, the first one the context [c]. *)
Fixpoint contexts_chain (w : ServicesPrayer.world) (c : str)
                        (asked : list ServicesPrayer.request) : Prop :=
  match asked with
  | [] => True
  | r :: rest =>
      ServicesPrayer.context r = c /\
      contexts_chain w (ServicesPrayer.context_of (text_of (w r))) rest
  end.

(** A service that answers every batch with the same two sentences. *)
Definition two_sentence_service : ServicesPrayer.world :=
  fun _ => Answers (Some (lit "Breathe in. Breathe out.")).

(** The request for the first batch. *)
Definition opening_request (prompt lang : str) (duration : nat)
  : ServicesPrayer.request :=
  {| ServicesPrayer.theme := prompt;
     ServicesPrayer.language := lang;
     ServicesPrayer.minutes := duration;
     ServicesPrayer.part := 1;
     ServicesPrayer.parts := batches_for duration;
     ServicesPrayer.focus_of_part := ServicesPrayer.Introduction;
     ServicesPrayer.context := [] |}.

(** Every block but the first carries the last 300 units of the text
    answered to the one before it; the first one carries [c]. *)
Fixpoint variant_contexts (w : VariantPrayer.world) (c : option str)
                          (asked : list VariantPrayer.request) : Prop :=
  match asked with
  | [] => True
  | r :: rest =>
      VariantPrayer.context r = c /\
      variant_contexts w (Some (Text.slice_last 300 (text_of (w r)))) rest
  end.

(** The only request of a short prayer in the second file. *)
Definition short_block (prompt lang : str) : VariantPrayer.request :=
  {| VariantPrayer.theme := prompt;
     VariantPrayer.thread := Text.or_else prompt (lit "Divine Connection");
     VariantPrayer.target := VariantPrayer.targetLang lang;
     VariantPrayer.part := 1;
     VariantPrayer.parts := 1;
     VariantPrayer.isFirst := true;
     VariantPrayer.isLast := true;
     VariantPrayer.context := None |}.

(** The stretch of polls before a video operation is done: the operation
    started by the request and those the polls return, [n] of them not
    done yet and the next one done. *)
Definition done_at (w : ServicesMedia.world) (prompt aspectRatio : str)
                   (ops : nat -> Media.operation) (n : nat) : Prop :=
  ServicesMedia.generateVideos w prompt aspectRatio = inr (ops 0) /\
  (forall k, k < n ->
     Media.done (ops k) = false /\
     ServicesMedia.getVideosOperation w k (ops k) = inr (ops (S k))) /\
  Media.done (ops n) = true.

(** A service whose video is done at the third poll, with the URI [u]
    if any. *)
Definition third_poll (k : nat) (u : option str) : Media.operation :=
  {| Media.done := 3 <=? k; Media.uri := if 3 <=? k then u else None |}.

Definition video_service (u : option str) : ServicesMedia.world :=
  {| ServicesMedia.generateImages := fun _ _ _ => inr [];
     ServicesMedia.generateContent := fun _ _ _ => inr None;
     ServicesMedia.generateVideos := fun _ _ => inr (third_poll 0 u);
     ServicesMedia.getVideosOperation := fun k _ => inr (third_poll (S k) u) |}.

(** A service that answers an image request with a text part and two
    image parts. *)
Definition image_service : ServicesMedia.world :=
  {| ServicesMedia.generateImages := fun _ _ _ => inr [];
     ServicesMedia.generateContent := fun _ _ _ =>
       inr (Some [Media.Plain; Media.Inline (Some (lit "AAAA"));
                  Media.Inline (Some (lit "BBBB"))]);
     ServicesMedia.generateVideos := fun _ _ =>
       inl (WithMessage (lit "unavailable"));
     ServicesMedia.getVideosOperation := fun _ _ =>
       inl (WithMessage (lit "unavailable")) |}.

Definition is_comma (c : N) : bool := (c =? 44)%N.

(** A service whose video operation is never done. *)
Definition stuck_service : ServicesMedia.world :=
  {| ServicesMedia.generateImages := fun _ _ _ => inr [];
     ServicesMedia.generateContent := fun _ _ _ => inr None;
     ServicesMedia.generateVideos := fun _ _ =>
       inr {| Media.done := false; Media.uri := None |};
     ServicesMedia.getVideosOperation := fun _ _ =>
       inr {| Media.done := false; Media.uri := None |} |}.

(** The requests for the segments that are not blank once cleaned, in the
    services pipeline. *)
Definition services_wanted {engine : Engine} (cfg : option MultiSpeakerConfig)
                           (bs : list Services.DialogueBlock)
  : list (str * str) :=
  map (fun b => (Services.cleanedText (Services.text b),
                 Services.voiceName cfg (Services.speaker b)))
      (filter ServicesScript.speakable bs).

(** [p] begins [l]. *)
Definition prefix_of {A} (p l : list A) : Prop := exists rest, l = p ++ rest.


(** A file that cannot be opened for writing. *)
Definition no_file : faults :=
  fun op _ => match op with
              | FsCreateWritable => Some (WithMessage (lit "NotAllowedError"))
              | _ => None
              end.

Definition obliging_no_file : Services.world :=
  {| Services.synthesize := Services.synthesize obliging;
     Services.fault := no_file |}.

Definition variant_obliging_no_file : Variant.world :=
  {| Variant.synthesize := Variant.synthesize variant_obliging;
     Variant.fault := no_file |}.

(** A segment of the second file respects the budget up to the joining
    space: its text has at most [MAX_CHARS] + 1 units, or it is one
    sentence of a chunk. *)
Definition variant_within_budget (b : Variant.DialogueBlock) : Prop :=
  length (Variant.text b) <= Variant.MAX_CHARS + 1 \/
  exists chunk, In (Variant.text b) (sentences false chunk).

Definition no_line_terminator (t : str) : Prop :=
  Forall (fun c => is_line_terminator c = false) t.

(* ===================================================================== *)
(** ** Basic facts *)
(* ===================================================================== *)

Lemma str_eqb_eq a b : str_eqb a b = true <-> a = b.
Proof.
  unfold str_eqb. destruct (list_eq_dec N.eq_dec a b); split; congruence.
Qed.

Lemma gots_app a b : gots (a ++ b) = gots a ++ gots b.
Proof. apply flat_map_app. Qed.

Lemma asks_app a b : asks (a ++ b) = asks a ++ asks b.
Proof. apply flat_map_app. Qed.

Lemma reports_app a b : reports (a ++ b) = reports a ++ reports b.
Proof. apply flat_map_app. Qed.

Lemma heard_app wr a b : heard wr (a ++ b) = heard wr a ++ heard wr b.
Proof. apply flat_map_app. Qed.

Lemma gots_map_Got ds : gots (map Got ds) = ds.
Proof. induction ds; simpl; congruence. Qed.

Lemma asks_map_Got ds : asks (map Got ds) = [].
Proof. induction ds; simpl; congruence. Qed.

Lemma reports_map_Got ds : reports (map Got ds) = [].
Proof. induction ds; simpl; congruence. Qed.

Lemma played_nil wr m : played wr m [] = m.
Proof.
  destruct m, wr; unfold played; simpl;
    rewrite ?app_nil_r, ?Nat.add_0_r; reflexivity.
Qed.

Lemma played_app wr m a b : played wr m (a ++ b) = played wr (played wr m a) b.
Proof.
  unfold played; simpl.
  rewrite gots_app, asks_app, heard_app, concat_app, map_app, !length_app.
  destruct wr; rewrite ?app_assoc, ?Nat.add_assoc; reflexivity.
Qed.

Lemma played_cons wr m st sc : played wr m (st :: sc) = played wr (played wr m [st]) sc.
Proof. apply (played_app wr m [st] sc). Qed.

Lemma ask_played wr t v m : ask t v m = (played wr m [Asked t v], inr tt).
Proof.
  unfold ask, add_requests, played; destruct m, wr; simpl;
    rewrite ?app_nil_r, ?Nat.add_0_r; reflexivity.
Qed.

Lemma emit_progress_played wr v m :
  emit (onProgress v) m = (played wr m [Reported v], inr tt).
Proof.
  unfold emit, add_calls, played; destruct m, wr; simpl;
    rewrite ?app_nil_r, ?Nat.add_0_r; reflexivity.
Qed.


Lemma emit_chunk_played d m :
  emit (onChunk d) m = (played false m [Got d], inr tt).
Proof.
  unfold emit, add_calls, played; destruct m; simpl;
    rewrite ?app_nil_r; reflexivity.
Qed.

Lemma write_at_end (d c : bytes) : write_at (length c) d c = c ++ d.
Proof.
  unfold write_at.
  rewrite firstn_all, Nat.sub_diag, skipn_all2 by lia.
  simpl. rewrite app_nil_r. reflexivity.
Qed.

Lemma write_audio_played f d m :
  audio_safe f -> at_end m ->
  write f Audio d m = (played true m [Got d], inr tt).
Proof.
  intros Hs He. unfold write, attempt. rewrite Hs.
  unfold at_end in He. rewrite He, write_at_end.
  unfold played; destruct m; simpl in *.
  rewrite !app_nil_r, Nat.add_1_r, He. reflexivity.
Qed.

Lemma played_at_end m sc : at_end m -> at_end (played true m sc).
Proof.
  unfold at_end, played; simpl. intros ->. rewrite length_app. reflexivity.
Qed.

(* ===================================================================== *)
(** ** The services pipeline against its script *)
(* ===================================================================== *)

Section ServicesLoop.
Context {engine : Engine}.
Import Services ServicesScript.

Variable w : world.

(** When its writes do not throw, reading a response stream delivers the
    audio of the stream up to its end or to the exception. *)
Lemma consume_played s : forall wr total m,
  (wr = true -> audio_safe (fault w) /\ at_end m) ->
  consume w wr s total m =
  (played wr m (map Got (stream_data s)),
   match thrown s with
   | Some e => inl e
   | None => inr (total + length (concat (stream_data s)))
   end).
Proof.
  induction s as [|data rest IH|e]; intros wr total m Hwr; simpl.
  - rewrite played_nil, Nat.add_0_r. reflexivity.
  - destruct data as [d|]; [|apply IH; exact Hwr].
    unfold bind.
    assert (Hstep : (if wr then write (fault w) Audio d else emit (onChunk d)) m
                    = (played wr m [Got d], inr tt)).
    { destruct wr.
      - destruct (Hwr eq_refl). apply write_audio_played; assumption.
      - apply emit_chunk_played. }
    rewrite Hstep, IH.
    + rewrite <- played_cons. simpl. rewrite length_app.
      destruct (thrown rest); [reflexivity|].
      rewrite Nat.add_assoc. reflexivity.
    + intros ->. destruct (Hwr eq_refl). split; [assumption|].
      apply played_at_end; assumption.
  - rewrite played_nil. reflexivity.
Qed.

Lemma assembly_played cfg n bs : forall i wr total m,
  (wr = true -> audio_safe (fault w) /\ at_end m) ->
  assembly w wr cfg n i bs total m =
  (played wr m (fst (script w cfg n i bs)),
   match snd (script w cfg n i bs) with
   | Some e => inl e
   | None => inr (total + length (concat (gots (fst (script w cfg n i bs)))))
   end).
Proof.
  induction bs as [|b rest IH]; intros i wr total m Hwr; simpl.
  - rewrite played_nil, Nat.add_0_r. reflexivity.
  - unfold speakable.
    destruct (nonblank (cleanedText (text b))); [|apply IH; exact Hwr].
    unfold bind at 1. rewrite (ask_played wr).
    unfold bind at 1.
    assert (Hwr1 : wr = true ->
                   audio_safe (fault w) /\
                   at_end (played wr m [Asked (cleanedText (text b))
                                              (voiceName cfg (speaker b))])).
    { intros ->. destruct (Hwr eq_refl). split; [assumption|].
      apply played_at_end; assumption. }
    rewrite consume_played by exact Hwr1.
    unfold answer.
    destruct (thrown (synthesize w i (cleanedText (text b))
                                 (voiceName cfg (speaker b)))) as [e|].
    + simpl. rewrite <- played_cons. reflexivity.
    + unfold bind at 1. rewrite (emit_progress_played wr).
      rewrite IH.
      * destruct (script w cfg n (S i) rest) as [tl r] eqn:Hsc. simpl.
        rewrite <- played_cons, <- played_app, <- played_app.
        simpl. rewrite gots_app, gots_map_Got. simpl.
        rewrite concat_app, length_app.
        destruct r; [reflexivity|].
        rewrite Nat.add_assoc. reflexivity.
      * intros ->. destruct (Hwr1 eq_refl). split; [assumption|].
        do 2 (apply played_at_end). assumption.
Qed.

End ServicesLoop.

Lemma not_rewrite_safe f op k :
  only_rewrite_fails f -> rewrite_op op = false -> f op k = None.
Proof.
  intros Hf Hop. destruct (f op k) as [e|] eqn:E; [|reflexivity].
  specialize (Hf _ _ _ E). destruct op as [|[n|] d|pos|]; simpl in *;
    solve [contradiction | discriminate].
Qed.

Lemma placeholder_safe f n d :
  only_rewrite_fails f -> f (FsWrite (Header n) d) 1 = None.
Proof.
  intros Hf. destruct (f (FsWrite (Header n) d) 1) as [e|] eqn:E; [|reflexivity].
  specialize (Hf _ _ _ E). simpl in Hf. lia.
Qed.

Lemma only_rewrite_audio_safe f : only_rewrite_fails f -> audio_safe f.
Proof. intros Hf d k. apply not_rewrite_safe; [assumption|reflexivity]. Qed.

Lemma reliable_only_rewrite f : reliable f -> only_rewrite_fails f.
Proof. intros Hf op k e E. rewrite Hf in E. discriminate. Qed.

Lemma progress_values_app a b :
  progress_values (a ++ b) = progress_values a ++ progress_values b.
Proof. apply flat_map_app. Qed.

Lemma chunk_values_app a b :
  chunk_values (a ++ b) = chunk_values a ++ chunk_values b.
Proof. apply flat_map_app. Qed.

Lemma error_values_app a b :
  error_values (a ++ b) = error_values a ++ error_values b.
Proof. apply flat_map_app. Qed.

Lemma header_sizes_app a b :
  header_sizes (a ++ b) = header_sizes a ++ header_sizes b.
Proof. apply flat_map_app. Qed.


Lemma chunk_values_heard_memory sc : chunk_values (heard false sc) = gots sc.
Proof.
  induction sc as [|st sc IH]; [reflexivity|].
  unfold heard in *. simpl. rewrite chunk_values_app, IH.
  destruct st; reflexivity.
Qed.

Lemma chunk_values_heard_file sc : chunk_values (heard true sc) = [].
Proof.
  induction sc as [|st sc IH]; [reflexivity|].
  unfold heard in *. simpl. rewrite chunk_values_app, IH.
  destruct st; reflexivity.
Qed.

Lemma header_sizes_audio ds : header_sizes (map (FsWrite Audio) ds) = [].
Proof. induction ds; simpl; congruence. Qed.

Section ServicesRun.
Context {engine : Engine}.
Import Services ServicesScript.

Variable createWavHeader : N -> N -> N -> N -> bytes.
Variable w : world.

Lemma setup_run :
  only_rewrite_fails (fault w) ->
  (createWritable (fault w) ;;
   write (fault w) (Header 0) (createWavHeader 0 1 24000 16)) boot
  = (setup createWavHeader, inr tt).
Proof.
  intros Hf. unfold bind, createWritable, write, attempt. simpl.
  rewrite (not_rewrite_safe _ _ _ Hf) by reflexivity. simpl.
  unfold write_at. simpl. rewrite skipn_nil, app_nil_r.
  rewrite (placeholder_safe _ _ _ Hf). reflexivity.
Qed.

(** The finalization closes the file whatever the header rewrite does. *)
Lemma finalize_cases total m :
  only_rewrite_fails (fault w) ->
  let T := N.of_nat total in
  let hT := createWavHeader T 1 24000 16 in
  exists m',
    finalize createWavHeader w total m = (m', inr tt) /\
    closed m' = true /\ requests m' = requests m /\
    ((fault w (FsSeek 0) (issued m) = None /\
      fault w (FsWrite (Header T) hT) (S (issued m)) = None /\
      journal m' = journal m ++ [FsSeek 0; FsWrite (Header T) hT; FsClose] /\
      staged m' = write_at 0 hT (staged m) /\
      calls m' = calls m)
     \/
     ((fault w (FsSeek 0) (issued m) <> None \/
       fault w (FsWrite (Header T) hT) (S (issued m)) <> None) /\
      (journal m' = journal m ++ [FsClose] \/
       journal m' = journal m ++ [FsSeek 0; FsClose]) /\
      staged m' = staged m /\
      calls m' = calls m ++ [consoleWarn])).
Proof.
  intros Hf T hT.
  unfold finalize, bind, try_catch, seek, write, close, attempt, emit, add_calls.
  fold T. fold hT. simpl.
  destruct (fault w (FsSeek 0) (issued m)) as [e1|] eqn:E1; simpl.
  - rewrite (not_rewrite_safe _ _ _ Hf) by reflexivity. simpl.
    eexists. split; [reflexivity|]. simpl. repeat split.
    right. repeat split.
    + left. discriminate.
    + left. reflexivity.
  - destruct (fault w (FsWrite (Header T) hT) (S (issued m))) as [e2|] eqn:E2;
      simpl.
    + rewrite (not_rewrite_safe _ _ _ Hf) by reflexivity. simpl.
      eexists. split; [reflexivity|]. simpl. repeat split.
      right. repeat split.
      * right. discriminate.
      * right. rewrite <- app_assoc. reflexivity.
    + rewrite (not_rewrite_safe _ _ _ Hf) by reflexivity. simpl.
      eexists. split; [reflexivity|]. simpl. repeat split.
      left. repeat split.
      rewrite <- !app_assoc. reflexivity.
Qed.

End ServicesRun.

(** What the [catch] block of the run does with the value caught: it
    reports the message of a value that has one and returns, and throws on
    [null] and [undefined] without a report. *)
Lemma report_cases {engine : Engine} e m :
  Services.report e m
  = match e with
    | Nullish => (m, inl (WithMessage nullishMessage))
    | WithMessage message =>
        (add_calls m [onError (Services.error_message message)], inr tt)
    end.
Proof. destruct e; reflexivity. Qed.

Lemma report_frame {engine : Engine} e m :
  staged (fst (Services.report e m)) = staged m /\
  journal (fst (Services.report e m)) = journal m /\
  requests (fst (Services.report e m)) = requests m /\
  closed (fst (Services.report e m)) = closed m /\
  ((snd (Services.report e m) = inr tt /\
    exists msg, calls (fst (Services.report e m)) = calls m ++ [onError msg])
   \/ (snd (Services.report e m) = inl (WithMessage nullishMessage) /\
       calls (fst (Services.report e m)) = calls m)).
Proof.
  rewrite report_cases. destruct e as [|message]; simpl; repeat split.
  - right. split; reflexivity.
  - left. split; [reflexivity|]. eexists. reflexivity.
Qed.

Section ServicesWhole.
Context {engine : Engine}.
Import Services ServicesScript.

Variable createWavHeader : N -> N -> N -> N -> bytes.
Variable w : world.
Variable text : str.
Variable cfg : option MultiSpeakerConfig.

Let blocks := parseDialogueIntoChunks text.
Let sc := script w cfg (length blocks) 0 blocks.

(** A run without a file: the steps of the script, then [onComplete], or
    the [catch] block where the script ends with an exception. *)
Lemma memory_run :
  run (generateSpeech createWavHeader w text cfg false) =
  match snd sc with
  | Some e => report e (played false boot (fst sc))
  | None => (add_calls (played false boot (fst sc)) [onComplete], inr tt)
  end.
Proof.
  unfold run, generateSpeech, try_catch.
  fold blocks. unfold bind at 1. unfold ret at 1.
  unfold bind at 1.
  rewrite assembly_played by discriminate.
  fold sc. destruct (snd sc) as [e|]; reflexivity.
Qed.

(** A run with a file that ends with an exception of the service. *)
Lemma file_run_thrown e :
  only_rewrite_fails (fault w) -> snd sc = Some e ->
  run (generateSpeech createWavHeader w text cfg true) =
  report e (played true (setup createWavHeader) (fst sc)).
Proof.
  intros Hf He.
  unfold run, generateSpeech, try_catch.
  fold blocks. unfold bind at 1. rewrite (setup_run createWavHeader w Hf).
  unfold bind at 1.
  rewrite assembly_played
    by (intros _; split; [apply only_rewrite_audio_safe; exact Hf|reflexivity]).
  fold sc. rewrite He. reflexivity.
Qed.

(** A run with a file in which every block was processed: the file is
    finalized and [onComplete] is called. *)
Lemma file_run_done :
  only_rewrite_fails (fault w) -> snd sc = None ->
  let m := played true (setup createWavHeader) (fst sc) in
  let T := N.of_nat (length (concat (gots (fst sc)))) in
  let hT := createWavHeader T 1 24000 16 in
  exists m',
    run (generateSpeech createWavHeader w text cfg true) = (m', inr tt) /\
    closed m' = true /\ requests m' = requests m /\
    ((fault w (FsSeek 0) (issued m) = None /\
      fault w (FsWrite (Header T) hT) (S (issued m)) = None /\
      journal m' = journal m ++ [FsSeek 0; FsWrite (Header T) hT; FsClose] /\
      staged m' = write_at 0 hT (staged m) /\
      calls m' = calls m ++ [onComplete])
     \/
     ((fault w (FsSeek 0) (issued m) <> None \/
       fault w (FsWrite (Header T) hT) (S (issued m)) <> None) /\
      (journal m' = journal m ++ [FsClose] \/
       journal m' = journal m ++ [FsSeek 0; FsClose]) /\
      staged m' = staged m /\
      calls m' = calls m ++ [consoleWarn; onComplete])).
Proof.
  intros Hf He m T hT.
  unfold run, generateSpeech, try_catch.
  fold blocks. unfold bind at 1. rewrite (setup_run createWavHeader w Hf).
  unfold bind at 1.
  rewrite assembly_played
    by (intros _; split; [apply only_rewrite_audio_safe; exact Hf|reflexivity]).
  fold sc. rewrite He. fold m. simpl.
  unfold bind at 1.
  destruct (finalize_cases createWavHeader w (length (concat (gots (fst sc)))) m Hf)
    as (m' & Hrun & Hcl & Hrq & Hcases).
  rewrite Hrun. unfold emit.
  eexists. split; [reflexivity|]. simpl.
  split; [exact Hcl|]. split; [exact Hrq|].
  destruct Hcases as [(H1 & H2 & Hj & Hs & Hc)|(H1 & Hj & Hs & Hc)].
  - left. rewrite Hc. repeat split; assumption.
  - right. rewrite Hc, <- app_assoc. repeat split; assumption.
Qed.

End ServicesWhole.

(* ===================================================================== *)
(** ** What holds of the services pipeline in every environment *)
(* ===================================================================== *)

Lemma attempt_frame f op eff m :
  calls (fst (attempt f op eff m)) = calls m /\
  requests (fst (attempt f op eff m)) = requests m.
Proof.
  unfold attempt. destruct (f op (issued m)); [split; reflexivity|].
  destruct (eff m) as [[? ?] ?]. split; reflexivity.
Qed.

(** *** Rounding to double precision *)

Section Rounding.
Local Open Scope N_scope.

Lemma quantum_pos : 0 < quantum.
Proof. unfold quantum. apply N.neq_0_lt_0. apply N.pow_nonzero. discriminate. Qed.

Lemma nearest_even_between a b : a / b <= nearest_even a b <= a / b + 1.
Proof.
  unfold nearest_even. cbv zeta.
  destruct (2 * (a mod b) <? b); [lia|].
  destruct (b <? 2 * (a mod b)); [lia|].
  destruct (N.even (a / b)); lia.
Qed.

Lemma nearest_even_exact b m : 0 < b -> nearest_even (m * b) b = m.
Proof.
  intros Hb. unfold nearest_even. cbv zeta.
  rewrite N.div_mul by lia. rewrite N.Div0.mod_mul.
  destruct (N.ltb_spec (2 * 0) b); [reflexivity|lia].
Qed.

Lemma nearest_even_mono a a' b :
  a <= a' -> nearest_even a b <= nearest_even a' b.
Proof.
  intros Ha.
  destruct (N.eq_dec b 0) as [->|Hb0].
  { unfold nearest_even. cbv zeta. rewrite !N.div_0_r, !N.mod_0_r.
    destruct (N.ltb_spec (2 * a) 0), (N.ltb_spec (2 * a') 0); try lia.
    destruct (N.ltb_spec 0 (2 * a)), (N.ltb_spec 0 (2 * a')); simpl; lia. }
  assert (Hb : 0 < b) by lia.
  pose proof (N.Div0.div_le_mono a a' b Ha) as Hq.
  pose proof (nearest_even_between a b) as [_ Hu].
  pose proof (nearest_even_between a' b) as [Hl _].
  destruct (N.eq_dec (a / b) (a' / b)) as [E|E]; [|lia].
  assert (Hr : a mod b <= a' mod b).
  { pose proof (N.div_mod a b ltac:(lia)) as H1.
    pose proof (N.div_mod a' b ltac:(lia)) as H2.
    rewrite E in H1. nia. }
  unfold nearest_even. cbv zeta. rewrite E.
  destruct (N.ltb_spec (2 * (a mod b)) b), (N.ltb_spec (2 * (a' mod b)) b);
    try lia;
    destruct (N.ltb_spec b (2 * (a mod b))), (N.ltb_spec b (2 * (a' mod b)));
    try lia;
    destruct (N.even (a' / b)); lia.
Qed.

Lemma nearest_even_floor a b M : 0 < b -> M * b <= a -> M <= nearest_even a b.
Proof.
  intros Hb H. pose proof (nearest_even_between a b) as [Hl _].
  assert (M <= a / b); [|lia].
  apply N.div_le_lower_bound; lia.
Qed.

Lemma nearest_even_ceiling a b M : 0 < b -> a <= M * b -> nearest_even a b <= M.
Proof.
  intros Hb H.
  destruct (N.eq_dec a (M * b)) as [->|Hne].
  - rewrite nearest_even_exact by assumption. lia.
  - pose proof (nearest_even_between a b) as [_ Hu].
    assert (a / b < M); [|lia].
    apply N.Div0.div_lt_upper_bound. lia.
Qed.

Lemma pow2_pos s : 0 < 2 ^ s.
Proof. apply N.neq_0_lt_0. apply N.pow_nonzero. discriminate. Qed.

Lemma below_next_power q : q < 2 ^ (N.log2 q + 1).
Proof.
  destruct (N.eq_dec q 0) as [->|Hq]; [reflexivity|].
  rewrite N.add_1_r. apply N.log2_spec. lia.
Qed.

(** Rounding to a double keeps the order. *)
Lemma to_double_mono a a' b : a <= a' -> to_double a b <= to_double a' b.
Proof.
  intros Ha. unfold to_double. cbv zeta.
  pose proof (N.Div0.div_le_mono a a' b Ha) as Hq.
  pose proof (N.log2_le_mono _ _ Hq) as Hj.
  set (j := N.log2 (a / b)) in *. set (j' := N.log2 (a' / b)) in *.
  destruct (N.eq_dec (j - 52) (j' - 52)) as [E|E].
  - rewrite E. apply N.mul_le_mono_l.
    apply nearest_even_mono. exact Ha.
  - assert (Hjj : j + 1 <= j') by lia.
    assert (H52 : 52 < j') by lia.
    assert (Hq' : 0 < a' / b).
    { destruct (N.eq_dec (a' / b) 0) as [E0|Hn0];
        [|apply N.neq_0_lt_0; exact Hn0].
      unfold j' in H52. rewrite E0 in H52.
      change (N.log2 0) with 0 in H52. lia. }
    assert (Hb : 0 < b).
    { destruct (N.eq_dec b 0) as [E0|Hn0];
        [|apply N.neq_0_lt_0; exact Hn0].
      rewrite E0, N.div_0_r in Hq'. lia. }
    (* the lower one stays below the next power of two *)
    assert (Hlow : 2 ^ (j - 52) * nearest_even a (b * 2 ^ (j - 52)) <= 2 ^ (j + 1)).
    { replace (j + 1) with ((j - 52) + (j + 1 - (j - 52))) by lia.
      rewrite N.pow_add_r. apply N.mul_le_mono_l.
      apply nearest_even_ceiling.
      - pose proof (pow2_pos (j - 52)). nia.
      - replace (2 ^ (j + 1 - (j - 52)) * (b * 2 ^ (j - 52)))
          with (b * (2 ^ (j - 52) * 2 ^ (j + 1 - (j - 52)))) by ring.
        rewrite <- N.pow_add_r.
        replace (j - 52 + (j + 1 - (j - 52))) with (j + 1) by lia.
        pose proof (below_next_power (a / b)) as Hp. fold j in Hp.
        pose proof (N.div_mod a b ltac:(lia)) as Hd.
        pose proof (N.mod_lt a b ltac:(lia)) as Hm.
        nia. }
    (* the upper one stays above its power of two *)
    assert (Hup : 2 ^ j' <= 2 ^ (j' - 52) * nearest_even a' (b * 2 ^ (j' - 52))).
    { replace j' with ((j' - 52) + 52) at 1 by lia.
      rewrite N.pow_add_r. apply N.mul_le_mono_l.
      apply nearest_even_floor.
      - pose proof (pow2_pos (j' - 52)). nia.
      - replace (2 ^ 52 * (b * 2 ^ (j' - 52)))
          with (b * (2 ^ (j' - 52) * 2 ^ 52)) by ring.
        rewrite <- N.pow_add_r.
        replace (j' - 52 + 52) with j' by lia.
        pose proof (proj1 (N.log2_spec (a' / b) Hq')) as Hp. fold j' in Hp.
        pose proof (N.div_mod a' b ltac:(lia)) as Hd.
        pose proof (N.mul_le_mono_l _ _ b Hp) as Hbp.
        etransitivity; [exact Hbp|].
        rewrite Hd at 2. apply N.le_add_r. }
    assert (Hpow : 2 ^ (j + 1) <= 2 ^ j') by (apply N.pow_le_mono_r; lia).
    lia.
Qed.

(** A number of at most 53 bits, scaled by a power of two, is a double. *)
Lemma to_double_exact b m e :
  0 < b -> 0 < m -> m < 2 ^ 53 -> to_double (m * 2 ^ e * b) b = m * 2 ^ e.
Proof.
  intros Hb Hm Hlt. unfold to_double. cbv zeta.
  rewrite N.div_mul by lia.
  rewrite N.log2_mul_pow2 by lia.
  assert (Hl : N.log2 m < 53) by (apply N.log2_lt_pow2; assumption).
  set (s := e + N.log2 m - 52).
  assert (Hs : s <= e) by lia.
  replace (m * 2 ^ e * b) with (m * 2 ^ (e - s) * (b * 2 ^ s)).
  - rewrite nearest_even_exact by (pose proof (pow2_pos s); nia).
    replace e with (s + (e - s)) at 2 by lia.
    rewrite N.pow_add_r. lia.
  - replace e with ((e - s) + s) at 2 by lia.
    rewrite N.pow_add_r. lia.
Qed.

Lemma math_round_mono x y : x <= y -> math_round x <= math_round y.
Proof. intros H. unfold math_round. apply N.Div0.div_le_mono. lia. Qed.

End Rounding.

Lemma percent_mono n j k : j <= k -> (percent j n <= percent k n)%N.
Proof.
  intros H. unfold percent. cbv zeta.
  apply math_round_mono. apply to_double_mono.
  apply N.mul_le_mono_r. apply to_double_mono.
  apply N.mul_le_mono_r. lia.
Qed.

Lemma percent_full n : 0 < n -> percent n n = 100%N.
Proof.
  intros H. unfold percent. cbv zeta.
  replace (N.of_nat n * quantum)%N with (1 * 2 ^ 1074 * N.of_nat n)%N
    by (unfold quantum; lia).
  rewrite to_double_exact by (try reflexivity; lia).
  replace (1 * 2 ^ 1074 * 100)%N with (100 * 2 ^ 1074 * 1)%N by lia.
  rewrite to_double_exact by reflexivity.
  unfold math_round. fold quantum.
  replace (2 * (100 * quantum) + quantum)%N with (100 * (2 * quantum) + quantum)%N by lia.
  pose proof quantum_pos.
  rewrite N.div_add_l by lia.
  rewrite N.div_small by lia. reflexivity.
Qed.

(** [percent] is what the machine computes: on every position in lists of
    up to 10 blocks, and on every position in a list of 40 blocks, the
    double [(k / n) * 100] of the machine rounds to [percent k n].  For 23
    of 40 that is 57, where the quotient rounded once would give 58. *)
Lemma percent_as_the_machine_computes :
  forallb (fun kn => Hardware.rounds_to (Hardware.scaled (fst kn) (snd kn))
                                        (percent (fst kn) (snd kn)))
          (Hardware.grid 10 ++ map (fun k => (S k, 40)) (seq 0 40)) = true
  /\ percent 23 40 = 57%N
  /\ ((2 * (23 * 100) + 40) / (2 * 40) = 58)%N.
Proof. vm_compute. repeat split. Qed.

Lemma percents_sorted n js :
  StronglySorted lt js ->
  StronglySorted N.le (map (fun j => percent (S j) n) js).
Proof.
  induction 1 as [|j js Hs IH Hall]; simpl; constructor; [assumption|].
  rewrite Forall_map. eapply Forall_impl; [|exact Hall].
  intros k Hk. apply percent_mono. lia.
Qed.

Lemma loop_event_chunks ds : Forall loop_event (map onChunk ds).
Proof. rewrite Forall_map. apply Forall_forall. intros; exact I. Qed.

Lemma progress_values_chunks ds : progress_values (map onChunk ds) = [].
Proof. induction ds; simpl; congruence. Qed.

Section ServicesAlways.
Context {engine : Engine}.
Import Services ServicesScript.

Variable createWavHeader : N -> N -> N -> N -> bytes.
Variable w : world.

Lemma consume_frame s : forall wr total m,
  exists ds,
    calls (fst (consume w wr s total m)) = calls m ++ map onChunk ds /\
    requests (fst (consume w wr s total m)) = requests m.
Proof.
  induction s as [|data rest IH|e]; intros wr total m; simpl.
  - exists []. rewrite app_nil_r. split; reflexivity.
  - destruct data as [d|]; [|apply IH].
    unfold bind.
    destruct wr.
    + destruct (attempt_frame (fault w) (FsWrite Audio d)
                  (fun m0 => (write_at (cursor m0) d (staged m0),
                              cursor m0 + length d, closed m0)) m) as [Hc Hr].
      fold (write (fault w) Audio d) in Hc, Hr.
      destruct (write (fault w) Audio d m) as [m1 [e|[]]]; simpl in *.
      * exists []. rewrite app_nil_r. split; assumption.
      * destruct (IH true (total + length d) m1) as (ds & Hc' & Hr').
        exists ds. rewrite Hc', Hr', Hc, Hr. split; reflexivity.
    + simpl.
      destruct (IH false (total + length d) (add_calls m [onChunk d]))
        as (ds & Hc' & Hr').
      exists (d :: ds). rewrite Hc', Hr'. simpl. rewrite <- app_assoc.
      split; reflexivity.
  - exists []. rewrite app_nil_r. split; reflexivity.
Qed.


Lemma assembly_cons cfg n b rest i wr total m :
  assembly w wr cfg n i (b :: rest) total m =
  if speakable b then
    match consume w wr (answer w cfg i b) total
            (add_requests m [(cleanedText (text b), voiceName cfg (speaker b))])
    with
    | (m2, inl e) => (m2, inl e)
    | (m2, inr total') =>
        assembly w wr cfg n (S i) rest total'
                 (add_calls m2 [onProgress (percent (i + 1) n)])
    end
  else assembly w wr cfg n (S i) rest total m.
Proof.
  simpl. unfold speakable, answer.
  destruct (nonblank (cleanedText (text b))); [|reflexivity].
  unfold bind, ask, emit.
  destruct (consume w wr _ total _) as [m2 [e|total']]; reflexivity.
Qed.

(** The loop calls back with audio and progress only, and the progress
    values are those of increasing block positions. *)
Lemma assembly_frame cfg n bs : forall i wr total m,
  exists evs js,
    calls (fst (assembly w wr cfg n i bs total m)) = calls m ++ evs /\
    Forall loop_event evs /\
    progress_values evs = map (fun j => percent (S j) n) js /\
    StronglySorted lt js /\ Forall (fun j => i <= j) js /\
    length (requests (fst (assembly w wr cfg n i bs total m)))
    <= length (requests m) + length bs.
Proof.
  induction bs as [|b rest IH]; intros i wr total m.
  - exists [], []. simpl. rewrite app_nil_r.
    repeat split; try constructor. lia.
  - rewrite assembly_cons. destruct (speakable b).
    + set (m1 := add_requests m _).
      destruct (consume_frame (answer w cfg i b) wr total m1) as (ds & Hc & Hr).
      destruct (consume w wr (answer w cfg i b) total m1)
        as [m2 [e|total']]; simpl in Hc, Hr.
      * exists (map onChunk ds), []. simpl. rewrite Hc, Hr.
        repeat split; try constructor.
        -- apply loop_event_chunks.
        -- apply progress_values_chunks.
        -- unfold m1; simpl. rewrite length_app. simpl. lia.
      * destruct (IH (S i) wr total' (add_calls m2 [onProgress (percent (i + 1) n)]))
          as (evs & js & Hc' & Hev & Hp & Hs & Hlo & Hrq).
        exists (map onChunk ds ++ onProgress (percent (i + 1) n) :: evs), (i :: js).
        rewrite Hc'. simpl. rewrite Hc. simpl.
        repeat split.
        -- rewrite <- !app_assoc. reflexivity.
        -- apply Forall_app. split; [apply loop_event_chunks|].
           constructor; [exact I|assumption].
        -- rewrite progress_values_app, progress_values_chunks. simpl.
           rewrite Hp, Nat.add_1_r. reflexivity.
        -- constructor; [assumption|].
           eapply Forall_impl; [|exact Hlo]. simpl. intros; lia.
        -- constructor; [lia|].
           eapply Forall_impl; [|exact Hlo]. simpl. intros; lia.
        -- simpl in Hrq. rewrite Hr in Hrq. unfold m1 in Hrq. simpl in Hrq.
           rewrite length_app in Hrq. simpl in Hrq. lia.
    + destruct (IH (S i) wr total m) as (evs & js & Hc' & Hev & Hp & Hs & Hlo & Hrq).
      exists evs, js. repeat split; try assumption.
      * eapply Forall_impl; [|exact Hlo]. simpl. intros; lia.
      * simpl. lia.
Qed.


End ServicesAlways.

Section ServicesEnding.
Context {engine : Engine}.
Import Services ServicesScript.

Variable createWavHeader : N -> N -> N -> N -> bytes.
Variable w : world.

Lemma opening_frame fh m :
  calls (fst (opening createWavHeader w fh m)) = calls m /\
  requests (fst (opening createWavHeader w fh m)) = requests m.
Proof.
  unfold opening. destruct fh; [|split; reflexivity].
  unfold bind, createWritable, write.
  destruct (attempt_frame (fault w) FsCreateWritable (fun _ => ([], 0, false)) m)
    as [Hc Hr].
  destruct (attempt (fault w) FsCreateWritable (fun _ => ([], 0, false)) m)
    as [m1 [e|[]]]; simpl in *; [split; assumption|].
  rewrite <- Hc, <- Hr. apply attempt_frame.
Qed.

Lemma closing_frame fh total m :
  exists warn,
    calls (fst (closing createWavHeader w fh total m)) = calls m ++ warn /\
    (warn = [] \/ warn = [consoleWarn]) /\
    requests (fst (closing createWavHeader w fh total m)) = requests m.
Proof.
  unfold closing. destruct fh.
  - unfold finalize, bind, try_catch, seek, write, close, attempt, emit, add_calls.
    repeat (simpl;
            match goal with
            | |- context [match fault w ?op ?k with _ => _ end] =>
                destruct (fault w op k)
            end);
      simpl;
      solve [ exists []; rewrite app_nil_r; auto
            | exists [consoleWarn]; auto ].
  - exists []. simpl. rewrite app_nil_r. auto.
Qed.

(** The paths through [generateSpeech]. *)
Lemma generateSpeech_paths text cfg fh m :
  generateSpeech createWavHeader w text cfg fh m =
  let blocks := parseDialogueIntoChunks text in
  match opening createWavHeader w fh m with
  | (m1, inl e) => report e m1
  | (m1, inr _) =>
      match assembly w fh cfg (length blocks) 0 blocks 0 m1 with
      | (m2, inl e) => report e m2
      | (m2, inr total) =>
          match closing createWavHeader w fh total m2 with
          | (m3, inl e) => report e m3
          | (m3, inr _) => (add_calls m3 [onComplete], inr tt)
          end
      end
  end.
Proof.
  unfold generateSpeech, try_catch. cbv zeta.
  fold (opening createWavHeader w fh).
  unfold bind at 1.
  destruct (opening createWavHeader w fh m) as [m1 [e|[]]]; [reflexivity|].
  unfold bind at 1.
  destruct (assembly w fh cfg _ 0 _ 0 m1) as [m2 [e|total]]; [reflexivity|].
  fold (closing createWavHeader w fh total).
  unfold bind at 1.
  destruct (closing createWavHeader w fh total m2) as [m3 [e|[]]]; reflexivity.
Qed.




End ServicesEnding.

(* ===================================================================== *)
(** ** The second pipeline: what holds in every environment *)
(* ===================================================================== *)

Section VariantAlways.
Context {engine : Engine}.
Import Variant VariantScript.

Variable w : world.
Variable cb : callbacks.

Lemma variant_assembly_cons wr cfg n i b rest p m :
  assembly w cb wr cfg n i (b :: rest) p m =
  match guarded w cb wr cfg n i b p m with
  | (m1, inr p1) => assembly w cb wr cfg n (S i) rest p1 m1
  | (m1, inl e) => (m1, inl e)
  end.
Proof. reflexivity. Qed.

(** A turn never throws; it counts the block or not, reports progress only
    when it counts it, and writes no header. *)
Lemma guarded_frame wr cfg n i b p m :
  exists m1 p1 evs,
    guarded w cb wr cfg n i b p m = (m1, inr p1) /\
    calls m1 = calls m ++ evs /\
    Forall (fun ev => ev <> onComplete) evs /\
    header_sizes (journal m1) = header_sizes (journal m) /\
    ((p1 = p /\ progress_values evs = []) \/
     (p1 = S p /\
      (progress_values evs = [percent (S p) n] \/
       has_onProgress cb = false /\ progress_values evs = []))).
Proof.
  unfold guarded, try_catch, attempt_block, bind, when, writeChunkToStream,
    write, attempt, ask, emit, ret, throw, add_calls, add_requests.
  destruct (nonblank (cleanTextForSpeech (text b))); simpl;
    [destruct (synthesize w i _ _) as [e|[d|]]; simpl;
     [ | destruct wr; simpl;
         [destruct (fault w (FsWrite Audio d) (issued m)); simpl|] | ] |];
    destruct (has_onError cb), (has_onChunk cb), (has_onProgress cb) eqn:Hp;
    simpl;
    (eexists _, _, _; split; [reflexivity|]; simpl;
     split;
     [ first [ reflexivity
             | symmetry; apply app_nil_r
             | rewrite <- app_assoc; reflexivity ]
     | repeat split;
       match goal with
       | |- Forall _ _ => repeat constructor; discriminate
       | |- header_sizes _ = header_sizes _ =>
           first [ reflexivity
                 | rewrite header_sizes_app; simpl; apply app_nil_r ]
       | |- _ \/ _ =>
           first [ left; split; reflexivity
                 | right; split; [reflexivity|];
                   first [ left; reflexivity
                         | right; split; reflexivity ] ]
       end ]).
Qed.

End VariantAlways.

Section VariantLoop.
Context {engine : Engine}.
Import Variant VariantScript.

Variable w : world.

(** The loop never throws, whatever the service and the file do. *)
Lemma variant_assembly_frame cb wr cfg n bs : forall i p m,
  exists m' p' evs ks,
    assembly w cb wr cfg n i bs p m = (m', inr p') /\
    calls m' = calls m ++ evs /\
    Forall (fun ev => ev <> onComplete) evs /\
    header_sizes (journal m') = header_sizes (journal m) /\
    progress_values evs = map (fun k => percent (S k) n) ks /\
    StronglySorted lt ks /\ Forall (fun k => p <= k) ks.
Proof.
  induction bs as [|b rest IH]; intros i p m.
  - exists m, p, [], []. simpl. rewrite app_nil_r.
    repeat split; constructor.
  - rewrite variant_assembly_cons.
    destruct (guarded_frame w cb wr cfg n i b p m)
      as (m1 & p1 & evs1 & Hg & Hc1 & Hn1 & Hh1 & Hp1).
    rewrite Hg.
    destruct (IH (S i) p1 m1) as (m' & p' & evs & ks & Ha & Hc & Hn & Hh & Hp & Hs & Hlo).
    rewrite Ha.
    assert (Hle : p <= p1) by (destruct Hp1 as [[-> _]|[-> _]]; lia).
    assert (Hlo' : Forall (fun k => p <= k) ks)
      by (eapply Forall_impl; [|exact Hlo]; simpl; intros; lia).
    destruct Hp1 as [[-> Hv]|[-> [Hv|[_ Hv]]]].
    + exists m', p', (evs1 ++ evs), ks.
      rewrite Hc, Hc1, Hh, Hh1, progress_values_app, Hv, Hp, <- app_assoc.
      repeat split; auto. apply Forall_app; auto.
    + exists m', p', (evs1 ++ evs), (p :: ks).
      rewrite Hc, Hc1, Hh, Hh1, progress_values_app, Hv, Hp, <- app_assoc.
      repeat split; auto.
      * apply Forall_app; auto.
      * constructor; [assumption|].
        eapply Forall_impl; [|exact Hlo]. simpl. intros; lia.
    + exists m', p', (evs1 ++ evs), ks.
      rewrite Hc, Hc1, Hh, Hh1, progress_values_app, Hv, Hp, <- app_assoc.
      repeat split; auto. apply Forall_app; auto.
Qed.




End VariantLoop.

(* ===================================================================== *)
(** ** Facts about the scripts *)
(* ===================================================================== *)

Section ServicesScriptFacts.
Context {engine : Engine}.
Import Services ServicesScript.

Variable w : world.

Lemma script_completes cfg n bs : forall i,
  answers_all w -> snd (script w cfg n i bs) = None.
Proof.
  induction bs as [|b rest IH]; intros i Ha; simpl; [reflexivity|].
  destruct (speakable b); [|apply IH; assumption].
  unfold answer. rewrite Ha.
  specialize (IH (S i) Ha).
  destruct (script w cfg n (S i) rest). assumption.
Qed.


Lemma script_reports_prefix cfg n bs : forall i,
  exists js, reports (fst (script w cfg n i bs))
             = map (fun j => percent (S j) n) js.
Proof.
  induction bs as [|b rest IH]; intros i; simpl; [exists []; reflexivity|].
  destruct (speakable b); [|apply IH].
  destruct (thrown (answer w cfg i b)).
  - exists []. simpl. apply reports_map_Got.
  - destruct (IH (S i)) as (js & Hjs).
    destruct (script w cfg n (S i) rest) as [tl r]. simpl in *.
    exists (i :: js).
    rewrite reports_app, reports_map_Got. simpl.
    rewrite Hjs, Nat.add_1_r. reflexivity.
Qed.

(** All audio of a script is data of a response of the service. *)
Lemma script_gots cfg n bs : forall i d,
  In d (gots (fst (script w cfg n i bs))) ->
  exists j t v, In d (stream_data (synthesize w j t v)).
Proof.
  induction bs as [|b rest IH]; intros i d; simpl; [tauto|].
  destruct (speakable b); [|apply IH].
  destruct (thrown (answer w cfg i b)).
  - simpl. rewrite gots_map_Got. intros H. unfold answer in H. eauto.
  - specialize (IH (S i) d).
    destruct (script w cfg n (S i) rest) as [tl r]. simpl in *.
    rewrite gots_app, gots_map_Got. simpl. rewrite in_app_iff.
    intros [H|H]; [unfold answer in H; eauto|auto].
Qed.


End ServicesScriptFacts.

Section VariantScriptFacts.
Context {engine : Engine}.
Import Variant VariantScript.

Variable w : world.




End VariantScriptFacts.

Section VariantWhole.
Context {engine : Engine}.
Import Variant VariantScript.

Variable w : world.

Lemma variant_paths cb blocks cfg fh m :
  generateSpeech_blocks w cb blocks cfg fh m =
  match when fh (createWritable (fault w)) m with
  | (m1, inl e) => (m1, inl e)
  | (m1, inr _) =>
      match assembly w cb fh cfg (length blocks) 0 blocks 0 m1 with
      | (m2, inl e) => (m2, inl e)
      | (m2, inr _) =>
          match when fh (close (fault w)) m2 with
          | (m3, inl e) => (m3, inl e)
          | (m3, inr _) => when (has_onComplete cb) (emit onComplete) m3
          end
      end
  end.
Proof.
  unfold generateSpeech_blocks. unfold bind at 1.
  destruct (when fh (createWritable (fault w)) m) as [m1 [e|[]]]; [reflexivity|].
  unfold bind at 1.
  destruct (assembly w cb fh cfg _ 0 blocks 0 m1) as [m2 [e|p]]; [reflexivity|].
  unfold bind at 1.
  destruct (when fh (close (fault w)) m2) as [m3 [e|[]]]; reflexivity.
Qed.

(** In every environment the second pipeline writes no header and reports
    progress in increasing order. *)
Lemma variant_run_always cb blocks cfg fh :
  let r := run (generateSpeech_blocks w cb blocks cfg fh) in
  header_sizes (journal (fst r)) = [] /\
  StronglySorted N.le (progress_values (calls (fst r))).
Proof.
  intros r. subst r. unfold run. rewrite variant_paths.
  assert (Hopen : exists m1 r1, when fh (createWritable (fault w)) boot = (m1, r1)
                                /\ calls m1 = [] /\ header_sizes (journal m1) = []).
  { unfold when, createWritable, attempt. destruct fh; simpl.
    - destruct (fault w FsCreateWritable 0); simpl; eauto.
    - unfold ret. eauto. }
  destruct Hopen as (m1 & r1 & -> & Hc1 & Hh1).
  destruct r1 as [e|[]]; simpl.
  { rewrite Hc1, Hh1. split; [reflexivity|constructor]. }
  destruct (variant_assembly_frame w cb fh cfg (length blocks) blocks 0 0 m1)
    as (m2 & p2 & evs & ks & -> & Hc & Hn & Hh & Hp & Hs & _).
  rewrite Hc1 in Hc. rewrite Hh1 in Hh. simpl in Hc.
  assert (Hsorted : StronglySorted N.le (progress_values evs))
    by (rewrite Hp; apply percents_sorted; assumption).
  assert (Hclose : exists m3 r3, when fh (close (fault w)) m2 = (m3, r3)
                                 /\ calls m3 = evs /\ header_sizes (journal m3) = []).
  { unfold when, close, attempt. destruct fh; simpl.
    - destruct (fault w FsClose (issued m2)); simpl; eauto.
      do 2 eexists. split; [reflexivity|]. simpl.
      rewrite header_sizes_app, Hh. auto.
    - unfold ret. eauto. }
  destruct Hclose as (m3 & r3 & -> & Hc3 & Hh3).
  destruct r3 as [e|[]]; simpl.
  { rewrite Hc3, Hh3. split; [reflexivity|assumption]. }
  unfold when, emit, ret. destruct (has_onComplete cb); simpl.
  - rewrite Hc3, Hh3, progress_values_app. simpl. rewrite app_nil_r.
    split; [reflexivity|assumption].
  - rewrite Hc3, Hh3. split; [reflexivity|assumption].
Qed.


End VariantWhole.

Lemma wavHeader_fixed_size : fixed_size wavHeader.
Proof. intros n. reflexivity. Qed.

Lemma write_at_start (h c : bytes) :
  write_at 0 h c = h ++ skipn (length h) c.
Proof. reflexivity. Qed.

Lemma audio_written_app a b :
  audio_written (a ++ b) = audio_written a ++ audio_written b.
Proof. apply flat_map_app. Qed.

Lemma audio_written_audio ds : audio_written (map (FsWrite Audio) ds) = ds.
Proof. induction ds; simpl; congruence. Qed.

Lemma in_chunk_values d evs : In (onChunk d) evs -> In d (chunk_values evs).
Proof.
  intros H. unfold chunk_values. apply in_flat_map.
  exists (onChunk d). split; [assumption|left; reflexivity].
Qed.

(* ===================================================================== *)
(** ** The file and its header *)
(* ===================================================================== *)

Lemma skipn_header (h0 hT payload : bytes) :
  length hT = length h0 -> skipn (length hT) (h0 ++ payload) = payload.
Proof.
  intros ->. rewrite skipn_app, skipn_all, Nat.sub_diag. reflexivity.
Qed.

(** C7 (as amended).  In the services pipeline a run with a file in which
    no request throws and no file operation throws writes the header
    exactly twice: the placeholder for size zero as the first write, and,
    after the audio, a header for the number of audio bytes written, behind
    a seek to offset zero; the file then holds that header followed by the
    audio.  The second pipeline writes no header at all. *)
Theorem header_written_twice {engine : Engine} :
  (forall createWavHeader w text cfg,
      answers_all w -> reliable (Services.fault w) ->
      fixed_size createWavHeader ->
      let m := fst (run (Services.generateSpeech createWavHeader w text cfg true)) in
      exists ds,
        let T := N.of_nat (length (concat ds)) in
        journal m =
          [FsCreateWritable; FsWrite (Header 0) (createWavHeader 0 1 24000 16)%N]
          ++ map (FsWrite Audio) ds
          ++ [FsSeek 0; FsWrite (Header T) (createWavHeader T 1 24000 16)%N;
              FsClose] /\
        header_sizes (journal m) = [0%N; T] /\
        staged m = (createWavHeader T 1 24000 16)%N ++ concat ds /\
        In onComplete (calls m))
  /\
  (forall name_ext w cb text cfg fh,
      header_sizes
        (journal (fst (run (Variant.generateSpeech name_ext w cb text cfg fh))))
      = []).
Proof.
  split.
  - intros hdr w text cfg Ha Hf Hsize m.
    destruct (file_run_done hdr w text cfg (reliable_only_rewrite _ Hf)
                (script_completes w cfg _ _ 0 Ha))
      as (m' & Hrun & _ & _ & Hcases).
    subst m. rewrite Hrun. simpl fst.
    destruct Hcases as [(_ & _ & Hj & Hs & Hc)|([H|H] & _)];
      [|rewrite Hf in H; congruence|rewrite Hf in H; congruence].
    match type of Hj with
    | context [gots ?sc] => exists (gots sc)
    end.
    cbv zeta. rewrite Hj, Hs, Hc. simpl.
    repeat split.
    + rewrite header_sizes_app, header_sizes_audio. reflexivity.
    + rewrite write_at_start. f_equal.
      apply skipn_header. rewrite !Hsize. reflexivity.
    + apply in_or_app. right. left. reflexivity.
  - intros name_ext w cb text cfg fh.
    apply (variant_run_always w cb).
Qed.

Section HeaderExamples.
Local Existing Instance latin1.

(** C7 (as stated) fails on the second pipeline: a run with a file over the
    two-line dialogue writes the audio of both blocks and no header. *)
Lemma variant_run_writes_no_header :
  let m := fst (run (Variant.generateSpeech latin1_letters variant_obliging
                       Variant.all_callbacks greeting None true)) in
  journal m = [FsCreateWritable; FsWrite Audio beep; FsWrite Audio beep; FsClose]
  /\ header_sizes (journal m) = [] /\ In onComplete (calls m).
Proof.
  vm_compute. repeat split. right. right. left. reflexivity.
Qed.

Lemma header_written_twice_witness :
  let m := fst (run (Services.generateSpeech wavHeader obliging greeting None true)) in
  exists ds,
    let T := N.of_nat (length (concat ds)) in
    journal m =
      [FsCreateWritable; FsWrite (Header 0) (wavHeader 0 1 24000 16)]
      ++ map (FsWrite Audio) ds
      ++ [FsSeek 0; FsWrite (Header T) (wavHeader T 1 24000 16); FsClose] /\
    header_sizes (journal m) = [0%N; T] /\
    staged m = wavHeader T 1 24000 16 ++ concat ds /\
    In onComplete (calls m).
Proof.
  apply (proj1 header_written_twice wavHeader obliging greeting None).
  - intros i t v. reflexivity.
  - intros op k. reflexivity.
  - exact wavHeader_fixed_size.
Defined.

End HeaderExamples.

Lemma loop_events_quiet evs :
  Forall loop_event evs -> error_values evs = [] /\ ~ In onComplete evs.
Proof.
  induction 1 as [|ev evs Hev _ [IHe IHc]]; simpl; [tauto|].
  destruct ev; simpl in *; try contradiction;
    (split; [assumption|intros [H|H]; [discriminate|tauto]]).
Qed.

Lemma services_heard_loop {engine : Engine} w wr cfg n bs : forall i,
  Forall loop_event (heard wr (fst (ServicesScript.script w cfg n i bs))).
Proof.
  induction bs as [|b rest IH]; intros i; simpl; [constructor|].
  destruct (ServicesScript.speakable b); [|apply IH].
  assert (Hgot : forall ds, Forall loop_event (heard wr (map Got ds))).
  { induction ds as [|d ds IHd]; simpl; [constructor|].
    unfold heard in *. simpl. destruct wr; simpl; [assumption|].
    constructor; [exact I|assumption]. }
  destruct (ServicesScript.thrown _).
  - simpl. apply (Hgot _).
  - specialize (IH (S i)).
    destruct (ServicesScript.script w cfg n (S i) rest) as [tl r]. simpl in *.
    change (Forall loop_event
              (heard wr (map Got (ServicesScript.stream_data
                                    (ServicesScript.answer w cfg i b))
                         ++ Reported (percent (i + 1) n) :: tl))).
    rewrite heard_app. apply Forall_app. split; [apply Hgot|].
    constructor; [exact I|assumption].
Qed.

(** C8.  In the services pipeline, when every block was processed and the
    header rewrite fails (the file cannot seek, or refuses the second
    header) while nothing else does, the failure is reported as a warning
    only: the run returns, the file is closed, [onComplete] is the last
    callback and no [onError] is made; the file still holds the placeholder
    header followed by all the audio written. *)
Theorem header_rewrite_failure_is_not_fatal {engine : Engine} :
  forall createWavHeader w text cfg,
    answers_all w ->
    only_rewrite_fails (Services.fault w) ->
    seek_unsupported (Services.fault w) \/ rewrite_refused (Services.fault w) ->
    let r := run (Services.generateSpeech createWavHeader w text cfg true) in
    snd r = inr tt /\
    closed (fst r) = true /\
    (exists evs, calls (fst r) = evs ++ [consoleWarn; onComplete] /\
                 Forall loop_event evs) /\
    error_values (calls (fst r)) = [] /\
    staged (fst r) = (createWavHeader 0 1 24000 16)%N
                     ++ concat (audio_written (journal (fst r))).
Proof.
  intros hdr w text cfg Ha Hf Hfail r.
  destruct (file_run_done hdr w text cfg Hf (script_completes w cfg _ _ 0 Ha))
    as (m' & Hrun & Hcl & _ & Hcases).
  subst r. rewrite Hrun. simpl fst. simpl snd.
  destruct Hcases as [(H1 & H2 & _)|(_ & Hj & Hs & Hc)].
  { exfalso. destruct Hfail as [Hseek|Hhdr].
    - apply (Hseek _ _ H1).
    - refine (Hhdr _ _ _ _ H2). simpl. lia. }
  pose proof (services_heard_loop w true cfg
                (length (Services.parseDialogueIntoChunks text))
                (Services.parseDialogueIntoChunks text) 0) as Hloop.
  simpl in Hc, Hs.
  repeat split.
  - exact Hcl.
  - eexists. split; [exact Hc|exact Hloop].
  - rewrite Hc, error_values_app. simpl. rewrite app_nil_r.
    apply (loop_events_quiet _ Hloop).
  - rewrite Hs. f_equal. f_equal.
    destruct Hj as [-> | ->]; simpl;
      rewrite audio_written_app, audio_written_audio; simpl;
      rewrite app_nil_r; reflexivity.
Qed.

Section RewriteExample.
Local Existing Instance latin1.

Lemma header_rewrite_failure_is_not_fatal_witness :
  let r := run (Services.generateSpeech wavHeader obliging_no_seek greeting
                  None true) in
  snd r = inr tt /\
  closed (fst r) = true /\
  (exists evs, calls (fst r) = evs ++ [consoleWarn; onComplete] /\
               Forall loop_event evs) /\
  error_values (calls (fst r)) = [] /\
  staged (fst r) = wavHeader 0 1 24000 16
                   ++ concat (audio_written (journal (fst r))).
Proof.
  apply (header_rewrite_failure_is_not_fatal wavHeader obliging_no_seek
                                             greeting None).
  - intros i t v. reflexivity.
  - intros op k e. destruct op; simpl; solve [discriminate | trivial].
  - left. intros pos k. discriminate.
Defined.

End RewriteExample.

(* ===================================================================== *)
(** ** Audio delivered in memory *)
(* ===================================================================== *)

Lemma played_file_staged m sc :
  staged (played true m sc) = staged m ++ concat (gots sc).
Proof. reflexivity. Qed.

(** C10.  In the services pipeline a run without a file hands to [onChunk]
    nothing but audio data of responses of the service, and touches no
    file, so no header is built or delivered; and when the file would not
    throw, the bytes handed to [onChunk] are exactly the bytes a run with a
    file leaves behind its 44-byte header. *)
Theorem memory_stream_is_payload_only {engine : Engine} :
  forall createWavHeader w text cfg,
    let mem := fst (run (Services.generateSpeech createWavHeader w text cfg
                           false)) in
    let file := fst (run (Services.generateSpeech createWavHeader w text cfg
                            true)) in
    (forall d, In (onChunk d) (calls mem) ->
               exists i t v,
                 In d (ServicesScript.stream_data (Services.synthesize w i t v)))
    /\ journal mem = [] /\ staged mem = []
    /\ (reliable (Services.fault w) -> fixed_size createWavHeader ->
        concat (chunk_values (calls mem)) = skipn 44 (staged file)).
Proof.
  intros hdr w text cfg mem file.
  assert (Hmem : chunk_values (calls mem)
                 = gots (fst (ServicesScript.script w cfg
                                (length (Services.parseDialogueIntoChunks text)) 0
                                (Services.parseDialogueIntoChunks text)))).
  { subst mem. rewrite memory_run.
    destruct (snd _) as [[|message]|]; rewrite ?report_cases; simpl;
      rewrite ?chunk_values_app, chunk_values_heard_memory; simpl;
      rewrite ?app_nil_r; reflexivity. }
  split; [|split; [|split]].
  - intros d Hd. apply in_chunk_values in Hd. rewrite Hmem in Hd.
    eapply script_gots; eassumption.
  - subst mem. rewrite memory_run.
    destruct (snd _) as [[|message]|]; reflexivity.
  - subst mem. rewrite memory_run.
    destruct (snd _) as [[|message]|]; reflexivity.
  - intros Hf Hsize. rewrite Hmem. subst file.
    pose proof (reliable_only_rewrite _ Hf) as Hf'.
    destruct (snd (ServicesScript.script w cfg
                     (length (Services.parseDialogueIntoChunks text)) 0
                     (Services.parseDialogueIntoChunks text))) as [e|] eqn:He.
    + rewrite (file_run_thrown hdr w text cfg e Hf' He).
      rewrite (proj1 (report_frame e _)).
      rewrite played_file_staged. cbn [staged setup].
      rewrite <- (Hsize 0%N). symmetry. apply skipn_header. reflexivity.
    + destruct (file_run_done hdr w text cfg Hf' He)
        as (m' & Hrun & _ & _ & Hcases).
      rewrite Hrun. cbn [fst].
      destruct Hcases as [(_ & _ & _ & Hs & _)|([H|H] & _)];
        [|rewrite Hf in H; congruence|rewrite Hf in H; congruence].
      rewrite Hs, write_at_start, played_file_staged. cbn [staged setup].
      rewrite skipn_header by (rewrite !Hsize; reflexivity).
      match goal with
      | |- _ = skipn 44 (?h ++ _) =>
          rewrite <- (Hsize (N.of_nat (length (concat (gots
            (fst (ServicesScript.script w cfg
                    (length (Services.parseDialogueIntoChunks text)) 0
                    (Services.parseDialogueIntoChunks text))))))))
      end.
      symmetry. apply skipn_header. reflexivity.
Qed.

Section MemoryExample.
Local Existing Instance latin1.

Lemma memory_stream_is_payload_only_witness :
  let mem := fst (run (Services.generateSpeech wavHeader obliging greeting None
                         false)) in
  let file := fst (run (Services.generateSpeech wavHeader obliging greeting None
                          true)) in
  concat (chunk_values (calls mem)) = skipn 44 (staged file).
Proof.
  apply (memory_stream_is_payload_only wavHeader obliging greeting None).
  - intros op k. reflexivity.
  - exact wavHeader_fixed_size.
Defined.

End MemoryExample.

(* ===================================================================== *)
(** ** Failures of single requests *)
(* ===================================================================== *)


Section FailureExamples.
Local Existing Instance latin1.



End FailureExamples.

(* ===================================================================== *)
(** ** Progress reports *)
(* ===================================================================== *)







Section ProgressExamples.
Local Existing Instance latin1.



End ProgressExamples.

(* ===================================================================== *)
(** ** Voice selection *)
(* ===================================================================== *)

Lemma find_first {A} (f : A -> bool) pre s post :
  f s = true -> (forall x, In x pre -> f x = false) ->
  find f (pre ++ s :: post) = Some s.
Proof.
  intros Hs Hpre. induction pre as [|a pre IH]; simpl.
  - rewrite Hs. reflexivity.
  - rewrite (Hpre a) by (left; reflexivity).
    apply IH. intros x Hx. apply Hpre. right. exact Hx.
Qed.

Lemma find_nothing {A} (f : A -> bool) l :
  (forall x, In x l -> f x = false) -> find f l = None.
Proof.
  intros H. induction l as [|a l IH]; simpl; [reflexivity|].
  rewrite (H a) by (left; reflexivity).
  apply IH. intros x Hx. apply H. right. exact Hx.
Qed.

Lemma str_eqb_neq a b : a <> b -> str_eqb a b = false.
Proof.
  intros H. destruct (str_eqb a b) eqn:E; [|reflexivity].
  apply str_eqb_eq in E. contradiction.
Qed.

(** C6 (as amended).  In the services pipeline the voice is chosen in this
    order, the first hit winning: a speaker whose lower-cased name contains
    [roberta] gets Aoede and one whose name contains [milton] gets
    Enceladus, whatever the map holds; otherwise the first entry of the map
    whose name equals the speaker gives the voice; otherwise the voice is
    Kore.  The second pipeline has no built-in identities: the first entry
    of the map whose lower-cased first word occurs in the lower-cased
    speaker gives the voice, and the voice is Aoede otherwise.  Lower-casing
    is [toLowerCase] of the engine, whatever its case conversion is.  On a
    plain name, of Basic Latin and white space, every engine turns the
    letters A to Z into a to z and nothing else: there the match on the
    built-in identities ignores the case of the letters. *)
Theorem voice_precedence {engine : Engine} :
  (forall spk,
      let named := includes (toLowerCase spk) in
      (named (lit "roberta") = true ->
       forall cfg, Services.voiceName cfg spk = lit "Aoede") /\
      (named (lit "roberta") = false -> named (lit "milton") = true ->
       forall cfg, Services.voiceName cfg spk = lit "Enceladus") /\
      (named (lit "roberta") = false -> named (lit "milton") = false ->
       (forall c pre s post,
           speakers c = pre ++ s :: post ->
           name s = spk -> (forall x, In x pre -> name x <> spk) ->
           Services.voiceName (Some c) spk = voice s) /\
       (forall c,
           (forall x, In x (speakers c) -> name x <> spk) ->
           Services.voiceName (Some c) spk = lit "Kore") /\
       Services.voiceName None spk = lit "Kore"))
  /\
  (forall spk,
      let hit s := includes (toLowerCase spk)
                            (first_word (toLowerCase (name s))) in
      (forall c pre s post,
          speakers c = pre ++ s :: post ->
          hit s = true -> (forall x, In x pre -> hit x = false) ->
          Variant.voiceName (Some c) spk = voice s) /\
      (forall c,
          (forall x, In x (speakers c) -> hit x = false) ->
          Variant.voiceName (Some c) spk = lit "Aoede") /\
      Variant.voiceName None spk = lit "Aoede")
  /\
  (forall spk cfg,
      plain spk = true ->
      let lowered := map latin1_lower_unit spk in
      (includes lowered (lit "roberta") = true ->
       Services.voiceName cfg spk = lit "Aoede") /\
      (includes lowered (lit "roberta") = false ->
       includes lowered (lit "milton") = true ->
       Services.voiceName cfg spk = lit "Enceladus")).
Proof.
  split; [|split].
  - intros spk named. unfold Services.voiceName. fold named.
    split; [|split].
    + intros -> cfg. reflexivity.
    + intros -> -> cfg. reflexivity.
    + intros -> ->. split; [|split].
      * intros c pre s post Hsp Hs Hpre.
        unfold Services.find_speaker. rewrite Hsp.
        rewrite (find_first (fun x => str_eqb (name x) spk) pre s post).
        -- reflexivity.
        -- apply str_eqb_eq. exact Hs.
        -- intros x Hx. apply str_eqb_neq. apply Hpre. exact Hx.
      * intros c Hc. unfold Services.find_speaker.
        rewrite find_nothing; [reflexivity|].
        intros x Hx. apply str_eqb_neq. apply Hc. exact Hx.
      * reflexivity.
  - intros spk hit. unfold Variant.voiceName. split; [|split].
    + intros c pre s post Hsp Hs Hpre. rewrite Hsp.
      fold hit. rewrite (find_first hit pre s post Hs Hpre). reflexivity.
    + intros c Hc.
      fold hit. rewrite (find_nothing hit _ Hc). reflexivity.
    + reflexivity.
  - intros spk cfg Hp lowered. unfold Services.voiceName.
    rewrite (toLowerCase_plain spk Hp). fold lowered.
    split; [intros ->; reflexivity|intros -> ->; reflexivity].
Qed.

Section VoiceExamples.
Local Existing Instance latin1.

(** C6 (as stated) fails on the second pipeline: the map decides the voice
    of Roberta Erickson, and without a map Milton Dilts gets the default
    voice. *)
Lemma variant_map_overrides_named_speaker :
  Variant.voiceName (Some puck_for_roberta) (lit "Roberta Erickson") = lit "Puck"
  /\ Variant.voiceName None (lit "Milton Dilts") = lit "Aoede"
  /\ Services.voiceName (Some puck_for_roberta) (lit "Roberta Erickson")
     = lit "Aoede".
Proof. vm_compute. repeat split. Qed.

Lemma voice_precedence_witness :
  Services.voiceName (Some puck_for_roberta) (lit "Roberta Erickson")
  = lit "Aoede"
  /\ Services.voiceName None (lit "Milton Dilts") = lit "Enceladus"
  /\ Services.voiceName
       (Some {| speakers := [{| name := lit "Alice"; voice := lit "Puck" |}] |})
       (lit "Alice") = lit "Puck"
  /\ Services.voiceName (Some puck_for_roberta) (lit "Alice") = lit "Kore"
  /\ Variant.voiceName (Some puck_for_roberta) (lit "Roberta Erickson")
     = lit "Puck"
  /\ Variant.voiceName (Some puck_for_roberta) (lit "Alice") = lit "Aoede"
  /\ Services.voiceName (Some puck_for_roberta) (lit "ROBERTA") = lit "Aoede".
Proof.
  split; [|split; [|split; [|split; [|split; [|split]]]]].
  - apply (proj1 voice_precedence (lit "Roberta Erickson")).
    vm_compute. reflexivity.
  - apply (proj1 voice_precedence (lit "Milton Dilts"));
      vm_compute; reflexivity.
  - destruct (proj1 voice_precedence (lit "Alice")) as (_ & _ & H).
    destruct H as [H _]; [vm_compute; reflexivity|vm_compute; reflexivity|].
    apply (H {| speakers := [{| name := lit "Alice"; voice := lit "Puck" |}] |}
             [] {| name := lit "Alice"; voice := lit "Puck" |} []);
      [reflexivity|reflexivity|intros x []].
  - destruct (proj1 voice_precedence (lit "Alice")) as (_ & _ & H).
    destruct H as (_ & H & _); [vm_compute; reflexivity|vm_compute; reflexivity|].
    apply H. intros x [<-|[]]. vm_compute. discriminate.
  - destruct (proj1 (proj2 voice_precedence) (lit "Roberta Erickson"))
      as [H _].
    apply (H puck_for_roberta [] {| name := lit "Roberta"; voice := lit "Puck" |} []);
      [reflexivity|vm_compute; reflexivity|intros x []].
  - destruct (proj1 (proj2 voice_precedence) (lit "Alice")) as (_ & H & _).
    apply H. intros x [<-|[]]. vm_compute. reflexivity.
  - apply (proj2 (proj2 voice_precedence) (lit "ROBERTA")
             (Some puck_for_roberta)); reflexivity.
Defined.

End VoiceExamples.

(* ===================================================================== *)
(** ** Stage directions *)
(* ===================================================================== *)

Lemma dropWhile_nil p s : dropWhile p s = [] <-> forallb p s = true.
Proof.
  induction s as [|c r IH]; simpl; [tauto|].
  destruct (p c); simpl; [exact IH|]. split; discriminate.
Qed.

Lemma forallb_rev {A} (p : A -> bool) l : forallb p (rev l) = forallb p l.
Proof.
  induction l as [|a l IH]; [reflexivity|].
  simpl. rewrite forallb_app, IH. simpl. rewrite andb_true_r.
  apply andb_comm.
Qed.

Lemma dropWhile_all p s : forallb p (dropWhile p s) = true -> dropWhile p s = [].
Proof.
  induction s as [|c r IH]; simpl; [reflexivity|].
  destruct (p c) eqn:E; [exact IH|].
  simpl. rewrite E. discriminate.
Qed.

(** A text is blank exactly when it holds white space only. *)
Lemma blank_iff s : nonblank s = false <-> forallb is_ws s = true.
Proof.
  unfold nonblank, trim, trimEnd, trimStart. split.
  - intros H. apply dropWhile_nil.
    destruct (rev (dropWhile is_ws (rev (dropWhile is_ws s)))) eqn:E;
      [|discriminate].
    apply (f_equal (@rev N)) in E. rewrite rev_involutive in E. simpl in E.
    apply dropWhile_nil in E. rewrite forallb_rev in E.
    apply dropWhile_all. exact E.
  - intros H. apply dropWhile_nil in H. rewrite H. reflexivity.
Qed.

Lemma takeWhile_all p s : forallb p (takeWhile p s) = true.
Proof.
  induction s as [|c r IH]; simpl; [reflexivity|].
  destruct (p c) eqn:E; simpl; [rewrite E; exact IH|reflexivity].
Qed.

Lemma forallb_dropWhile p q s :
  forallb p s = true -> forallb p (dropWhile q s) = true.
Proof.
  induction s as [|c r IH]; simpl; [auto|].
  intros H. destruct (q c); [|exact H].
  apply andb_true_iff in H. apply IH, H.
Qed.

Lemma forallb_trim p s : forallb p s = true -> forallb p (trim s) = true.
Proof.
  intros H. unfold trim, trimEnd, trimStart.
  rewrite forallb_rev. apply forallb_dropWhile.
  rewrite forallb_rev. apply forallb_dropWhile. exact H.
Qed.

(** A name the speaker pattern accepts is made of letters of Basic Latin
    and white space. *)
Lemma name_units_plain s :
  forallb Services.is_name_unit s = true -> plain s = true.
Proof.
  unfold plain. intros H. rewrite forallb_forall in *.
  intros c Hc. specialize (H c Hc). unfold Services.is_name_unit in H.
  apply orb_true_iff in H. destruct H as [H|H]; [|rewrite H; apply orb_true_r].
  apply orb_true_iff. left. apply N.ltb_lt.
  apply orb_true_iff in H.
  destruct H as [H|H]; apply andb_true_iff in H; destruct H as [_ H];
    apply N.leb_le in H; lia.
Qed.

Lemma match_speaker_name line name rest :
  Services.match_speaker line = Some (name, rest) ->
  forallb Services.is_name_unit name = true.
Proof.
  unfold Services.match_speaker.
  destruct (2 <? length (takeWhile Services.is_star line)); [discriminate|].
  pose proof (takeWhile_all Services.is_name_unit
                (dropWhile Services.is_star line)) as Hall.
  destruct (takeWhile Services.is_name_unit (dropWhile Services.is_star line))
    as [|a name']; [discriminate|].
  destruct (2 <? length _); [discriminate|].
  destruct (dropWhile Services.is_star _) as [|c r4]; [discriminate|].
  destruct (c =? 58)%N; [|discriminate].
  destruct (existsb _ _); [discriminate|].
  intros H. injection H as <- _. exact Hall.
Qed.

(** The segmenter lower-cases only the names its pattern accepts, so it
    gives the same segments under every engine. *)
Lemma canonical_speaker_any {engine : Engine} s :
  plain s = true ->
  Services.canonical_speaker s = @Services.canonical_speaker latin1 s.
Proof.
  intros H. unfold Services.canonical_speaker.
  rewrite (toLowerCase_plain s H). reflexivity.
Qed.

Lemma line_step_any {engine : Engine} p line :
  Services.line_step p line = @Services.line_step latin1 p line.
Proof.
  unfold Services.line_step.
  destruct (Services.match_speaker line) as [[name rest]|] eqn:E;
    [|reflexivity].
  rewrite canonical_speaker_any; [reflexivity|].
  apply name_units_plain, forallb_trim.
  eapply match_speaker_name. exact E.
Qed.

Lemma lines_any {engine : Engine} ls : forall p,
  fold_left Services.line_step ls p
  = fold_left (@Services.line_step latin1) ls p.
Proof.
  induction ls as [|l ls IH]; intros p; [reflexivity|].
  simpl. rewrite line_step_any. apply IH.
Qed.

Lemma segments_any {engine : Engine} text :
  Services.parseDialogueIntoChunks text
  = @Services.parseDialogueIntoChunks latin1 text.
Proof.
  unfold Services.parseDialogueIntoChunks. rewrite lines_any. reflexivity.
Qed.

Lemma voiceName_plain {engine : Engine} cfg spk :
  plain spk = true ->
  Services.voiceName cfg spk = @Services.voiceName latin1 cfg spk.
Proof.
  intros H. unfold Services.voiceName.
  rewrite (toLowerCase_plain spk H). reflexivity.
Qed.

Lemma memory_requests {engine : Engine} createWavHeader w text cfg :
  requests (fst (run (Services.generateSpeech createWavHeader w text cfg false)))
  = asks (fst (ServicesScript.script w cfg
                 (length (Services.parseDialogueIntoChunks text)) 0
                 (Services.parseDialogueIntoChunks text))).
Proof.
  rewrite memory_run. destruct (snd _) as [[|message]|]; reflexivity.
Qed.

Lemma single_block_asks {engine : Engine} w cfg n i b :
  asks (fst (ServicesScript.script w cfg n i [b]))
  = if ServicesScript.speakable b
    then [(Services.cleanedText (Services.text b),
           Services.voiceName cfg (Services.speaker b))]
    else [].
Proof.
  simpl. destruct (ServicesScript.speakable b); [|reflexivity].
  destruct (ServicesScript.thrown _); simpl.
  - rewrite asks_map_Got. reflexivity.
  - rewrite asks_app, asks_map_Got. reflexivity.
Qed.

(** Where every request is answered the script asks for every block that
    is not blank once cleaned. *)
Lemma script_asks_all {engine : Engine} w cfg n bs : forall i,
  answers_all w ->
  asks (fst (ServicesScript.script w cfg n i bs)) = services_wanted cfg bs.
Proof.
  unfold services_wanted.
  induction bs as [|b rest IH]; intros i Ha; simpl; [reflexivity|].
  destruct (ServicesScript.speakable b); [|apply IH; exact Ha].
  unfold ServicesScript.answer. rewrite Ha.
  specialize (IH (S i) Ha).
  destruct (ServicesScript.script w cfg n (S i) rest) as [tl r]. simpl in *.
  rewrite asks_app, asks_map_Got. simpl. rewrite IH. reflexivity.
Qed.

Lemma open_is_no_space c : is_open c = true -> is_ws c = false.
Proof.
  unfold is_open. intros H. apply orb_true_iff in H.
  destruct H as [H|H]; apply N.eqb_eq in H; subst c; reflexivity.
Qed.

Lemma nonblank_head c rest : is_ws c = false -> nonblank (c :: rest) = true.
Proof.
  intros Hc. destruct (nonblank (c :: rest)) eqn:Hb; [reflexivity|].
  apply blank_iff in Hb. simpl in Hb. rewrite Hc in Hb. discriminate.
Qed.

Lemma dropWhile_app_all p a b :
  forallb p a = true -> dropWhile p (a ++ b) = dropWhile p b.
Proof.
  induction a as [|c a IH]; simpl; [reflexivity|].
  intros H. apply andb_true_iff in H. destruct H as [Hc Ha].
  rewrite Hc. apply IH. exact Ha.
Qed.

Lemma after_close_first body c rest :
  forallb (fun u => negb (is_close u) && negb (is_line_terminator u)) body
  = true ->
  is_close c = true ->
  Services.after_close (body ++ c :: rest) = Some rest.
Proof.
  intros Hb Hc. induction body as [|u body IH]; simpl.
  - rewrite Hc. reflexivity.
  - simpl in Hb. apply andb_true_iff in Hb. destruct Hb as [Hu Hb].
    apply andb_true_iff in Hu. destruct Hu as [Hu1 Hu2].
    apply negb_true_iff in Hu1, Hu2. rewrite Hu1, Hu2. apply IH. exact Hb.
Qed.

(** C9 (as amended).  The stage-direction pattern is applied to the text
    of a block, not to the lines of the script.  A line that begins with an
    opening bracket never names a speaker: in every state of the segmenter
    it is added, whole, to the text of the current speaker.  The cleaning
    leaves a text that does not begin with an opening bracket as it is, and
    of a text that begins with a direction (white space, an opening
    bracket, units up to the first closing bracket with no line terminator
    among them) it keeps what follows the direction and its white space.
    The texts asked for are the cleaned texts of the blocks.  So
    the line [Roberta Erickson: (softly) Peace be with you.] is asked for as
    [Peace be with you.] in the voice Aoede, whatever the map.  The line
    [(softly) Roberta Erickson: Peace be with you.] alone is a block of the
    narrator: the direction begins its text and is removed, and the rest,
    the name included, is asked for in the voice Kore.  Behind the line
    [Alice: Hi.] the same line is part of the block of Alice, and the text
    is asked for with the direction still in it, in the voice Kore. *)
Theorem stage_direction_placement {engine : Engine} :
  (forall p c rest,
      is_open c = true ->
      Services.match_speaker (c :: rest) = None /\
      Services.line_step p (c :: rest)
      = {| Services.blocks := Services.blocks p;
           Services.currentSpeaker := Services.currentSpeaker p;
           Services.currentBuffer :=
             Services.currentBuffer p ++ trim (c :: rest) ++ [10%N] |})
  /\
  (forall t c r,
      dropWhile is_ws t = c :: r -> is_open c = false ->
      Services.cleanedText t = t)
  /\
  (forall space o body c rest,
      forallb is_ws space = true -> is_open o = true ->
      forallb (fun u => negb (is_close u) && negb (is_line_terminator u)) body
      = true ->
      is_close c = true ->
      Services.cleanedText (space ++ o :: body ++ c :: rest)
      = dropWhile is_ws rest)
  /\
  (forall createWavHeader w text cfg,
      answers_all w ->
      requests (fst (run (Services.generateSpeech createWavHeader w
                            text cfg false)))
      = services_wanted cfg (Services.parseDialogueIntoChunks text))
  /\
  (forall createWavHeader w,
      (forall cfg,
          requests (fst (run (Services.generateSpeech createWavHeader w
                                direction_after_name cfg false)))
          = [(lit "Peace be with you.", lit "Aoede")])
      /\ Services.parseDialogueIntoChunks direction_first
         = [{| Services.speaker := lit "Narrator";
               Services.text := direction_first |}]
      /\ requests (fst (run (Services.generateSpeech createWavHeader w
                               direction_first None false)))
         = [(lit "Roberta Erickson: Peace be with you.", lit "Kore")]
      /\ Services.parseDialogueIntoChunks direction_after_alice
         = [{| Services.speaker := lit "Alice";
               Services.text :=
                 lit "Hi. (softly) Roberta Erickson: Peace be with you." |}]
      /\ requests (fst (run (Services.generateSpeech createWavHeader w
                               direction_after_alice None false)))
         = [(lit "Hi. (softly) Roberta Erickson: Peace be with you.",
             lit "Kore")]).
Proof.
  split; [|split; [|split; [|split]]].
  - intros p c rest Hc.
    assert (Hm : Services.match_speaker (c :: rest) = None).
    { unfold is_open in Hc. apply orb_true_iff in Hc.
      destruct Hc as [Hc|Hc]; apply N.eqb_eq in Hc; subst c; reflexivity. }
    split; [exact Hm|].
    unfold Services.line_step. rewrite Hm.
    rewrite (nonblank_head c rest (open_is_no_space c Hc)). reflexivity.
  - intros t c r Ht Hc. unfold Services.cleanedText. rewrite Ht, Hc.
    reflexivity.
  - intros space o body c rest Hs Ho Hb Hc. unfold Services.cleanedText.
    rewrite (dropWhile_app_all is_ws space _ Hs). simpl.
    rewrite (open_is_no_space o Ho), Ho.
    rewrite (after_close_first body c rest Hb Hc). reflexivity.
  - intros hdr w text cfg Ha.
    rewrite memory_requests. apply script_asks_all. exact Ha.
  - intros hdr w. split; [|split; [|split; [|split]]].
    + intros cfg. rewrite memory_requests, segments_any.
      replace (@Services.parseDialogueIntoChunks latin1 direction_after_name)
        with [{| Services.speaker := lit "Roberta Erickson";
                 Services.text := lit "(softly) Peace be with you." |}]
        by (vm_compute; reflexivity).
      rewrite single_block_asks, voiceName_plain by reflexivity.
      vm_compute. reflexivity.
    + rewrite segments_any. vm_compute. reflexivity.
    + rewrite memory_requests, segments_any.
      replace (@Services.parseDialogueIntoChunks latin1 direction_first)
        with [{| Services.speaker := lit "Narrator";
                 Services.text := direction_first |}]
        by (vm_compute; reflexivity).
      rewrite single_block_asks, voiceName_plain by reflexivity.
      vm_compute. reflexivity.
    + rewrite segments_any. vm_compute. reflexivity.
    + rewrite memory_requests, segments_any.
      replace (@Services.parseDialogueIntoChunks latin1 direction_after_alice)
        with [{| Services.speaker := lit "Alice";
                 Services.text :=
                   lit "Hi. (softly) Roberta Erickson: Peace be with you." |}]
        by (vm_compute; reflexivity).
      rewrite single_block_asks, voiceName_plain by reflexivity.
      vm_compute. reflexivity.
Qed.

Section DirectionExamples.
Local Existing Instance latin1.

(** C9 (as stated) fails: the line that begins with the stage direction is
    a block of the narrator, and its text, with the name still in it, is
    asked for in the default voice. *)
Lemma direction_before_name_is_narrated :
  let m := fst (run (Services.generateSpeech wavHeader obliging direction_first
                       None false)) in
  map Services.speaker (Services.parseDialogueIntoChunks direction_first)
  = [lit "Narrator"]
  /\ requests m = [(lit "Roberta Erickson: Peace be with you.", lit "Kore")]
  /\ map snd (requests m) <> [lit "Aoede"].
Proof.
  vm_compute. repeat split. discriminate.
Qed.

Lemma stage_direction_placement_witness :
  Services.match_speaker direction_first = None
  /\ Services.cleanedText (lit "Hi. (softly) Peace.")
     = lit "Hi. (softly) Peace."
  /\ Services.cleanedText (lit " [pause] Peace.") = lit "Peace."
  /\ requests (fst (run (Services.generateSpeech wavHeader obliging
                           direction_after_alice None false)))
     = services_wanted None
         (Services.parseDialogueIntoChunks direction_after_alice).
Proof.
  destruct stage_direction_placement as (H1 & H2 & H2' & H3 & _).
  split; [|split; [|split]].
  - apply (H1 {| Services.blocks := []; Services.currentSpeaker := [];
                 Services.currentBuffer := [] |}
              40%N (lit "softly) Roberta Erickson: Peace be with you.")).
    reflexivity.
  - apply (H2 (lit "Hi. (softly) Peace.") 72%N (lit "i. (softly) Peace."));
      reflexivity.
  - apply (H2' (lit " ") 91%N (lit "pause") 93%N (lit " Peace."));
      reflexivity.
  - apply (H3 wavHeader obliging direction_after_alice None).
    intros i t v. reflexivity.
Defined.

End DirectionExamples.

(* ===================================================================== *)
(** ** The segmenter on long buffers *)
(* ===================================================================== *)

Lemma dropWhile_length p s : length (dropWhile p s) <= length s.
Proof.
  induction s as [|c s IH]; simpl; [lia|].
  destruct (p c); simpl; lia.
Qed.

Lemma trim_length s : length (trim s) <= length s.
Proof.
  unfold trim, trimEnd, trimStart.
  rewrite length_rev.
  etransitivity; [apply dropWhile_length|].
  rewrite length_rev. apply dropWhile_length.
Qed.

Section ServicesBudget.
Context {engine : Engine}.
Import Services.

Lemma chunk_ok_block buf spk temp :
  chunk_ok buf temp -> within_budget {| speaker := spk; text := trim temp |}.
Proof.
  intros [H|[Hin Hlen]].
  - left. simpl. pose proof (trim_length temp). lia.
  - right. exists buf, temp. auto.
Qed.

Lemma pack_budget buf spk l : forall out temp,
  (forall u, In u l -> In u (sentences true buf)) ->
  Forall within_budget out -> chunk_ok buf temp ->
  Forall within_budget (fst (fold_left (pack spk) l (out, temp))) /\
  chunk_ok buf (snd (fold_left (pack spk) l (out, temp))).
Proof.
  induction l as [|u l IH]; intros out temp Hl Hout Htemp; simpl.
  - split; assumption.
  - destruct (Nat.ltb_spec MAX_CHAR_LIMIT (length (temp ++ u))) as [Hlt|Hle].
    + apply IH.
      * intros v Hv. apply Hl. right. exact Hv.
      * apply Forall_app. split; [assumption|].
        constructor; [|constructor].
        apply (chunk_ok_block buf). exact Htemp.
      * destruct (le_lt_dec (length u) MAX_CHAR_LIMIT) as [H|H].
        -- left. exact H.
        -- right. split; [apply Hl; left; reflexivity|exact H].
    + apply IH.
      * intros v Hv. apply Hl. right. exact Hv.
      * assumption.
      * left. exact Hle.
Qed.

Lemma pushBuffer_budget p :
  Forall within_budget (blocks p) -> Forall within_budget (blocks (pushBuffer p)).
Proof.
  intros Hp. unfold pushBuffer.
  destruct (nonblank (currentBuffer p)); [|assumption].
  destruct (Nat.ltb_spec MAX_CHAR_LIMIT (length (currentBuffer p))) as [Hlt|Hle].
  - destruct (pack_budget (currentBuffer p) (currentSpeaker p)
                (sentences true (currentBuffer p)) (blocks p) []
                (fun u H => H) Hp) as [Hout Htemp].
    { left. simpl. lia. }
    destruct (fold_left _ _ _) as [out temp]. simpl in *.
    destruct (nonblank temp); [|assumption].
    apply Forall_app. split; [assumption|].
    constructor; [|constructor].
    apply (chunk_ok_block (currentBuffer p)). exact Htemp.
  - simpl. apply Forall_app. split; [assumption|].
    constructor; [|constructor].
    left. simpl. pose proof (trim_length (currentBuffer p)). lia.
Qed.

Lemma line_step_budget p line :
  Forall within_budget (blocks p) ->
  Forall within_budget (blocks (line_step p line)).
Proof.
  intros Hp. unfold line_step.
  destruct (match_speaker line) as [[nm rest]|].
  - simpl. apply pushBuffer_budget. exact Hp.
  - destruct (nonblank line); assumption.
Qed.

Lemma lines_budget ls : forall p,
  Forall within_budget (blocks p) ->
  Forall within_budget (blocks (fold_left line_step ls p)).
Proof.
  induction ls as [|l ls IH]; intros p Hp; simpl; [assumption|].
  apply IH. apply line_step_budget. exact Hp.
Qed.

(** The services version keeps the budget on every script (C3 holds of
    it). *)
Lemma services_segments_within_budget text0 b :
  In b (parseDialogueIntoChunks text0) -> within_budget b.
Proof.
  unfold parseDialogueIntoChunks.
  set (p := pushBuffer (fold_left line_step (split_lines text0) _)).
  assert (Hp : Forall within_budget (blocks p)).
  { apply pushBuffer_budget, lines_budget. constructor. }
  destruct (_ && _).
  - intros Hb. eapply Forall_forall; [|exact Hb].
    apply pushBuffer_budget. exact Hp.
  - intros Hb. eapply Forall_forall; [|exact Hb]. exact Hp.
Qed.

End ServicesBudget.

(** C3, on the second pipeline.  The sentences of a long chunk are joined
    with a space that the length test does not count: two sentences of
    1000 and 500 units are packed into one segment of 1501 units, above the
    budget of 1500, although neither sentence exceeds it.  The services
    version packs the same text into a segment of 1500 units. *)
Theorem variant_packs_past_budget {engine : Engine} :
  forall name_ext,
    Variant.parseDialogueIntoChunks name_ext two_sentences_fill
    = [{| Variant.speaker := lit "A";
          Variant.text := (a_run 999 ++ lit ".") ++ lit " "
                         ++ (b_run 499 ++ lit ".") |};
       {| Variant.speaker := lit "A"; Variant.text := lit "c" |}]
    /\ map (fun b => length (Variant.text b))
           (Variant.parseDialogueIntoChunks name_ext two_sentences_fill)
       = [1501; 1]
    /\ Variant.MAX_CHARS = 1500
    /\ map (fun b => length (Services.text b))
           (Services.parseDialogueIntoChunks two_sentences_fill)
       = [1500; 1].
Proof.
  intros name_ext. rewrite segments_any. vm_compute. repeat split.
Qed.

(** C4, on both versions.  A buffer whose first sentence alone exceeds the
    budget makes the splitting loop emit the still empty chunk: the first
    segment has an empty text. *)
Theorem long_sentence_gives_empty_segment {engine : Engine} :
  Services.parseDialogueIntoChunks unbroken
  = [{| Services.speaker := lit "Milton Dilts"; Services.text := [] |};
     {| Services.speaker := lit "Milton Dilts"; Services.text := a_run 1501 |}]
  /\
  forall name_ext,
    Variant.parseDialogueIntoChunks name_ext unbroken
    = [{| Variant.speaker := lit "Milton Dilts"; Variant.text := [] |};
       {| Variant.speaker := lit "Milton Dilts"; Variant.text := a_run 1501 |}].
Proof.
  rewrite segments_any.
  split; [|intros name_ext]; vm_compute; reflexivity.
Qed.

(** The speaker pattern of both versions accepts a name of white space
    only, which leaves an empty speaker once trimmed. *)
Lemma blank_name_gives_empty_speaker {engine : Engine} :
  Services.parseDialogueIntoChunks (lit " : hello")
  = [{| Services.speaker := []; Services.text := lit "hello" |}]
  /\
  forall name_ext,
    Variant.parseDialogueIntoChunks name_ext (lit " : hello")
    = [{| Variant.speaker := []; Variant.text := lit "hello" |}].
Proof.
  rewrite segments_any.
  split; [|intros name_ext]; vm_compute; reflexivity.
Qed.

(** C5, on both versions.  The sentence pattern cannot start on a
    punctuation mark, so in a buffer above the budget the marks that begin
    it are dropped: of a line with an ellipsis and sixteen sentences the
    segments carry the sentences only. *)
Theorem leading_punctuation_is_lost {engine : Engine} :
  squeeze (services_content after_ellipsis)
  = lit "..." ++ concat (repeat short_sentence 16)
  /\ squeeze (concat (map Services.text
                        (Services.parseDialogueIntoChunks after_ellipsis)))
     = concat (repeat short_sentence 16)
  /\ forall name_ext,
       squeeze (variant_content name_ext after_ellipsis)
       = lit "..." ++ concat (repeat short_sentence 16)
       /\ squeeze (concat (map Variant.text
                             (Variant.parseDialogueIntoChunks name_ext
                                after_ellipsis)))
          = concat (repeat short_sentence 16).
Proof.
  rewrite segments_any.
  split; [|split; [|intros name_ext; split]]; vm_compute; reflexivity.
Qed.

(* ===================================================================== *)
(** ** Splitting and joining *)
(* ===================================================================== *)

Lemma split_on_nonempty sep s : Text.split_on sep s <> [].
Proof.
  destruct s as [|c r]; simpl; [discriminate|].
  destruct (c =? sep)%N; [discriminate|].
  destruct (Text.split_on sep r); discriminate.
Qed.

(** Joining the fields of a string with the separator gives the string
    back. *)
Lemma join_split sep s : Text.join sep (Text.split_on sep s) = s.
Proof.
  induction s as [|c r IH]; [reflexivity|]. simpl.
  destruct (N.eqb_spec c sep) as [->|Hne].
  - pose proof (split_on_nonempty sep r) as Hn.
    destruct (Text.split_on sep r) as [|l ls]; [congruence|].
    simpl in *. rewrite IH. reflexivity.
  - destruct (Text.split_on sep r) as [|l ls]; simpl in *.
    + rewrite <- IH. reflexivity.
    + destruct ls; simpl in *; rewrite <- IH; reflexivity.
Qed.

Lemma suffix_refl {A} (s : list A) : suffix_of s s.
Proof. exists []. reflexivity. Qed.

Lemma suffix_trans {A} (a b c : list A) :
  suffix_of a b -> suffix_of b c -> suffix_of a c.
Proof.
  intros [p ->] [q ->]. exists (q ++ p). rewrite app_assoc. reflexivity.
Qed.

Lemma skipn_suffix {A} n (l : list A) : suffix_of (skipn n l) l.
Proof. exists (firstn n l). symmetry. apply firstn_skipn. Qed.

Lemma join_skipn_suffix sep n : forall fields,
  suffix_of (Text.join sep (skipn n fields)) (Text.join sep fields).
Proof.
  induction n as [|n IH]; intros fields; [apply suffix_refl|].
  destruct fields as [|a r]; [apply suffix_refl|].
  simpl skipn. eapply suffix_trans; [apply IH|].
  destruct r as [|b r]; simpl.
  - exists a. rewrite app_nil_r. reflexivity.
  - exists (a ++ [sep]). rewrite <- app_assoc. reflexivity.
Qed.

Lemma slice_last_length {A} k (l : list A) : length (Text.slice_last k l) <= k.
Proof. unfold Text.slice_last. rewrite length_skipn. lia. Qed.

Lemma split_fields_clean sep s :
  Forall (fun f => ~ In sep f) (Text.split_on sep s).
Proof.
  induction s as [|c r IH]; simpl.
  - constructor; [intros []|constructor].
  - destruct (N.eqb_spec c sep) as [->|Hne].
    + constructor; [intros []|exact IH].
    + destruct (Text.split_on sep r) as [|l ls].
      * constructor; [|constructor]. intros [H|[]]. congruence.
      * inversion IH as [|? ? Hl Hls]; subst.
        constructor; [|assumption].
        intros [H|H]; [congruence|contradiction].
Qed.

Lemma count_clean sep f : ~ In sep f -> count_occ N.eq_dec f sep = 0.
Proof. intros H. apply count_occ_not_In. exact H. Qed.

Lemma count_join sep fields :
  Forall (fun f => ~ In sep f) fields ->
  count_occ N.eq_dec (Text.join sep fields) sep = length fields - 1.
Proof.
  induction 1 as [|a r Ha Hr IH]; [reflexivity|].
  destruct r as [|b r].
  - simpl. apply count_clean. exact Ha.
  - change (Text.join sep (a :: b :: r))
      with (a ++ sep :: Text.join sep (b :: r)).
    rewrite count_occ_app, (count_clean _ _ Ha), count_occ_cons_eq by reflexivity.
    rewrite IH. simpl. lia.
Qed.

Lemma count_skipn_le n : forall (l : str) x,
  count_occ N.eq_dec (skipn n l) x <= count_occ N.eq_dec l x.
Proof.
  induction n as [|n IH]; intros l x; [simpl; lia|].
  destruct l as [|c l]; [simpl; lia|].
  simpl skipn. specialize (IH l x). simpl.
  destruct (N.eq_dec c x); lia.
Qed.

Lemma Forall_skipn {A} (P : A -> Prop) n : forall l,
  Forall P l -> Forall P (skipn n l).
Proof.
  induction n as [|n IH]; intros l H; [exact H|].
  destruct l; [exact H|]. inversion H; subst. simpl. apply IH. assumption.
Qed.

(* ===================================================================== *)
(** ** Script generation in batches: the loops *)
(* ===================================================================== *)

Section ServicesBatches.
Import ServicesPrayer.

Variable w : world.
Variables prompt lang : str.
Variables duration n : nat.

Lemma delivered_cons {R} (v : R -> answer) r rest :
  delivered v (r :: rest)
  = match v r with
    | Answers t => Text.text_or t [] ++ [10; 10]%N
    | Fails _ => []
    end ++ delivered v rest.
Proof. reflexivity. Qed.

Lemma batch_loop_step todo i fs pc :
  let req := {| theme := prompt; language := lang; minutes := duration;
                part := i; parts := n;
                focus_of_part := focus_for i n;
                context := pc |} in
  batch_loop w prompt lang duration n (S todo) i fs pc
  = match w req with
    | Answers t =>
        let run := batch_loop w prompt lang duration n todo (S i)
                     (fs ++ Text.text_or t [] ++ [10; 10]%N)
                     (context_of (Text.text_or t [])) in
        (req :: fst run, snd run)
    | Fails e => if i =? 1 then ([req], inl e) else ([req], inr fs)
    end.
Proof.
  simpl. destruct (w _); [reflexivity|].
  destruct (batch_loop _ _ _ _ _ _ _ _ _). reflexivity.
Qed.

(** From the second batch on the loop gives a script: what was answered,
    behind what it started with. *)
Lemma batch_loop_later : forall todo i fs pc,
  2 <= i ->
  snd (batch_loop w prompt lang duration n todo i fs pc)
  = inr (fs ++ delivered w (fst (batch_loop w prompt lang duration n todo i fs pc))).
Proof.
  induction todo as [|todo IH]; intros i fs pc Hi.
  - simpl. rewrite app_nil_r. reflexivity.
  - rewrite batch_loop_step. cbv zeta.
    destruct (w _) as [e|t] eqn:E.
    + destruct (Nat.eqb_spec i 1) as [->|_]; [lia|].
      simpl. rewrite E. rewrite app_nil_r. reflexivity.
    + cbn [fst snd]. rewrite IH by lia.
      rewrite delivered_cons, E, <- !app_assoc. reflexivity.
Qed.

Lemma batch_loop_parts : forall todo i fs pc,
  map part (fst (batch_loop w prompt lang duration n todo i fs pc))
  = seq i (length (fst (batch_loop w prompt lang duration n todo i fs pc)))
  /\ length (fst (batch_loop w prompt lang duration n todo i fs pc)) <= todo.
Proof.
  induction todo as [|todo IH]; intros i fs pc.
  - simpl. split; [reflexivity|lia].
  - rewrite batch_loop_step. cbv zeta.
    destruct (w _) as [e|t].
    + destruct (i =? 1); simpl; split; try reflexivity; lia.
    + cbn [fst snd map length seq].
      destruct (IH (S i) (fs ++ Text.text_or t [] ++ [10; 10]%N)
                   (context_of (Text.text_or t []))) as [H1 H2].
      rewrite H1. split; [reflexivity|lia].
Qed.

Lemma batch_loop_stops : forall todo i fs pc,
  Forall (fun r => answered (w r))
    (removelast (fst (batch_loop w prompt lang duration n todo i fs pc))).
Proof.
  induction todo as [|todo IH]; intros i fs pc.
  - constructor.
  - rewrite batch_loop_step. cbv zeta.
    destruct (w _) as [e|t] eqn:E.
    + destruct (i =? 1); constructor.
    + cbn [fst].
      specialize (IH (S i) (fs ++ Text.text_or t [] ++ [10; 10]%N)
                     (context_of (Text.text_or t []))).
      destruct (fst (batch_loop _ _ _ _ _ _ _ _ _)) as [|r rest] eqn:F.
      * constructor.
      * change (removelast (?a :: r :: rest)) with (a :: removelast (r :: rest)).
        constructor; [|exact IH]. exists t. exact E.
Qed.

Lemma batch_loop_contexts : forall todo i fs pc,
  contexts_chain w pc
    (fst (batch_loop w prompt lang duration n todo i fs pc)).
Proof.
  induction todo as [|todo IH]; intros i fs pc.
  - exact I.
  - rewrite batch_loop_step. cbv zeta.
    destruct (w _) as [e|t] eqn:E.
    + destruct (i =? 1); simpl; auto.
    + cbn [fst contexts_chain]. split; [reflexivity|].
      rewrite E. apply IH.
Qed.

Lemma batch_loop_focus : forall todo i fs pc,
  Forall (fun r => focus_of_part r = focus_for (part r) n)
    (fst (batch_loop w prompt lang duration n todo i fs pc)).
Proof.
  induction todo as [|todo IH]; intros i fs pc.
  - constructor.
  - rewrite batch_loop_step. cbv zeta.
    destruct (w _) as [e|t].
    + destruct (i =? 1); repeat constructor.
    + cbn [fst]. constructor; [reflexivity|apply IH].
Qed.

Lemma batch_loop_full : forall todo i fs pc,
  (forall r, answered (w r)) ->
  length (fst (batch_loop w prompt lang duration n todo i fs pc)) = todo.
Proof.
  induction todo as [|todo IH]; intros i fs pc Hw; [reflexivity|].
  rewrite batch_loop_step. cbv zeta.
  destruct (w _) as [e|t] eqn:E.
  - destruct (Hw {| theme := prompt; language := lang; minutes := duration;
                    part := i; parts := n; focus_of_part := focus_for i n;
                    context := pc |}) as [t Ht].
    congruence.
  - cbn [fst length]. rewrite IH by exact Hw. reflexivity.
Qed.

End ServicesBatches.

Lemma batches_for_zero duration : batches_for duration = 0 <-> duration = 0.
Proof.
  unfold batches_for. split.
  - intros H. apply Nat.div_small_iff in H; lia.
  - intros ->. reflexivity.
Qed.

Lemma batch_loop_first w prompt lang duration n todo :
  let run := ServicesPrayer.batch_loop w prompt lang duration n todo 1 [] [] in
  let req := {| ServicesPrayer.theme := prompt;
                ServicesPrayer.language := lang;
                ServicesPrayer.minutes := duration;
                ServicesPrayer.part := 1;
                ServicesPrayer.parts := n;
                ServicesPrayer.focus_of_part := ServicesPrayer.Introduction;
                ServicesPrayer.context := [] |} in
  (todo = 0 /\ run = ([], inr []))
  \/ (0 < todo /\ exists e, w req = Fails e /\ run = ([req], inl e))
  \/ (0 < todo /\ answered (w req) /\ snd run = inr (delivered w (fst run))).
Proof.
  cbv zeta. destruct todo as [|k].
  - left. split; reflexivity.
  - right. rewrite !batch_loop_step. cbv zeta.
    change (ServicesPrayer.focus_for 1 n) with ServicesPrayer.Introduction.
    destruct (w _) as [e|t] eqn:E.
    + left. split; [lia|]. exists e. split; reflexivity.
    + right. split; [lia|]. split; [exists t; reflexivity|].
      cbn [fst snd]. rewrite batch_loop_later by lia.
      rewrite delivered_cons, E. reflexivity.
Qed.

(** What the first batch decides: with no batch to make the script is
    empty; a first batch that fails is the only request and its error is
    thrown; otherwise the call gives a script. *)
Lemma guided_prayer_cases w prompt lang duration :
  let run := ServicesPrayer.generateGuidedPrayer w prompt lang duration in
  (duration = 0 /\ run = ([], inr []))
  \/ (0 < duration /\
      exists e, w (opening_request prompt lang duration) = Fails e /\
                run = ([opening_request prompt lang duration], inl e))
  \/ (0 < duration /\
      answered (w (opening_request prompt lang duration)) /\
      snd run = inr (delivered w (fst run))).
Proof.
  cbv zeta. unfold ServicesPrayer.generateGuidedPrayer. cbv zeta.
  pose proof (batches_for_zero duration) as Hz.
  destruct (batch_loop_first w prompt lang duration (batches_for duration)
              (batches_for duration)) as [[H0 H]|[[Hp H]|[Hp H]]].
  - left. split; [apply Hz; exact H0|exact H].
  - right. left. split; [|exact H].
    destruct duration; [simpl in Hp|]; lia.
  - right. right. split; [|exact H].
    destruct duration; [simpl in Hp|]; lia.
Qed.

Lemma contexts_chain_bounded w (P : str -> Prop) :
  (forall t, P (ServicesPrayer.context_of t)) ->
  forall asked c, P c -> contexts_chain w c asked ->
  Forall (fun r => P (ServicesPrayer.context r)) asked.
Proof.
  intros HP. induction asked as [|r rest IH]; intros c Hc H.
  - constructor.
  - destruct H as [Hr Hrest]. constructor.
    + rewrite Hr. exact Hc.
    + eapply IH; [|exact Hrest]. apply HP.
Qed.

(** The last three sentences of a text, joined again, end the text and
    hold at most two full stops. *)
Lemma last_sentences text :
  let kept := Text.join 46 (Text.slice_last 3 (Text.split_on 46 text)) in
  suffix_of kept text /\ count_occ N.eq_dec kept 46%N <= 2.
Proof.
  cbv zeta. set (last3 := Text.slice_last 3 (Text.split_on 46 text)). split.
  - rewrite <- (join_split 46 text). unfold last3, Text.slice_last.
    apply join_skipn_suffix.
  - rewrite count_join.
    + pose proof (slice_last_length 3 (Text.split_on 46 text)) as H.
      change (@length (list N) last3 <= 3) in H. lia.
    + apply Forall_skipn. apply split_fields_clean.
Qed.

Lemma context_of_short text :
  length (ServicesPrayer.context_of text) <= 500 /\
  count_occ N.eq_dec (ServicesPrayer.context_of text) 46%N <= 2.
Proof.
  destruct (last_sentences text) as [_ Hc]. cbv zeta in Hc.
  unfold ServicesPrayer.context_of.
  destruct (Nat.ltb_spec 500
              (length (Text.join 46
                         (Text.slice_last 3 (Text.split_on 46 text)))))
    as [Hlt|Hle].
  - split; [apply slice_last_length|].
    etransitivity; [apply count_skipn_le|exact Hc].
  - split; assumption.
Qed.

Lemma join_app sep (l1 l2 : list str) :
  l1 <> [] -> l2 <> [] ->
  Text.join sep (l1 ++ l2) = Text.join sep l1 ++ sep :: Text.join sep l2.
Proof.
  induction l1 as [|a r IH]; intros H1 H2; [congruence|].
  destruct r as [|b r].
  - destruct l2 as [|c l2]; [congruence|]. reflexivity.
  - change (Text.join sep ((a :: b :: r) ++ l2))
      with (a ++ sep :: Text.join sep ((b :: r) ++ l2)).
    rewrite IH by (assumption || discriminate).
    change (Text.join sep (a :: b :: r))
      with (a ++ sep :: Text.join sep (b :: r)).
    rewrite <- app_assoc. reflexivity.
Qed.

(** Behind the part of the text that the last three sentences leave out
    comes a full stop: a longer end piece of the text holds three. *)
Lemma last_sentences_longest text s :
  suffix_of s text ->
  count_occ N.eq_dec s 46%N <= 2 ->
  length s <= length (Text.join 46 (Text.slice_last 3 (Text.split_on 46 text))).
Proof.
  intros [pre Hs] Hc.
  set (fields := Text.split_on 46 text).
  pose proof (join_split 46 text) as Hj. fold fields in Hj.
  pose proof (split_fields_clean 46 text) as Hclean. fold fields in Hclean.
  unfold Text.slice_last.
  destruct (Nat.le_gt_cases (length fields) 3) as [Hle|Hgt].
  - replace (length fields - 3) with 0 by lia. simpl skipn.
    rewrite Hj, Hs, length_app. lia.
  - set (k := length fields - 3).
    assert (Hlast : length (skipn k fields) = 3)
      by (rewrite length_skipn; unfold k; lia).
    assert (Hfirst : length (firstn k fields) = k)
      by (apply firstn_length_le; unfold k; lia).
    assert (Hsplit : text = (Text.join 46 (firstn k fields) ++ [46%N])
                            ++ Text.join 46 (skipn k fields)).
    { rewrite <- Hj at 1. rewrite <- (firstn_skipn k fields) at 1.
      rewrite join_app.
      - rewrite <- app_assoc. reflexivity.
      - intros K. rewrite K in Hfirst. simpl in Hfirst. unfold k in Hfirst. lia.
      - intros K. rewrite K in Hlast. discriminate. }
    assert (Hkept : count_occ N.eq_dec (Text.join 46 (skipn k fields)) 46%N = 2).
    { rewrite count_join by (apply Forall_skipn; exact Hclean).
      transitivity (3 - 1); [f_equal; exact Hlast|reflexivity]. }
    set (kept := Text.join 46 (skipn k fields)) in *.
    rewrite Hs in Hsplit.
    apply app_eq_app in Hsplit.
    destruct Hsplit as (l & [[_ Hk]|[Hp Hl]]).
    + rewrite Hk, length_app. lia.
    + destruct l as [|c l] using rev_ind; [rewrite Hl; simpl; lia|].
      exfalso. rewrite app_assoc in Hp.
      apply app_inj_tail in Hp. destruct Hp as [_ Hx]. subst c.
      rewrite Hl, !count_occ_app, Hkept in Hc. simpl in Hc. lia.
Qed.

(** X1.  The context kept for the next batch is the longest end piece of
    the text of the batch that has at most 500 code units and at most two
    full stops: the last three sentences, cut to their last 500 units. *)
Theorem context_is_bounded_suffix :
  forall text,
    suffix_of (ServicesPrayer.context_of text) text /\
    length (ServicesPrayer.context_of text) <= 500 /\
    count_occ N.eq_dec (ServicesPrayer.context_of text) 46%N <= 2 /\
    forall s,
      suffix_of s text -> length s <= 500 ->
      count_occ N.eq_dec s 46%N <= 2 ->
      length s <= length (ServicesPrayer.context_of text).
Proof.
  intros text.
  destruct (context_of_short text) as [Hlen Hcount].
  split; [|split; [exact Hlen|split; [exact Hcount|]]].
  - destruct (last_sentences text) as [Hs _]. cbv zeta in Hs.
    unfold ServicesPrayer.context_of.
    destruct (500 <? length _).
    + eapply suffix_trans; [apply skipn_suffix|exact Hs].
    + exact Hs.
  - intros s Hs Hl Hc.
    pose proof (last_sentences_longest text s Hs Hc) as Hk.
    unfold ServicesPrayer.context_of.
    set (kept := Text.join 46 (Text.slice_last 3 (Text.split_on 46 text)))
      in *.
    destruct (Nat.ltb_spec 500 (length kept)) as [Hlt|Hle]; [|exact Hk].
    unfold Text.slice_last. rewrite length_skipn. lia.
Qed.

(** X2.  The guided prayer of the services file throws exactly when its
    first batch fails: the error thrown is the one of the first request,
    which is then the only request made. *)
Theorem guided_prayer_throws_iff_first_batch_fails :
  forall w prompt lang duration e,
    let run := ServicesPrayer.generateGuidedPrayer w prompt lang duration in
    let first := opening_request prompt lang duration in
    (snd run = inl e <-> run = ([first], inl e)) /\
    (run = ([first], inl e) <-> 0 < duration /\ w first = Fails e).
Proof.
  intros w prompt lang duration e. cbv zeta.
  destruct (guided_prayer_cases w prompt lang duration)
    as [[H0 H]|[[Hp [e' [He H]]]|[Hp [[t Ht] H]]]];
    cbv zeta in H.
  - rewrite H. split; split; intros K; try discriminate. lia.
  - rewrite H. simpl. split; split; intros K.
    + congruence.
    + congruence.
    + split; [exact Hp|]. congruence.
    + destruct K as [_ K]. congruence.
  - split; split; intros K.
    + congruence.
    + rewrite K in H. discriminate.
    + rewrite K in H. discriminate.
    + destruct K as [_ K]. congruence.
Qed.

(** X3.  When the guided prayer of the services file returns, the script
    is the texts answered, in order, each followed by an empty line.  The
    requests are numbered from 1 without a gap, there are at most
    ceil(duration / 7) of them, and every request but the last one made was
    answered: the loop stops at the first failure. *)
Theorem guided_prayer_script_is_what_was_answered :
  forall w prompt lang duration,
    let run := ServicesPrayer.generateGuidedPrayer w prompt lang duration in
    (snd run = inr (delivered w (fst run))
     \/ exists e, run = ([opening_request prompt lang duration], inl e)) /\
    map ServicesPrayer.part (fst run) = seq 1 (length (fst run)) /\
    length (fst run) <= batches_for duration /\
    Forall (fun r => answered (w r)) (removelast (fst run)).
Proof.
  intros w prompt lang duration. cbv zeta. split; [|split; [|split]].
  - destruct (guided_prayer_cases w prompt lang duration)
      as [[H0 H]|[[Hp [e' [He H]]]|[Hp [_ H]]]]; cbv zeta in H.
    + left. rewrite H. reflexivity.
    + right. exists e'. exact H.
    + left. exact H.
  - apply batch_loop_parts.
  - apply batch_loop_parts.
  - apply batch_loop_stops.
Qed.

(** X4.  Every batch of the guided prayer of the services file is asked
    with the context drawn from the answer to the batch before it (the
    first one with none), and no request carries a context of more than
    500 code units or with more than two full stops. *)
Theorem guided_prayer_contexts_are_chained :
  forall w prompt lang duration,
    let asked :=
      fst (ServicesPrayer.generateGuidedPrayer w prompt lang duration) in
    contexts_chain w [] asked /\
    Forall (fun r => length (ServicesPrayer.context r) <= 500 /\
                     count_occ N.eq_dec (ServicesPrayer.context r) 46%N <= 2)
           asked.
Proof.
  intros w prompt lang duration. cbv zeta.
  assert (H : contexts_chain w []
                (fst (ServicesPrayer.generateGuidedPrayer w prompt lang duration)))
    by apply batch_loop_contexts.
  split; [exact H|].
  eapply (contexts_chain_bounded w
            (fun c => length c <= 500 /\ count_occ N.eq_dec c 46%N <= 2));
    [|split|exact H].
  - intros t. apply context_of_short.
  - simpl. lia.
  - simpl. lia.
Qed.

(** X5.  Where the service answers every request the guided prayer of the
    services file makes exactly ceil(duration / 7) requests and returns
    the script of all of them. *)
Theorem guided_prayer_completes_when_answered :
  forall w prompt lang duration,
    (forall r, answered (w r)) ->
    let run := ServicesPrayer.generateGuidedPrayer w prompt lang duration in
    length (fst run) = batches_for duration /\
    snd run = inr (delivered w (fst run)).
Proof.
  intros w prompt lang duration Hw. cbv zeta. split.
  - apply batch_loop_full. exact Hw.
  - destruct (guided_prayer_cases w prompt lang duration)
      as [[H0 H]|[[Hp [e' [He H]]]|[Hp [_ H]]]]; cbv zeta in H.
    + rewrite H. reflexivity.
    + destruct (Hw (opening_request prompt lang duration)) as [t Ht].
      congruence.
    + exact H.
Qed.

Lemma guided_prayer_completes_when_answered_witness :
  (forall r, answered (two_sentence_service r)) /\
  length (fst (ServicesPrayer.generateGuidedPrayer two_sentence_service
                 (lit "peace") (lit "en") 10)) = 2.
Proof.
  assert (H : forall r, answered (two_sentence_service r)).
  { intros r. eexists. reflexivity. }
  split; [exact H|].
  exact (proj1 (guided_prayer_completes_when_answered two_sentence_service
                  (lit "peace") (lit "en") 10 H)).
Defined.

(** X6.  A guided prayer of at most seven minutes makes at most one
    request, and that request is asked for the introduction, never for the
    closing of the session. *)
Theorem short_session_is_never_asked_to_close :
  forall w prompt lang duration,
    duration <= 7 ->
    let asked :=
      fst (ServicesPrayer.generateGuidedPrayer w prompt lang duration) in
    length asked <= 1 /\
    Forall (fun r => ServicesPrayer.focus_of_part r = ServicesPrayer.Introduction)
           asked.
Proof.
  intros w prompt lang duration Hd. cbv zeta.
  assert (Hb : batches_for duration <= 1).
  { unfold batches_for.
    assert ((duration + 6) / 7 < 2); [|lia].
    apply Nat.Div0.div_lt_upper_bound. lia. }
  pose proof (batch_loop_parts w prompt lang duration (batches_for duration)
                (batches_for duration) 1 [] []) as [Hparts Hlen].
  pose proof (batch_loop_focus w prompt lang duration (batches_for duration)
                (batches_for duration) 1 [] []) as Hfocus.
  unfold ServicesPrayer.generateGuidedPrayer. cbv zeta.
  destruct (fst (ServicesPrayer.batch_loop _ _ _ _ _ _ _ _ _)) as [|r rest].
  - split; [simpl; lia|constructor].
  - destruct rest as [|r' rest]; [|simpl in Hlen; lia].
    split; [simpl; lia|].
    constructor; [|constructor].
    inversion Hfocus as [|? ? Hr _]; subst.
    simpl in Hparts. injection Hparts as Hp.
    rewrite Hr, Hp. reflexivity.
Qed.

Lemma short_session_is_never_asked_to_close_witness :
  5 <= 7 /\
  length (fst (ServicesPrayer.generateGuidedPrayer two_sentence_service
                 (lit "peace") (lit "en") 5)) <= 1.
Proof.
  split; [lia|].
  exact (proj1 (short_session_is_never_asked_to_close two_sentence_service
                  (lit "peace") (lit "en") 5 ltac:(lia))).
Defined.

Section VariantBlocks.
Import VariantPrayer.

Variable w : world.
Variables prompt lang : str.
Variable n : nat.

Lemma block_loop_step todo i fp lc :
  let req := {| theme := prompt;
                thread := Text.or_else prompt (lit "Divine Connection");
                target := targetLang lang;
                part := i + 1; parts := n;
                isFirst := i =? 0;
                isLast := i =? n - 1;
                context := if i =? 0 then None
                           else Some (Text.slice_last 300 lc) |} in
  block_loop w prompt lang n (S todo) i fp lc
  = match w req with
    | Answers t =>
        let run := block_loop w prompt lang n todo (S i)
                     (fp ++ Text.text_or t [] ++ [10; 10]%N)
                     (Text.text_or t []) in
        (req :: fst run, snd run)
    | Fails _ => ([req], fp)
    end.
Proof.
  simpl. destruct (w _); [reflexivity|].
  destruct (block_loop _ _ _ _ _ _ _ _). reflexivity.
Qed.

Lemma block_loop_prayer : forall todo i fp lc,
  snd (block_loop w prompt lang n todo i fp lc)
  = fp ++ delivered w (fst (block_loop w prompt lang n todo i fp lc)).
Proof.
  induction todo as [|todo IH]; intros i fp lc.
  - simpl. rewrite app_nil_r. reflexivity.
  - rewrite block_loop_step. cbv zeta.
    destruct (w _) as [e|t] eqn:E.
    + simpl. rewrite E, app_nil_r. reflexivity.
    + cbn [fst snd]. rewrite IH.
      rewrite delivered_cons, E, <- !app_assoc. reflexivity.
Qed.

Lemma block_loop_parts : forall todo i fp lc,
  map part (fst (block_loop w prompt lang n todo i fp lc))
  = seq (i + 1) (length (fst (block_loop w prompt lang n todo i fp lc)))
  /\ length (fst (block_loop w prompt lang n todo i fp lc)) <= todo.
Proof.
  induction todo as [|todo IH]; intros i fp lc.
  - simpl. split; [reflexivity|lia].
  - rewrite block_loop_step. cbv zeta.
    destruct (w _) as [e|t].
    + simpl. split; [reflexivity|lia].
    + cbn [fst snd map length seq].
      destruct (IH (S i) (fp ++ Text.text_or t [] ++ [10; 10]%N)
                   (Text.text_or t [])) as [H1 H2].
      rewrite H1. split; [reflexivity|lia].
Qed.

Lemma block_loop_stops : forall todo i fp lc,
  Forall (fun r => answered (w r))
    (removelast (fst (block_loop w prompt lang n todo i fp lc))).
Proof.
  induction todo as [|todo IH]; intros i fp lc.
  - constructor.
  - rewrite block_loop_step. cbv zeta.
    destruct (w _) as [e|t] eqn:E.
    + constructor.
    + cbn [fst].
      specialize (IH (S i) (fp ++ Text.text_or t [] ++ [10; 10]%N)
                     (Text.text_or t [])).
      destruct (fst (block_loop _ _ _ _ _ _ _ _)) as [|r rest] eqn:F.
      * constructor.
      * change (removelast (?a :: r :: rest)) with (a :: removelast (r :: rest)).
        constructor; [|exact IH]. exists t. exact E.
Qed.

Lemma block_loop_contexts : forall todo i fp lc,
  variant_contexts w (if i =? 0 then None else Some (Text.slice_last 300 lc))
    (fst (block_loop w prompt lang n todo i fp lc)).
Proof.
  induction todo as [|todo IH]; intros i fp lc.
  - exact I.
  - rewrite block_loop_step. cbv zeta.
    destruct (w _) as [e|t] eqn:E.
    + simpl. auto.
    + cbn [fst variant_contexts]. split; [reflexivity|].
      rewrite E. apply (IH (S i)).
Qed.

Lemma block_loop_flags : forall todo i fp lc,
  i + todo = n ->
  Forall (fun r => isFirst r = (part r =? 1) /\
                   isLast r = (part r =? parts r))
    (fst (block_loop w prompt lang n todo i fp lc)).
Proof.
  induction todo as [|todo IH]; intros i fp lc Hn.
  - constructor.
  - assert (Hflags : (i =? 0) = (i + 1 =? 1) /\ (i =? n - 1) = (i + 1 =? n)).
    { split.
      - destruct (Nat.eqb_spec i 0), (Nat.eqb_spec (i + 1) 1); try reflexivity; lia.
      - destruct (Nat.eqb_spec i (n - 1)), (Nat.eqb_spec (i + 1) n);
          try reflexivity; lia. }
    rewrite block_loop_step. cbv zeta.
    destruct (w _) as [e|t].
    + constructor; [exact Hflags|constructor].
    + cbn [fst]. constructor; [exact Hflags|].
      apply IH. lia.
Qed.

End VariantBlocks.

(** X7.  The guided prayer of the second file never throws: it returns
    the texts answered, in order, each followed by an empty line, and stops
    asking at the first failure.  Its requests are numbered from 1, at most
    ceil(duration / 7) of them; the first one is flagged as the first
    block and the one numbered with the number of blocks as the last. *)
Theorem variant_prayer_is_what_was_answered :
  forall w prompt lang duration,
    let run := VariantPrayer.generateGuidedPrayer w prompt lang duration in
    snd run = delivered w (fst run) /\
    map VariantPrayer.part (fst run) = seq 1 (length (fst run)) /\
    length (fst run) <= batches_for duration /\
    Forall (fun r => answered (w r)) (removelast (fst run)) /\
    Forall (fun r =>
              VariantPrayer.isFirst r = (VariantPrayer.part r =? 1) /\
              VariantPrayer.isLast r
              = (VariantPrayer.part r =? VariantPrayer.parts r))
           (fst run).
Proof.
  intros w prompt lang duration. cbv zeta.
  unfold VariantPrayer.generateGuidedPrayer. cbv zeta.
  split; [|split; [|split; [|split]]].
  - rewrite block_loop_prayer. reflexivity.
  - apply (block_loop_parts w prompt lang (batches_for duration)
             (batches_for duration) 0 [] []).
  - apply block_loop_parts.
  - apply block_loop_stops.
  - apply block_loop_flags. reflexivity.
Qed.

(** X8.  In the second file the first block is asked without a context,
    and every later block with the last 300 code units of the text
    answered to the block before it. *)
Theorem variant_prayer_contexts_are_chained :
  forall w prompt lang duration,
    variant_contexts w None
      (fst (VariantPrayer.generateGuidedPrayer w prompt lang duration)).
Proof.
  intros w prompt lang duration.
  apply (block_loop_contexts w prompt lang (batches_for duration)
           (batches_for duration) 0 [] []).
Qed.

(** X9.  The two short prayers differ on a failure and on the end of the
    text.  The one of the services file makes its own request and throws
    the error of the service, or returns the text as it is; the one of the
    second file is a guided prayer of one block, flagged both first and
    last: it returns the empty string on a failure, and the text followed
    by an empty line otherwise. *)
Theorem short_prayers_compared :
  forall (a : answer) prompt lang,
    ServicesPrayer.generateShortPrayer (fun _ => a) prompt lang
    = match a with
      | Fails e => inl e
      | Answers t => inr (Text.text_or t [])
      end /\
    VariantPrayer.generateShortPrayer (fun _ => a) prompt lang
    = ([short_block prompt lang],
       match a with
       | Fails _ => []
       | Answers t => Text.text_or t [] ++ [10; 10]%N
       end).
Proof.
  intros a prompt lang. split.
  - unfold ServicesPrayer.generateShortPrayer. destruct a; reflexivity.
  - unfold VariantPrayer.generateShortPrayer,
      VariantPrayer.generateGuidedPrayer.
    change (batches_for 5) with 1. cbv zeta.
    rewrite block_loop_step. cbv zeta.
    destruct a; reflexivity.
Qed.

(* ===================================================================== *)
(** ** Images, videos and image analysis *)
(* ===================================================================== *)

Section Videos.
Import Media ServicesMedia.

Variable w : world.

Lemma polling_reaches (ops : nat -> operation) n : forall m fuel k,
  k + m = n ->
  (forall j, j < n ->
     done (ops j) = false /\ getVideosOperation w j (ops j) = inr (ops (S j))) ->
  done (ops n) = true ->
  m <= fuel ->
  polling w fuel k (ops k) = Some (n, inr (ops n)).
Proof.
  induction m as [|m IH]; intros fuel k Hk Hops Hdone Hfuel.
  - assert (k = n) by lia. subst k.
    destruct fuel; simpl; rewrite Hdone; reflexivity.
  - destruct fuel as [|fuel]; [lia|].
    destruct (Hops k) as [Hnot Hnext]; [lia|].
    simpl. rewrite Hnot, Hnext.
    apply IH; try assumption; lia.
Qed.

Lemma polling_stuck : forall fuel k op,
  done op = false ->
  (forall j o, exists o', getVideosOperation w j o = inr o' /\ done o' = false) ->
  polling w fuel k op = None.
Proof.
  induction fuel as [|fuel IH]; intros k op Hop Hw.
  - simpl. rewrite Hop. reflexivity.
  - simpl. rewrite Hop.
    destruct (Hw k op) as [o' [Ho' Hd]]. rewrite Ho'.
    apply IH; assumption.
Qed.

End Videos.

(** X10.  Video generation polls until the operation is done and not
    beyond it: where the operation is done after n polls, every run that is
    given the time for n polls makes exactly n and ends on that state.  The
    services file then returns its URI and throws where there is none or an
    empty one; the second file returns the URI, or the empty string. *)
Theorem video_is_polled_until_done :
  forall w prompt aspectRatio ops n fuel,
    done_at w prompt aspectRatio ops n ->
    n <= fuel ->
    ServicesMedia.generateVideo w fuel prompt aspectRatio
    = Some (n, match Media.uri (ops n) with
               | Some (c :: u) => inr (c :: u)
               | _ => inl (Media.Raised
                             (lit "Video generation failed to return URI"))
               end) /\
    VariantMedia.generateVideo w fuel prompt aspectRatio
    = Some (n, inr (Text.text_or (Media.uri (ops n)) [])).
Proof.
  intros w prompt aspectRatio ops n fuel [Hstart [Hops Hdone]] Hfuel.
  unfold ServicesMedia.generateVideo, VariantMedia.generateVideo.
  rewrite Hstart.
  rewrite (polling_reaches w ops n n fuel 0) by (assumption || lia).
  split; [|reflexivity].
  destruct (Media.uri (ops n)) as [[|c u]|]; reflexivity.
Qed.

Lemma video_service_done_at u :
  done_at (video_service u) [] [] (fun k => third_poll k u) 3.
Proof.
  split; [reflexivity|]. split; [|reflexivity].
  intros k Hk. split; [|reflexivity].
  destruct k as [|[|[|k]]]; [reflexivity..|lia].
Defined.

Lemma video_is_polled_until_done_witness :
  ServicesMedia.generateVideo (video_service None) 5 [] []
  = Some (3, inl (Media.Raised (lit "Video generation failed to return URI")))
  /\ VariantMedia.generateVideo (video_service None) 5 [] [] = Some (3, inr []).
Proof.
  exact (video_is_polled_until_done (video_service None) [] []
           (fun k => third_poll k None) 3 5
           (video_service_done_at None) ltac:(lia)).
Defined.

(** X11.  The polling loop has no bound of its own: with a service whose
    operation is never done, neither video generation returns, however
    many polls it is given the time for. *)
Theorem video_polling_has_no_timeout :
  forall w prompt aspectRatio op fuel,
    ServicesMedia.generateVideos w prompt aspectRatio = inr op ->
    Media.done op = false ->
    (forall j o, exists o',
        ServicesMedia.getVideosOperation w j o = inr o' /\
        Media.done o' = false) ->
    ServicesMedia.generateVideo w fuel prompt aspectRatio = None /\
    VariantMedia.generateVideo w fuel prompt aspectRatio = None.
Proof.
  intros w prompt aspectRatio op fuel Hstart Hop Hw.
  unfold ServicesMedia.generateVideo, VariantMedia.generateVideo.
  rewrite Hstart, (polling_stuck w fuel 0 op Hop Hw).
  split; reflexivity.
Qed.

Lemma video_polling_has_no_timeout_witness :
  ServicesMedia.generateVideo stuck_service 1000 [] [] = None /\
  VariantMedia.generateVideo stuck_service 1000 [] [] = None.
Proof.
  apply (video_polling_has_no_timeout stuck_service [] []
           {| Media.done := false; Media.uri := None |} 1000).
  - reflexivity.
  - reflexivity.
  - intros j o. eexists. split; reflexivity.
Defined.


Lemma first_inline_cases parts :
  (Media.first_inline parts = None /\ Forall (fun p => p = Media.Plain) parts)
  \/ exists pre d post,
       parts = pre ++ Media.Inline d :: post /\
       Forall (fun p => p = Media.Plain) pre /\
       Media.first_inline parts = Some d.
Proof.
  induction parts as [|p parts IH].
  - left. split; [reflexivity|constructor].
  - destruct p as [d|].
    + right. exists [], d, parts. repeat split. constructor.
    + destruct IH as [[Hn Hall]|(pre & d & post & -> & Hpre & Hf)].
      * left. split; [exact Hn|]. constructor; [reflexivity|exact Hall].
      * right. exists (Media.Plain :: pre), d, post.
        repeat split; [constructor; [reflexivity|exact Hpre]|exact Hf].
Qed.

(** X12.  With a model that is not an imagen model, image generation
    returns the data of the first part of the response that carries inline
    data, whatever parts without it come before; where no part carries
    any, it throws its own error and not one of the service. *)
Theorem image_is_first_inline_part :
  forall w prompt aspectRatio modelName parts,
    includes modelName (lit "imagen") = false ->
    ServicesMedia.generateContent w modelName prompt aspectRatio
    = inr (Some parts) ->
    (Forall (fun p => p = Media.Plain) parts /\
     ServicesMedia.generateImageFromPrayer w prompt aspectRatio modelName
     = inl (Media.Raised (lit "No image data found in response")))
    \/ exists pre d post,
         parts = pre ++ Media.Inline d :: post /\
         Forall (fun p => p = Media.Plain) pre /\
         ServicesMedia.generateImageFromPrayer w prompt aspectRatio modelName
         = inr d.
Proof.
  intros w prompt aspectRatio modelName parts Hm Hc.
  unfold ServicesMedia.generateImageFromPrayer. rewrite Hm, Hc.
  destruct (first_inline_cases parts)
    as [[Hn Hall]|(pre & d & post & Hparts & Hpre & Hf)].
  - left. rewrite Hn. split; [exact Hall|reflexivity].
  - right. exists pre, d, post. rewrite Hf. repeat split; assumption.
Qed.

Lemma image_is_first_inline_part_witness :
  exists pre d post,
    [Media.Plain; Media.Inline (Some (lit "AAAA"));
     Media.Inline (Some (lit "BBBB"))] = pre ++ Media.Inline d :: post /\
    Forall (fun p => p = Media.Plain) pre /\
    ServicesMedia.generateImageFromPrayer image_service (lit "dawn")
      (lit "16:9") (lit "gemini-2.5-flash-image") = inr d.
Proof.
  destruct (image_is_first_inline_part image_service (lit "dawn") (lit "16:9")
              (lit "gemini-2.5-flash-image")
              [Media.Plain; Media.Inline (Some (lit "AAAA"));
               Media.Inline (Some (lit "BBBB"))]
              eq_refl eq_refl) as [[Hall H]|H].
  - discriminate H.
  - exact H.
Defined.

Lemma split_on_clean sep s : ~ In sep s -> Text.split_on sep s = [s].
Proof.
  induction s as [|c r IH]; intros H; [reflexivity|].
  simpl. destruct (N.eqb_spec c sep) as [->|Hne].
  - exfalso. apply H. left. reflexivity.
  - rewrite IH; [reflexivity|]. intros K. apply H. right. exact K.
Qed.

Lemma split_on_first sep h p :
  ~ In sep h ->
  Text.split_on sep (h ++ sep :: p) = h :: Text.split_on sep p.
Proof.
  induction h as [|c r IH]; intros H.
  - simpl. rewrite N.eqb_refl. reflexivity.
  - simpl. destruct (N.eqb_spec c sep) as [->|Hne].
    + exfalso. apply H. left. reflexivity.
    + rewrite IH; [reflexivity|]. intros K. apply H. right. exact K.
Qed.

Lemma split_on_head sep p :
  nth_error (Text.split_on sep p) 0
  = Some (takeWhile (fun c => negb (c =? sep)%N) p).
Proof.
  induction p as [|c r IH]; [reflexivity|].
  simpl. destruct (c =? sep)%N; simpl; [reflexivity|].
  destruct (Text.split_on sep r) as [|l ls]; simpl in *; [discriminate|].
  congruence.
Qed.

(** X13.  The image data sent for analysis is what stands in the data URL
    between its first comma and the next one (or the end): a URL with
    several commas is cut at the second, and a URL without a comma gives
    no data at all, which is sent as it is. *)
Theorem analysis_data_is_second_field :
  forall fileType prompt lang h p,
    ~ In 44%N h ->
    ServicesMedia.data
      (ServicesMedia.analysis_request fileType (h ++ 44%N :: p) prompt lang)
    = Some (takeWhile (fun c => negb (is_comma c)) p) /\
    ServicesMedia.data (ServicesMedia.analysis_request fileType h prompt lang)
    = None.
Proof.
  intros fileType prompt lang h p Hh.
  unfold ServicesMedia.analysis_request, ServicesMedia.data,
    Media.second_field.
  rewrite (split_on_first 44 h p Hh), (split_on_clean 44 h Hh).
  split; [|reflexivity].
  apply (split_on_head 44 p).
Qed.

Lemma analysis_data_is_second_field_witness :
  ServicesMedia.data
    (ServicesMedia.analysis_request (lit "image/png")
       (lit "data:image/png;base64" ++ 44%N :: lit "iVBOR,w0KGgo") [] (lit "en"))
  = Some (lit "iVBOR").
Proof.
  refine (proj1 (analysis_data_is_second_field (lit "image/png") []
                   (lit "en") (lit "data:image/png;base64")
                   (lit "iVBOR,w0KGgo") _)).
  vm_compute. intros H.
  repeat (destruct H as [H|H]; [discriminate H|]). exact H.
Defined.

(* ===================================================================== *)
(** ** What the sentence splitting keeps *)
(* ===================================================================== *)

Lemma take_drop p s : takeWhile p s ++ dropWhile p s = s.
Proof.
  induction s as [|c r IH]; [reflexivity|].
  simpl. destruct (p c); simpl; [rewrite IH|]; reflexivity.
Qed.

Lemma dropWhile_head p s c r : dropWhile p s = c :: r -> p c = false.
Proof.
  induction s as [|a s IH]; simpl; [discriminate|].
  destruct (p a) eqn:E; [exact IH|].
  intros H. injection H as <- _. exact E.
Qed.

Lemma match_all_skip q : forall s k,
  match_all q k s = match_all q 0 (skipn k s).
Proof.
  induction s as [|c r IH]; intros k.
  - destruct k; reflexivity.
  - destruct k as [|k]; [reflexivity|]. simpl. apply IH.
Qed.

(** A match is a non-empty prefix; what follows a match of the pattern
    without the quote is empty or begins with a unit that is no
    terminator. *)
Lemma sentence_at_prefix q s m :
  sentence_at q s = Some m ->
  exists c m' rest, m = c :: m' /\ s = m ++ rest /\
    (q = false -> match rest with [] => True | d :: _ => is_term d = false end).
Proof.
  unfold sentence_at.
  pose proof (take_drop not_term s) as Hs.
  destruct (takeWhile not_term s) as [|c body] eqn:Eb; [discriminate|].
  destruct (dropWhile not_term s) as [|d r1] eqn:Er.
  - intros H. injection H as <-. exists c, body, [].
    repeat split. rewrite app_nil_r in *. symmetry. exact Hs.
  - pose proof (take_drop is_term (d :: r1)) as Hm.
    set (marks := takeWhile is_term (d :: r1)) in *.
    destruct (dropWhile is_term (d :: r1)) as [|x rest] eqn:Ed.
    + intros H. injection H as <-.
      exists c, (body ++ marks), [].
      repeat split. rewrite app_nil_r in *. rewrite Hm. symmetry. exact Hs.
    + pose proof (dropWhile_head _ _ _ _ Ed) as Hx.
      destruct (q && is_quote x) eqn:Eq; intros H; injection H as <-.
      * exists c, (body ++ marks ++ [x]), rest.
        split; [reflexivity|]. split.
        -- rewrite <- Hs, <- Hm. cbn [app]. rewrite <- ?app_assoc.
           reflexivity.
        -- intros ->. discriminate Eq.
      * exists c, (body ++ marks), (x :: rest).
        split; [reflexivity|]. split.
        -- rewrite <- Hs, <- Hm. cbn [app]. rewrite <- ?app_assoc.
           reflexivity.
        -- intros _. exact Hx.
Qed.

Lemma sentence_at_none q c r : sentence_at q (c :: r) = None -> is_term c = true.
Proof.
  unfold sentence_at, not_term. simpl.
  destruct (is_term c); [reflexivity|]. simpl.
  destruct (dropWhile _ r) as [|d r1]; [discriminate|].
  destruct (dropWhile is_term (d :: r1)) as [|x rest]; [discriminate|].
  destruct (q && is_quote x); discriminate.
Qed.

Lemma sentence_at_some q c r :
  is_term c = false -> sentence_at q (c :: r) <> None.
Proof.
  intros Hc H. apply sentence_at_none in H. congruence.
Qed.

(** One step of the global match on a non-empty string. *)
Lemma match_all_cons q c r :
  match_all q 0 (c :: r)
  = match sentence_at q (c :: r) with
    | Some m => m :: match_all q 0 (skipn (length m) (c :: r))
    | None => match_all q 0 r
    end.
Proof.
  simpl match_all.
  destruct (sentence_at q (c :: r)) as [m|] eqn:E; [|reflexivity].
  destruct (sentence_at_prefix q _ m E) as (a & m' & rest & -> & Hs & _).
  rewrite match_all_skip. cbn [length skipn Nat.sub].
  rewrite ?Nat.sub_0_r. reflexivity.
Qed.

Lemma skipn_prefix {A} (m rest : list A) : skipn (length m) (m ++ rest) = rest.
Proof. induction m; simpl; auto. Qed.

Lemma match_all_keeps q : forall n s,
  length s <= n ->
  filter not_term (concat (match_all q 0 s)) = filter not_term s.
Proof.
  induction n as [|n IH]; intros s Hn.
  - destruct s; [reflexivity|simpl in Hn; lia].
  - destruct s as [|c r]; [reflexivity|].
    rewrite match_all_cons.
    destruct (sentence_at q (c :: r)) as [m|] eqn:E.
    + destruct (sentence_at_prefix q _ m E) as (a & m' & rest & Hm & Hs & _).
      rewrite Hs at 1 2. rewrite skipn_prefix.
      simpl concat. rewrite filter_app, IH.
      * rewrite <- filter_app, <- Hs. reflexivity.
      * assert (length (c :: r) = length (m ++ rest)) by (rewrite <- Hs; reflexivity).
        rewrite length_app, Hm in H. simpl in *. lia.
    + apply sentence_at_none in E.
      rewrite IH by (simpl in Hn; lia).
      simpl. unfold not_term at 2. rewrite E. reflexivity.
Qed.

Lemma match_all_whole : forall n s,
  length s <= n ->
  match s with [] => True | d :: _ => is_term d = false end ->
  concat (match_all false 0 s) = s.
Proof.
  induction n as [|n IH]; intros s Hn Hhead.
  - destruct s; [reflexivity|simpl in Hn; lia].
  - destruct s as [|c r]; [reflexivity|].
    rewrite match_all_cons.
    destruct (sentence_at false (c :: r)) as [m|] eqn:E.
    + destruct (sentence_at_prefix false _ m E) as (a & m' & rest & Hm & Hs & Hr).
      rewrite Hs at 1 2. rewrite skipn_prefix.
      simpl concat. rewrite IH.
      * reflexivity.
      * assert (length (c :: r) = length (m ++ rest)) by (rewrite <- Hs; reflexivity).
        rewrite length_app, Hm in H. simpl in *. lia.
      * apply Hr. reflexivity.
    + exfalso. eapply sentence_at_some; eassumption.
Qed.

Lemma match_all_leading q s :
  match_all q 0 s = match_all q 0 (dropWhile is_term s).
Proof.
  induction s as [|c r IH]; [reflexivity|].
  simpl dropWhile. destruct (is_term c) eqn:E; [|reflexivity].
  rewrite match_all_cons.
  destruct (sentence_at q (c :: r)) as [m|] eqn:Em; [|exact IH].
  exfalso. unfold sentence_at, not_term in Em. simpl in Em.
  rewrite E in Em. discriminate.
Qed.

(** X14.  Splitting a buffer into sentences keeps every code unit that is
    not one of the terminators [.!?], in place and in order, in both
    files: only terminators can be lost.  In the second file what is lost
    is exactly the run of terminators that begins the buffer (and nothing
    when the buffer holds nothing else). *)
Theorem sentences_lose_only_terminators :
  forall quote s,
    filter not_term (concat (sentences quote s)) = filter not_term s /\
    (concat (sentences false s) = s \/
     concat (sentences false s) = dropWhile is_term s).
Proof.
  intros quote s. split.
  - unfold sentences.
    pose proof (match_all_keeps quote (length s) s (le_n _)) as H.
    destruct (match_all quote 0 s) as [|m ms].
    + simpl. rewrite app_nil_r. reflexivity.
    + exact H.
  - unfold sentences. rewrite match_all_leading.
    pose proof (match_all_whole (length (dropWhile is_term s))
                  (dropWhile is_term s) (le_n _)) as H.
    destruct (match_all false 0 (dropWhile is_term s)) as [|m ms].
    + left. simpl. apply app_nil_r.
    + right. apply H.
      destruct (dropWhile is_term s) as [|d r] eqn:E; [exact I|].
      eapply dropWhile_head. exact E.
Qed.

(* ===================================================================== *)
(** ** Further facts on the segmenters *)
(* ===================================================================== *)

(** X15.  Every segment of the services segmenter fits the budget of 1500
    code units, unless it is a single sentence that exceeds it alone. *)
Theorem services_segments_fit_the_budget {engine : Engine} :
  forall text, Forall within_budget (Services.parseDialogueIntoChunks text).
Proof.
  intros text. apply Forall_forall. intros b Hb.
  eapply services_segments_within_budget. exact Hb.
Qed.

(** X16.  Making the name of a speaker canonical never changes the voice:
    the voice chosen for the canonical name is the one the raw name would
    get, whatever the map. *)
Theorem canonical_name_keeps_the_voice {engine : Engine} :
  forall cfg rawName,
    Services.voiceName cfg (Services.canonical_speaker rawName)
    = Services.voiceName cfg rawName.
Proof.
  intros cfg rawName.
  assert (Hr : toLowerCase (lit "Roberta Erickson") = lit "roberta erickson")
    by (rewrite toLowerCase_plain; reflexivity).
  assert (Hm : toLowerCase (lit "Milton Dilts") = lit "milton dilts")
    by (rewrite toLowerCase_plain; reflexivity).
  unfold Services.canonical_speaker.
  destruct (includes (toLowerCase rawName) (lit "roberta")) eqn:Er.
  - unfold Services.voiceName. rewrite Er, Hr. reflexivity.
  - destruct (includes (toLowerCase rawName) (lit "milton")) eqn:Em.
    + unfold Services.voiceName. rewrite Er, Em, Hm. reflexivity.
    + reflexivity.
Qed.

Lemma split_lines_units (P : N -> Prop) s :
  Forall P s -> Forall (Forall P) (split_lines s).
Proof.
  induction 1 as [|c r Hc Hr IH]; simpl.
  - repeat constructor.
  - destruct (c =? 10)%N.
    + constructor; [constructor|exact IH].
    + destruct (split_lines r) as [|l ls].
      * repeat constructor. exact Hc.
      * inversion IH; subst. constructor; [constructor|]; assumption.
Qed.

Lemma take_in p s c : In c (takeWhile p s) -> In c s.
Proof. intros H. rewrite <- (take_drop p s). apply in_or_app. left. exact H. Qed.

Lemma drop_in p s c : In c (dropWhile p s) -> In c s.
Proof. intros H. rewrite <- (take_drop p s). apply in_or_app. right. exact H. Qed.

(** Only a line with a colon names a speaker, in both files. *)
Lemma services_speaker_needs_colon line r :
  Services.match_speaker line = Some r -> In 58%N line.
Proof.
  unfold Services.match_speaker.
  destruct (2 <? _); [discriminate|].
  destruct (takeWhile Services.is_name_unit _); [discriminate|].
  destruct (2 <? _); [discriminate|].
  destruct (dropWhile Services.is_star
              (dropWhile Services.is_name_unit
                 (dropWhile Services.is_star line))) as [|c r4] eqn:E;
    [discriminate|].
  destruct (N.eqb_spec c 58) as [->|]; [|discriminate].
  intros _. do 3 eapply drop_in. rewrite E. left. reflexivity.
Qed.

Lemma variant_speaker_needs_colon name_ext line r :
  Variant.match_speaker name_ext line = Some r -> In 58%N line.
Proof.
  unfold Variant.match_speaker.
  destruct (takeWhile _ line); [discriminate|].
  destruct (dropWhile (Variant.is_name_unit name_ext) line) as [|c rest] eqn:E;
    [discriminate|].
  destruct (N.eqb_spec c 58) as [->|]; [|discriminate].
  intros _. eapply drop_in. rewrite E. left. reflexivity.
Qed.

Lemma blank_has_no_colon s : forallb is_ws s = true -> ~ In 58%N s.
Proof.
  intros H K. rewrite forallb_forall in H. specialize (H _ K). discriminate H.
Qed.

Lemma services_blank_line {engine : Engine} p line :
  forallb is_ws line = true -> Services.line_step p line = p.
Proof.
  intros H. unfold Services.line_step.
  destruct (Services.match_speaker line) as [[nm rest]|] eqn:E.
  - exfalso. eapply blank_has_no_colon; [exact H|].
    eapply services_speaker_needs_colon. exact E.
  - apply blank_iff in H. rewrite H. reflexivity.
Qed.

Lemma variant_blank_line name_ext p line :
  forallb is_ws line = true -> Variant.line_step name_ext p line = p.
Proof.
  intros H. unfold Variant.line_step.
  destruct (Variant.match_speaker name_ext line) as [[nm rest]|] eqn:E.
  - exfalso. eapply blank_has_no_colon; [exact H|].
    eapply variant_speaker_needs_colon. exact E.
  - apply blank_iff in H. rewrite H. reflexivity.
Qed.

Lemma fold_left_fixed {A B} (f : A -> B -> A) (P : B -> Prop) l : forall a,
  (forall b, P b -> f a b = a) -> Forall P l -> fold_left f l a = a.
Proof.
  induction l as [|b l IH]; intros a Hf Hl; [reflexivity|].
  inversion Hl; subst. simpl. rewrite Hf by assumption. apply IH; assumption.
Qed.

Lemma blank_lines text :
  nonblank text = false ->
  Forall (fun l => forallb is_ws l = true) (split_lines text).
Proof.
  intros H. apply blank_iff in H.
  assert (Hall : Forall (fun c => is_ws c = true) text)
    by (apply Forall_forall; apply forallb_forall; exact H).
  eapply Forall_impl; [|apply split_lines_units; exact Hall].
  intros l Hl. apply forallb_forall. apply Forall_forall. exact Hl.
Qed.

Lemma services_blank_script {engine : Engine} text :
  nonblank text = false -> Services.parseDialogueIntoChunks text = [].
Proof.
  intros H. unfold Services.parseDialogueIntoChunks.
  rewrite (fold_left_fixed Services.line_step
             (fun l => forallb is_ws l = true)).
  - assert (Ht : trim text = []).
    { unfold nonblank in H. destruct (trim text); [reflexivity|discriminate]. }
    rewrite Ht. reflexivity.
  - intros l Hl. apply services_blank_line. exact Hl.
  - apply blank_lines. exact H.
Qed.

Lemma variant_blank_script name_ext text :
  nonblank text = false -> Variant.parseDialogueIntoChunks name_ext text = [].
Proof.
  intros H. unfold Variant.parseDialogueIntoChunks.
  rewrite (fold_left_fixed (Variant.line_step name_ext)
             (fun l => forallb is_ws l = true)).
  - reflexivity.
  - intros l Hl. apply variant_blank_line. exact Hl.
  - apply blank_lines. exact H.
Qed.

(** X17.  A script of white space only gives no segment in either file,
    and the run of the services pipeline on it asks the service for
    nothing and calls [onComplete] alone. *)
Theorem blank_script_gives_no_segment {engine : Engine} :
  forall createWavHeader w cfg name_ext text,
    nonblank text = false ->
    Services.parseDialogueIntoChunks text = [] /\
    Variant.parseDialogueIntoChunks name_ext text = [] /\
    let m := fst (run (Services.generateSpeech createWavHeader w text cfg
                         false)) in
    calls m = [onComplete] /\ requests m = [] /\ journal m = [].
Proof.
  intros createWavHeader w cfg name_ext text H.
  split; [apply services_blank_script; exact H|].
  split; [apply variant_blank_script; exact H|].
  cbv zeta. unfold run, Services.generateSpeech.
  rewrite (services_blank_script text H).
  repeat split.
Qed.

Section BlankExample.
Local Existing Instance latin1.

Lemma blank_script_gives_no_segment_witness :
  Services.parseDialogueIntoChunks (lit "  " ++ [10; 9]%N) = [].
Proof.
  exact (proj1 (blank_script_gives_no_segment wavHeader obliging None
                  latin1_letters (lit "  " ++ [10; 9]%N) eq_refl)).
Defined.

End BlankExample.

(* ===================================================================== *)
(** ** Further facts on the pipelines *)
(* ===================================================================== *)

Lemma prefix_nil {A} (l : list A) : prefix_of [] l.
Proof. exists l. reflexivity. Qed.

Lemma prefix_refl {A} (l : list A) : prefix_of l l.
Proof. exists []. symmetry. apply app_nil_r. Qed.

Lemma prefix_cons {A} (a : A) p l : prefix_of p l -> prefix_of (a :: p) (a :: l).
Proof. intros [rest ->]. exists rest. reflexivity. Qed.

Lemma prefix_Forall {A} (P : A -> Prop) p l :
  prefix_of p l -> Forall P l -> Forall P p.
Proof.
  intros [rest ->] H. apply Forall_app in H. apply H.
Qed.

Lemma services_wanted_nonblank {engine : Engine} cfg bs :
  Forall (fun rq => nonblank (fst rq) = true) (services_wanted cfg bs).
Proof.
  unfold services_wanted. apply Forall_map. apply Forall_forall.
  intros b Hb. apply filter_In in Hb. exact (proj2 Hb).
Qed.

Section ServicesRequests.
Context {engine : Engine}.
Import Services ServicesScript.

Variable createWavHeader : N -> N -> N -> N -> bytes.
Variable w : world.

Lemma services_wanted_cons cfg b rest :
  services_wanted cfg (b :: rest)
  = if speakable b
    then (cleanedText (text b), voiceName cfg (speaker b))
         :: services_wanted cfg rest
    else services_wanted cfg rest.
Proof. unfold services_wanted. simpl. destruct (speakable b); reflexivity. Qed.

(** The loop asks for the segments that are not blank, in order, up to
    where it stops; it asks for all of them when it returns. *)
Lemma assembly_requests cfg n bs : forall i wr total m,
  exists p,
    requests (fst (assembly w wr cfg n i bs total m)) = requests m ++ p /\
    prefix_of p (services_wanted cfg bs) /\
    (forall t, snd (assembly w wr cfg n i bs total m) = inr t ->
               p = services_wanted cfg bs).
Proof.
  induction bs as [|b rest IH]; intros i wr total m.
  - exists []. simpl. rewrite app_nil_r.
    split; [reflexivity|]. split; [apply prefix_nil|reflexivity].
  - rewrite assembly_cons, services_wanted_cons.
    destruct (speakable b); [|apply IH].
    set (rq := (cleanedText (text b), voiceName cfg (speaker b))).
    set (m1 := add_requests m [rq]).
    destruct (consume_frame w (answer w cfg i b) wr total m1) as (ds & _ & Hr).
    destruct (consume w wr (answer w cfg i b) total m1) as [m2 [e|total']];
      simpl in Hr.
    + exists [rq]. simpl. rewrite Hr.
      split; [reflexivity|]. split; [|discriminate].
      apply prefix_cons, prefix_nil.
    + destruct (IH (S i) wr total'
                   (add_calls m2 [onProgress (percent (i + 1) n)]))
        as (p & Hp & Hpre & Hall).
      exists (rq :: p). rewrite Hp. simpl. rewrite Hr.
      split; [unfold m1; simpl; rewrite <- app_assoc; reflexivity|].
      split; [apply prefix_cons; exact Hpre|].
      intros t Ht. rewrite (Hall t Ht). reflexivity.
Qed.

Lemma assembly_progress_bounded cfg n bs : forall i wr total m,
  i + length bs <= n ->
  Forall (fun v => (v <= 100)%N) (progress_values (calls m)) ->
  Forall (fun v => (v <= 100)%N)
    (progress_values (calls (fst (assembly w wr cfg n i bs total m)))).
Proof.
  induction bs as [|b rest IH]; intros i wr total m Hn Hm.
  - exact Hm.
  - simpl in Hn. rewrite assembly_cons.
    destruct (speakable b); [|apply IH; [lia|exact Hm]].
    set (m1 := add_requests m _).
    destruct (consume_frame w (answer w cfg i b) wr total m1) as (ds & Hc & _).
    destruct (consume w wr (answer w cfg i b) total m1) as [m2 [e|total']];
      simpl in Hc.
    + simpl. rewrite Hc, progress_values_app, progress_values_chunks, app_nil_r.
      exact Hm.
    + apply IH; [lia|].
      simpl. rewrite Hc, !progress_values_app, progress_values_chunks.
      simpl. rewrite app_nil_r. apply Forall_app. split; [exact Hm|].
      constructor; [|constructor].
      rewrite <- (percent_full n) by lia. apply percent_mono. lia.
Qed.

End ServicesRequests.

Lemma report_no_complete {engine : Engine} e m :
  ~ In onComplete (calls m) ->
  ~ In onComplete (calls (fst (Services.report e m))).
Proof.
  rewrite report_cases. destruct e as [|message]; simpl; [auto|].
  intros H K. apply in_app_or in K.
  destruct K as [K|[K|[]]]; [exact (H K)|discriminate].
Qed.

Lemma report_progress {engine : Engine} e m :
  progress_values (calls (fst (Services.report e m)))
  = progress_values (calls m).
Proof.
  rewrite report_cases. destruct e as [|message]; simpl; [reflexivity|].
  rewrite progress_values_app. simpl. apply app_nil_r.
Qed.

(** X18.  The services pipeline asks the service for the segments that are
    not blank once cleaned, in the order of the script and each once, with
    the cleaned text and the voice of its speaker: what it asked is a
    beginning of that list, never holds a blank text, and is the whole list
    in every run that calls [onComplete]. *)
Theorem services_requests_follow_segments {engine : Engine} :
  forall createWavHeader w text cfg fh,
    let r := run (Services.generateSpeech createWavHeader w text cfg fh) in
    let wanted :=
      services_wanted cfg (Services.parseDialogueIntoChunks text) in
    prefix_of (requests (fst r)) wanted /\
    Forall (fun rq => nonblank (fst rq) = true) (requests (fst r)) /\
    (requests (fst r) = wanted \/ ~ In onComplete (calls (fst r))).
Proof.
  intros createWavHeader w text cfg fh. cbv zeta.
  set (wanted := services_wanted cfg (Services.parseDialogueIntoChunks text)).
  assert (H : prefix_of
                (requests (fst (run (Services.generateSpeech createWavHeader w
                                       text cfg fh)))) wanted /\
              (requests (fst (run (Services.generateSpeech createWavHeader w
                                     text cfg fh))) = wanted \/
               ~ In onComplete
                   (calls (fst (run (Services.generateSpeech createWavHeader w
                                       text cfg fh)))))).
  { unfold run. rewrite generateSpeech_paths. cbv zeta.
    destruct (opening_frame createWavHeader w fh boot) as [Hoc Hor].
    destruct (opening createWavHeader w fh boot) as [m1 [e|[]]];
      simpl in Hoc, Hor.
    { destruct (report_frame e m1) as (_ & _ & Hrq & _).
      rewrite Hrq, Hor. split; [apply prefix_nil|].
      right. apply report_no_complete. rewrite Hoc. intros []. }
    destruct (assembly_requests w cfg
                (length (Services.parseDialogueIntoChunks text))
                (Services.parseDialogueIntoChunks text) 0 fh 0 m1)
      as (p & Hp & Hpre & Hall).
    destruct (assembly_frame w cfg
                (length (Services.parseDialogueIntoChunks text))
                (Services.parseDialogueIntoChunks text) 0 fh 0 m1)
      as (evs & js & Hc & Hev & _).
    rewrite Hoc in Hc. simpl in Hc.
    rewrite Hor in Hp. simpl in Hp. fold wanted in Hpre, Hall.
    destruct (Services.assembly w fh cfg _ 0 _ 0 m1) as [m2 [e|total]];
      simpl in Hp, Hall, Hc.
    { destruct (report_frame e m2) as (_ & _ & Hrq & _).
      rewrite Hrq, Hp. split; [exact Hpre|].
      right. apply report_no_complete. rewrite Hc.
      apply (loop_events_quiet evs Hev). }
    destruct (closing_frame createWavHeader w fh total m2) as (warn & _ & _ & Hr).
    destruct (closing createWavHeader w fh total m2) as [m3 [e|[]]];
      simpl in Hr.
    - destruct (report_frame e m3) as (_ & _ & Hrq & _).
      rewrite Hrq, Hr, Hp, (Hall total eq_refl).
      split; [apply prefix_refl|left; reflexivity].
    - simpl. rewrite Hr, Hp, (Hall total eq_refl).
      split; [apply prefix_refl|left; reflexivity]. }
  destruct H as [Hpre Hend].
  split; [exact Hpre|]. split; [|exact Hend].
  eapply prefix_Forall; [exact Hpre|apply services_wanted_nonblank].
Qed.



Section VariantBounds.
Context {engine : Engine}.
Import Variant VariantScript.

Variable w : world.
Variable cb : callbacks.

Lemma variant_assembly_progress_bounded wr cfg n bs : forall i p m,
  p <= i -> i + length bs <= n ->
  Forall (fun v => (v <= 100)%N) (progress_values (calls m)) ->
  Forall (fun v => (v <= 100)%N)
    (progress_values (calls (fst (assembly w cb wr cfg n i bs p m)))).
Proof.
  induction bs as [|b rest IH]; intros i p m Hp Hn Hm.
  - exact Hm.
  - simpl in Hn. rewrite variant_assembly_cons.
    destruct (guarded_frame w cb wr cfg n i b p m)
      as (m1 & p1 & evs & Hg & Hc & _ & _ & Hcount).
    rewrite Hg. apply IH.
    + destruct Hcount as [[-> _]|[-> _]]; lia.
    + lia.
    + rewrite Hc, progress_values_app. apply Forall_app.
      split; [exact Hm|].
      destruct Hcount as [[_ ->]|[_ [->|[_ ->]]]]; try constructor;
        [|constructor].
      rewrite <- (percent_full n) by lia. apply percent_mono. lia.
Qed.

Lemma when_file_frame fh op eff m :
  calls (fst (when fh (attempt (fault w) op eff) m)) = calls m /\
  requests (fst (when fh (attempt (fault w) op eff) m)) = requests m.
Proof.
  unfold when. destruct fh; [apply attempt_frame|split; reflexivity].
Qed.

End VariantBounds.

(** X20.  No progress report exceeds 100 in either pipeline, whatever the
    service and the file do and whichever callbacks are supplied. *)
Theorem progress_never_exceeds_100 {engine : Engine} :
  forall createWavHeader ws wv cb name_ext text cfg fh,
    Forall (fun v => (v <= 100)%N)
      (progress_values
         (calls (fst (run (Services.generateSpeech createWavHeader ws text cfg
                             fh))))) /\
    Forall (fun v => (v <= 100)%N)
      (progress_values
         (calls (fst (run (Variant.generateSpeech name_ext wv cb text cfg
                             fh))))).
Proof.
  intros createWavHeader ws wv cb name_ext text cfg fh. split.
  - unfold run. rewrite generateSpeech_paths. cbv zeta.
    destruct (opening_frame createWavHeader ws fh boot) as [Hoc _].
    destruct (opening createWavHeader ws fh boot) as [m1 [e|[]]]; simpl in Hoc.
    { rewrite report_progress, Hoc. constructor. }
    pose proof (assembly_progress_bounded ws cfg
                  (length (Services.parseDialogueIntoChunks text))
                  (Services.parseDialogueIntoChunks text) 0 fh 0 m1
                  (le_n _)) as Hb.
    rewrite Hoc in Hb. specialize (Hb (Forall_nil _)).
    destruct (Services.assembly ws fh cfg _ 0 _ 0 m1) as [m2 [e|total]];
      simpl in Hb.
    { rewrite report_progress. exact Hb. }
    destruct (closing_frame createWavHeader ws fh total m2)
      as (warn & Hw & Hwarn & _).
    assert (Hq : progress_values (calls (fst (closing createWavHeader ws fh
                                                total m2)))
                 = progress_values (calls m2)).
    { rewrite Hw, progress_values_app.
      destruct Hwarn as [->| ->]; simpl; apply app_nil_r. }
    destruct (closing createWavHeader ws fh total m2) as [m3 [e|[]]];
      simpl in Hq.
    + rewrite report_progress, Hq. exact Hb.
    + simpl. rewrite progress_values_app, Hq. simpl.
      rewrite app_nil_r. exact Hb.
  - unfold run, Variant.generateSpeech. rewrite variant_paths.
    set (bs := Variant.parseDialogueIntoChunks name_ext text).
    destruct (when_file_frame wv fh FsCreateWritable
                (fun _ => ([], 0, false)) boot) as [Hc1 _].
    fold (createWritable (Variant.fault wv)) in Hc1.
    destruct (Variant.when fh (createWritable (Variant.fault wv)) boot)
      as [m1 [e|[]]]; simpl in Hc1.
    { simpl. rewrite Hc1. constructor. }
    pose proof (variant_assembly_progress_bounded wv cb fh cfg (length bs) bs
                  0 0 m1 (le_n _) (le_n _)) as Hb.
    rewrite Hc1 in Hb. specialize (Hb (Forall_nil _)).
    destruct (Variant.assembly wv cb fh cfg (length bs) 0 bs 0 m1)
      as [m2 [e|p]]; simpl in Hb; [exact Hb|].
    destruct (when_file_frame wv fh FsClose
                (fun m => (staged m, cursor m, true)) m2) as [Hc3 _].
    fold (close (Variant.fault wv)) in Hc3.
    destruct (Variant.when fh (close (Variant.fault wv)) m2)
      as [m3 [e|[]]]; simpl in Hc3.
    { simpl. rewrite Hc3. exact Hb. }
    unfold Variant.when, emit, ret. destruct (Variant.has_onComplete cb); simpl.
    + rewrite progress_values_app, Hc3. simpl. rewrite app_nil_r. exact Hb.
    + rewrite Hc3. exact Hb.
Qed.


(** X22.  A file that cannot be opened.  The services pipeline catches
    what the opening threw: a value with a message is reported through
    [onError], the only callback, and the run returns; [null] or
    [undefined] makes the [catch] block throw its [TypeError], and the run
    rejects with no callback at all.  The pipeline of the second file
    rejects with the value thrown and calls nothing.  Neither asks the
    service for anything. *)
Theorem open_failure_is_reported_or_thrown {engine : Engine} :
  forall createWavHeader ws wv cb name_ext text cfg e,
    Services.fault ws FsCreateWritable 0 = Some e ->
    Variant.fault wv FsCreateWritable 0 = Some e ->
    let rs := run (Services.generateSpeech createWavHeader ws text cfg true) in
    let rv := run (Variant.generateSpeech name_ext wv cb text cfg true) in
    (match e with
     | WithMessage message =>
         snd rs = inr tt /\
         calls (fst rs) = [onError (Services.error_message message)]
     | Nullish =>
         snd rs = inl (WithMessage nullishMessage) /\ calls (fst rs) = []
     end /\
     requests (fst rs) = []) /\
    (snd rv = inl e /\ calls (fst rv) = [] /\ requests (fst rv) = []).
Proof.
  intros createWavHeader ws wv cb name_ext text cfg e Hs Hv. cbv zeta. split.
  - unfold run. rewrite generateSpeech_paths. cbv zeta.
    unfold opening, bind, createWritable, attempt. simpl. rewrite Hs.
    rewrite report_cases. destruct e as [|message]; repeat split.
  - unfold run, Variant.generateSpeech. rewrite variant_paths.
    unfold Variant.when, createWritable, attempt. simpl. rewrite Hv.
    repeat split.
Qed.

Section OpenFailureExample.
Local Existing Instance latin1.

Lemma open_failure_is_reported_or_thrown_witness :
  calls (fst (run (Services.generateSpeech wavHeader obliging_no_file greeting
                     None true)))
  = [onError (lit "NotAllowedError")] /\
  snd (run (Variant.generateSpeech latin1_letters variant_obliging_no_file
              Variant.all_callbacks greeting None true))
  = inl (WithMessage (lit "NotAllowedError")).
Proof.
  pose proof (open_failure_is_reported_or_thrown wavHeader obliging_no_file
                variant_obliging_no_file Variant.all_callbacks latin1_letters
                greeting None (WithMessage (lit "NotAllowedError"))
                eq_refl eq_refl) as H.
  cbv zeta in H.
  exact (conj (proj2 (proj1 (proj1 H))) (proj1 (proj2 H))).
Defined.

End OpenFailureExample.

(* ===================================================================== *)
(** ** The two cleaners and the budget of the second file *)
(* ===================================================================== *)

Lemma clean_from_plain : forall s,
  no_line_terminator s -> Variant.clean_from false 0 s = s.
Proof.
  induction 1 as [|c r Hc Hr IH]; [reflexivity|].
  simpl. rewrite Hc, IH. reflexivity.
Qed.

Lemma clean_from_skip : forall pre b rest,
  no_line_terminator pre -> no_line_terminator rest ->
  pre <> [] \/ b = false ->
  Variant.clean_from b (length pre) (pre ++ rest) = rest.
Proof.
  induction pre as [|a pre IH]; intros b rest Hpre Hrest Hb.
  - destruct Hb as [Hb| ->]; [congruence|].
    destruct rest as [|c r]; [reflexivity|].
    apply (clean_from_plain (c :: r)). exact Hrest.
  - inversion Hpre as [|? ? Ha Hpre']; subst.
    destruct pre as [|a' pre].
    + simpl. rewrite Ha. apply (IH false rest); auto.
    + change (Variant.clean_from b (length (a :: a' :: pre))
                ((a :: a' :: pre) ++ rest))
        with (Variant.clean_from (is_line_terminator a) (length (a' :: pre))
                ((a' :: pre) ++ rest)).
      apply IH; [assumption|assumption|left; discriminate].
Qed.

Lemma suffix_dropWhile p (s : str) : suffix_of (dropWhile p s) s.
Proof. exists (takeWhile p s). symmetry. apply take_drop. Qed.

Lemma suffix_cons {A} (a : A) t s : suffix_of t s -> suffix_of t (a :: s).
Proof. intros [pre ->]. exists (a :: pre). reflexivity. Qed.

Lemma after_close_suffix : forall s r, Services.after_close s = Some r -> suffix_of r s.
Proof.
  induction s as [|c s IH]; intros r; simpl; [discriminate|].
  destruct (is_close c).
  - intros H. injection H as <-. exists [c]. reflexivity.
  - destruct (is_line_terminator c); [discriminate|].
    intros H. apply suffix_cons. apply IH. exact H.
Qed.

Lemma after_close_plain : forall s,
  no_line_terminator s ->
  Services.after_close s
  = match dropWhile (fun d => negb (is_close d)) s with
    | _ :: r2 => Some r2
    | [] => None
    end.
Proof.
  induction 1 as [|c r Hc Hr IH]; [reflexivity|].
  simpl. destruct (is_close c); simpl; [reflexivity|].
  rewrite Hc. exact IH.
Qed.

Lemma no_line_terminator_suffix t s :
  suffix_of t s -> no_line_terminator s -> no_line_terminator t.
Proof.
  intros [pre ->] H. apply Forall_app in H. apply H.
Qed.

Lemma cleanedText_suffix t : suffix_of (Services.cleanedText t) t.
Proof.
  unfold Services.cleanedText.
  pose proof (suffix_dropWhile is_ws t) as H0.
  destruct (dropWhile is_ws t) as [|c r]; [apply suffix_refl|].
  destruct (is_open c); [|apply suffix_refl].
  destruct (Services.after_close r) as [r2|] eqn:E; [|apply suffix_refl].
  eapply suffix_trans; [apply suffix_dropWhile|].
  eapply suffix_trans; [apply after_close_suffix; exact E|].
  eapply suffix_trans; [|exact H0].
  exists [c]. reflexivity.
Qed.

Lemma suffix_length {A} (t s : list A) : suffix_of t s -> length t <= length s.
Proof. intros [pre ->]. rewrite length_app. lia. Qed.

Lemma cleaned_as_direction t :
  no_line_terminator t ->
  Services.cleanedText t
  = match Variant.direction_at t with Some rest => rest | None => t end.
Proof.
  intros Ht. unfold Services.cleanedText, Variant.direction_at.
  pose proof (suffix_dropWhile is_ws t) as H0.
  destruct (dropWhile is_ws t) as [|a r1]; [reflexivity|].
  destruct (is_open a); [|reflexivity].
  assert (Hr1 : no_line_terminator r1).
  { eapply no_line_terminator_suffix; [|exact Ht].
    eapply suffix_trans; [|exact H0]. exists [a]. reflexivity. }
  rewrite (after_close_plain r1 Hr1).
  destruct (dropWhile (fun d => negb (is_close d)) r1); reflexivity.
Qed.

(** A stage direction is a non-empty beginning. *)
Lemma direction_at_prefix t rest :
  Variant.direction_at t = Some rest ->
  exists a pre, t = (a :: pre) ++ rest.
Proof.
  unfold Variant.direction_at.
  pose proof (take_drop is_ws t) as H0.
  destruct (dropWhile is_ws t) as [|a r1]; [discriminate|].
  destruct (is_open a); [|discriminate].
  pose proof (take_drop (fun d => negb (is_close d)) r1) as H1.
  destruct (dropWhile (fun d => negb (is_close d)) r1) as [|x r2];
    [discriminate|].
  pose proof (take_drop is_ws r2) as H2.
  intros H. injection H as <-.
  assert (Ht : t = (takeWhile is_ws t ++ a
                    :: takeWhile (fun d => negb (is_close d)) r1
                    ++ x :: takeWhile is_ws r2) ++ dropWhile is_ws r2).
  { rewrite <- H0 at 1. rewrite <- H1 at 1. rewrite <- H2 at 1.
    rewrite <- !app_assoc. simpl. rewrite <- !app_assoc. reflexivity. }
  destruct (takeWhile is_ws t ++ a
            :: takeWhile (fun d => negb (is_close d)) r1
            ++ x :: takeWhile is_ws r2) as [|b pre] eqn:E.
  - destruct (takeWhile is_ws t); discriminate E.
  - exists b, pre. exact Ht.
Qed.

(** X23.  The cleaning of the services file removes a beginning of the
    text only, and on a text without a line terminator the cleaning of the
    second file does the same: there the two agree.  (The second one goes
    on at every line of a text of several lines.) *)
Theorem cleaners_agree_on_one_line :
  forall t,
    no_line_terminator t ->
    Variant.cleanTextForSpeech t = Services.cleanedText t /\
    suffix_of (Services.cleanedText t) t.
Proof.
  intros t Ht. split; [|apply cleanedText_suffix].
  rewrite (cleaned_as_direction t Ht).
  unfold Variant.cleanTextForSpeech.
  destruct t as [|c r]; [reflexivity|].
  inversion Ht as [|? ? Hc Hr]; subst.
  unfold Variant.clean_from; fold Variant.clean_from.
  destruct (Variant.direction_at (c :: r)) as [rest|] eqn:E.
  - destruct (direction_at_prefix _ _ E) as (a & pre & Hpre).
    injection Hpre as <- Hr'.
    assert (Hall : no_line_terminator (pre ++ rest)) by (rewrite <- Hr'; exact Hr).
    apply Forall_app in Hall. destruct Hall as [Hp Hrest].
    rewrite Hc. subst r. simpl length. rewrite length_app.
    replace (S (length pre + length rest) - length rest - 1)
      with (length pre) by lia.
    apply clean_from_skip; auto.
  - rewrite Hc. f_equal. apply clean_from_plain. exact Hr.
Qed.

Lemma cleaners_agree_on_one_line_witness :
  Variant.cleanTextForSpeech (lit "(softly) Peace be with you.")
  = Services.cleanedText (lit "(softly) Peace be with you.").
Proof.
  refine (proj1 (cleaners_agree_on_one_line
                   (lit "(softly) Peace be with you.") _)).
  repeat constructor.
Defined.

Section VariantBudget.
Import Variant.

Variable name_ext : N -> bool.

Lemma variant_pack_budget chunk spk l : forall out temp,
  (forall u, In u l -> In u (sentences false chunk)) ->
  Forall variant_within_budget out ->
  (length temp <= MAX_CHARS + 1 \/ In temp (sentences false chunk)) ->
  Forall variant_within_budget (fst (fold_left (pack spk) l (out, temp))) /\
  (length (snd (fold_left (pack spk) l (out, temp))) <= MAX_CHARS + 1 \/
   In (snd (fold_left (pack spk) l (out, temp))) (sentences false chunk)).
Proof.
  induction l as [|u l IH]; intros out temp Hl Hout Htemp; simpl.
  - split; assumption.
  - destruct (Nat.ltb_spec MAX_CHARS (length (temp ++ u))) as [Hlt|Hle].
    + apply IH.
      * intros v Hv. apply Hl. right. exact Hv.
      * apply Forall_app. split; [assumption|].
        constructor; [|constructor].
        destruct Htemp as [H|H]; [left; exact H|right; exists chunk; exact H].
      * right. apply Hl. left. reflexivity.
    + apply IH.
      * intros v Hv. apply Hl. right. exact Hv.
      * assumption.
      * left. rewrite length_app in Hle.
        destruct temp as [|c temp]; [cbn [length] in *; lia|].
        rewrite !length_app. cbn [length] in *. lia.
Qed.

Lemma split_chunk_budget chunk :
  Forall variant_within_budget (split_chunk chunk).
Proof.
  unfold split_chunk.
  destruct (Nat.ltb_spec MAX_CHARS (length (text chunk))) as [Hlt|Hle].
  - destruct (variant_pack_budget (text chunk) (speaker chunk)
                (sentences false (text chunk)) [] []
                (fun u H => H) (Forall_nil _)) as [Hout Htemp].
    { left. simpl. lia. }
    destruct (fold_left _ _ _) as [out temp]. simpl in *.
    destruct temp as [|c temp]; [exact Hout|].
    apply Forall_app. split; [exact Hout|].
    constructor; [|constructor].
    destruct Htemp as [H|H]; [left; exact H|right; exists (text chunk); exact H].
  - constructor; [|constructor]. left. lia.
Qed.

End VariantBudget.

(** X24.  In the second file every segment has at most 1501 code units
    (the budget and the joining space that the test does not count),
    unless it is a single sentence. *)
Theorem variant_segments_fit_the_budget_but_one :
  forall name_ext text,
    Forall variant_within_budget (Variant.parseDialogueIntoChunks name_ext text).
Proof.
  intros name_ext text. unfold Variant.parseDialogueIntoChunks.
  apply Forall_flat_map. apply Forall_forall. intros chunk _.
  apply split_chunk_budget.
Qed.

(** X25.  A run of the services pipeline with a file that is ended by a
    failing request leaves the file as it is: the stream is never closed,
    and the only header written is the placeholder for zero bytes, in front
    of the audio received so far.  Behind the callbacks of the blocks
    played the run reports the message of what was thrown through [onError]
    and returns; where [null] or [undefined] was thrown it reports nothing
    and rejects with the [TypeError] of the [catch] block. *)
Theorem failed_file_run_leaves_the_file_open {engine : Engine} :
  forall createWavHeader w text cfg e,
    only_rewrite_fails (Services.fault w) ->
    snd (ServicesScript.script w cfg
           (length (Services.parseDialogueIntoChunks text)) 0
           (Services.parseDialogueIntoChunks text)) = Some e ->
    let r := run (Services.generateSpeech createWavHeader w text cfg true) in
    let m := fst r in
    let played_calls :=
      heard true (fst (ServicesScript.script w cfg
                         (length (Services.parseDialogueIntoChunks text)) 0
                         (Services.parseDialogueIntoChunks text))) in
    closed m = false /\
    ~ In FsClose (journal m) /\
    header_sizes (journal m) = [0%N] /\
    match e with
    | WithMessage message =>
        snd r = inr tt /\
        calls m = played_calls ++ [onError (Services.error_message message)]
    | Nullish =>
        snd r = inl (WithMessage nullishMessage) /\ calls m = played_calls
    end.
Proof.
  intros createWavHeader w text cfg e Hf He. cbv zeta.
  rewrite (file_run_thrown createWavHeader w text cfg e Hf He).
  rewrite report_cases.
  destruct e as [|message]; cbn [fst snd]; repeat split.
  - simpl. intros [H|[H|H]]; try discriminate.
    apply in_map_iff in H. destruct H as (d & H & _). discriminate.
  - simpl. rewrite header_sizes_audio. reflexivity.
  - simpl. intros [H|[H|H]]; try discriminate.
    apply in_map_iff in H. destruct H as (d & H & _). discriminate.
  - simpl. rewrite header_sizes_audio. reflexivity.
Qed.

Section OpenFileExample.
Local Existing Instance latin1.

Lemma failed_file_run_leaves_the_file_open_witness :
  closed (fst (run (Services.generateSpeech wavHeader first_refused greeting
                      None true))) = false.
Proof.
  exact (proj1 (failed_file_run_leaves_the_file_open wavHeader first_refused
                  greeting None (WithMessage (lit "quota exceeded"))
                  (reliable_only_rewrite _ (fun _ _ => eq_refl)) eq_refl)).
Defined.

End OpenFileExample.

Section VariantRequests.
Context {engine : Engine}.
Import Variant VariantScript.

Variable w : world.
Variable cb : callbacks.

Lemma guarded_requests wr cfg n i b p m :
  requests (fst (guarded w cb wr cfg n i b p m))
  = requests m ++ (if speakable b
                   then [(cleanTextForSpeech (text b),
                          voiceName cfg (speaker b))]
                   else []).
Proof.
  unfold guarded, try_catch, attempt_block, bind, when, writeChunkToStream,
    write, attempt, ask, emit, ret, throw, add_calls, add_requests, speakable.
  destruct (nonblank (cleanTextForSpeech (text b))); simpl;
    [|symmetry; apply app_nil_r].
  destruct (synthesize w i _ _) as [e|[d|]]; simpl;
    [destruct (has_onError cb); reflexivity| |
     destruct (has_onProgress cb); reflexivity].
  destruct wr; simpl.
  - destruct (fault w (FsWrite Audio d) (issued m)); simpl;
      [destruct (has_onError cb)|destruct (has_onProgress cb)]; reflexivity.
  - destruct (has_onChunk cb), (has_onProgress cb); reflexivity.
Qed.

Lemma variant_assembly_requests wr cfg n bs : forall i p m,
  requests (fst (assembly w cb wr cfg n i bs p m))
  = requests m ++ wanted cfg bs.
Proof.
  induction bs as [|b rest IH]; intros i p m.
  - simpl. symmetry. apply app_nil_r.
  - rewrite variant_assembly_cons.
    pose proof (guarded_requests wr cfg n i b p m) as Hg.
    destruct (guarded_frame w cb wr cfg n i b p m) as (m1 & p1 & evs & Hrun & _).
    rewrite Hrun in *. simpl in Hg. rewrite IH, Hg.
    unfold wanted. simpl. destruct (speakable b); simpl.
    + rewrite <- app_assoc. reflexivity.
    + rewrite app_nil_r. reflexivity.
Qed.

End VariantRequests.

(** X26.  Once the file is open (or without one) the pipeline of the
    second file asks the service for every segment that is not blank once
    cleaned, in order and each once, whatever fails on the way: a request
    that throws, a write of audio that throws, a callback that is not
    supplied. *)
Theorem variant_requests_survive_failures {engine : Engine} :
  forall w cb name_ext text cfg fh,
    (fh = true -> Variant.fault w FsCreateWritable 0 = None) ->
    requests (fst (run (Variant.generateSpeech name_ext w cb text cfg fh)))
    = wanted cfg (Variant.parseDialogueIntoChunks name_ext text).
Proof.
  intros w cb name_ext text cfg fh Hopen.
  unfold run, Variant.generateSpeech. rewrite variant_paths.
  set (bs := Variant.parseDialogueIntoChunks name_ext text).
  assert (H1 : exists m1,
            Variant.when fh (createWritable (Variant.fault w)) boot
            = (m1, inr tt) /\ requests m1 = []).
  { unfold Variant.when, createWritable, attempt. destruct fh; simpl.
    - rewrite (Hopen eq_refl). eexists. split; reflexivity.
    - eexists. split; reflexivity. }
  destruct H1 as (m1 & -> & Hr1).
  pose proof (variant_assembly_requests w cb fh cfg (length bs) bs 0 0 m1) as Hr.
  rewrite Hr1 in Hr. simpl in Hr.
  destruct (variant_assembly_frame w cb fh cfg (length bs) bs 0 0 m1)
    as (m2 & p2 & evs & ks & Hrun & _).
  rewrite Hrun in *. simpl in Hr.
  destruct (when_file_frame w fh FsClose
              (fun m => (staged m, cursor m, true)) m2) as [_ Hr3].
  fold (close (Variant.fault w)) in Hr3.
  destruct (Variant.when fh (close (Variant.fault w)) m2) as [m3 [e|[]]];
    simpl in Hr3.
  - simpl. congruence.
  - unfold Variant.when, emit, ret. destruct (Variant.has_onComplete cb); simpl;
      congruence.
Qed.

Section SurvivingExample.
Local Existing Instance latin1.

Lemma variant_requests_survive_failures_witness :
  requests (fst (run (Variant.generateSpeech latin1_letters
                        variant_first_refused Variant.all_callbacks greeting
                        None true)))
  = [(lit "Hello there.", lit "Aoede"); (lit "Hi Alice!", lit "Aoede")].
Proof.
  exact (variant_requests_survive_failures variant_first_refused
           Variant.all_callbacks latin1_letters greeting None true
           (fun _ => eq_refl)).
Defined.

End SurvivingExample.
